(** * Cascade replay engine of the game client: a shallow embedding

    The development follows [src/game/phaser-board.tsx] (the board scene
    that replays a server-computed [PlayOutcome]) and
    [src/game/state-machine.ts] (the application state machine).
    It also covers the colour helpers of the board, the event bus
    ([src/lib/event-bus.ts]), [formatMoney] ([src/lib/format-money.ts]),
    the values the page derives for its controls ([src/app/page.tsx]) and
    the requests in flight of the WebSocket client ([src/api/client.ts]).

    Conventions of the embedding:
    - JavaScript numbers that hold counts, indices and amounts are [Z] or
      [nat]; the layout arithmetic of [computeMetrics], which divides, is
      done over the rationals [Q]; the colour arithmetic and the
      neighbours of a contour cell are rounded to doubles;
    - arrays are lists, read with the total lookup [!!]; an absent entry is
      [None], as JavaScript's [undefined];
    - the [Map] from the key [`${row}-${col}`] to a cell container is a
      [gmap] keyed by the pair [(row, col)];
    - closures handed to [this.time.delayedCall] are defunctionalised: a
      constructor of [Callback] stands for each closure and carries the
      variables the closure captures. *)

From Stdlib Require Import ZArith QArith Qround Lia Lqa List String Ascii.
From Stdlib Require Import DecimalString DecimalN DecimalPos.
From stdpp Require Import base gmap list strings.

Open Scope Z_scope.

(** ** The application state machine ([state-machine.ts]) *)

Module StateMachine.

Inductive GameState : Type :=
| MENU | LOADING | READY | REVEAL | CASCADE_LOOP
| END_TICKET | PACK_LIST | REPLAY | SUMMARY.

(** A value stored under a key of [StateContext]: [mode] holds a game
    mode name, [packId] a string, [ticketIndex] a number; a key may also
    be present with the value [undefined]. *)
Inductive CtxValue : Type :=
| VUndefined
| VString (s : string)
| VNumber (n : Z).

(** [ctx] is an object; [Object.assign] copies the own keys of its
    second argument over it. *)
Record StateMachine : Type := mkMachine {
  state : GameState;
  context : gmap string CtxValue
}.

Definition createStateMachine (initial : option GameState) : StateMachine :=
  {| state := default MENU initial; context := ∅ |}.

Definition objectAssign (target source : gmap string CtxValue)
  : gmap string CtxValue :=
  source ∪ target.

Definition transition (next : GameState)
    (partial : option (gmap string CtxValue)) (m : StateMachine)
  : StateMachine :=
  {| state := next;
     context := match partial with
                | Some p => objectAssign (context m) p
                | None => context m
                end |}.

End StateMachine.

(** ** The outcome model ([src/api/types.ts]) *)

Inductive GameMode : Type := nivel1 | nivel2 | pack.

Inductive FillMode : Type := replace | cascade | rodillo.

Abbreviation Grid := (list (list string)).

Record CellRef : Type := mkCell { row : Z; col : Z }.

Record DropIn : Type := mkDropIn { dropCol : Z; symbols : list string }.

Record BonusData : Type := mkBonusData {
  bonusMode : GameMode;
  triggerCount : Z;
  triggerCells : option (list CellRef);
  prizeMultipliers : list Z;
  endCode : string;
  maxRounds : Z
}.

(** [winStep] is an amount; amounts are integers here (minor units). *)
Record CascadeStep : Type := mkStep {
  removeCells : list CellRef;
  dropIn : list DropIn;
  winStep : Z;
  gridAfter : option Grid;
  bonus : option bool;
  bonusData : option BonusData
}.

Record PlayOutcome : Type := mkPlay {
  playId : string;
  mode : GameMode;
  bet : Z;
  grid0 : Grid;
  cascades : list CascadeStep;
  totalWin : Z
}.

(** ** Board shape and layout metrics *)

Record GridSize : Type := mkSize { rows : Z; cols : Z }.

Record BoardMetrics : Type := mkMetrics {
  cellSize : Q;
  gap : Q;
  offsetY : Q;
  padding : Q;
  width : Q;
  height : Q;
  mrows : Z;
  mcols : Z
}.

Definition DEFAULT_METRICS : BoardMetrics :=
  {| cellSize := 70; gap := 8; offsetY := 32; padding := 0;
     width := 640; height := 640; mrows := 7; mcols := 5 |}.

Definition BONUS_TRIGGER_SYMBOL : string := "N".
Definition BONUS_HIGHLIGHT_LIMIT : Z := 3.
Definition MATCH_CONTOUR_DURATION : Z := 340.
Definition LEVEL_ONE_PREVIEW_SIZE : GridSize := {| rows := 3; cols := 5 |}.
Definition LEVEL_TWO_PREVIEW_SIZE : GridSize := {| rows := 7; cols := 5 |}.
Definition FALLBACK_STRIP_SYMBOLS : list string :=
  ["A"; "B"; "C"; "D"; "E"; "F"; "G"; "H"; "I"; "J"; "K"; "L"; "M"; "N"; "O"].

(** [Math.round] on a rational: the nearest integer, halves upwards. *)
Definition Math_round (x : Q) : Z := Qfloor (x + (1 # 2))%Q.

(** *** Double arithmetic

    A JavaScript number is a double.  An operation on doubles returns the
    double nearest to the exact result, a tie going to the double with the
    even significand; a result of [2 ^ 1024] or more in magnitude is an
    infinity.  [Double.round] is that rounding on the rationals.  An
    infinity is stood for by [2 ^ 1024] with its sign: the functions that
    round here clamp the result to a range, and whatever is added to an
    infinity by them stays above that range. *)
Module Double.

(** [2 ^ e] for an exponent of either sign. *)
Definition pow2 (e : Z) : Q :=
  if 0 <=? e then inject_Z (2 ^ e) else / inject_Z (2 ^ (- e)).

(** The exponent of a positive number [x]: [2 ^ e <= x < 2 ^ (e + 1)]. *)
Definition exponent (x : Q) : Z :=
  let k := Z.log2 (Qnum x) - Z.log2 (Zpos (Qden x)) in
  if Qle_bool (pow2 k) x then k else k - 1.

(** The nearest integer, a tie going to the even one. *)
Definition roundEven (x : Q) : Z :=
  let f := Qfloor x in
  match (x - inject_Z f ?= 1 # 2)%Q with
  | Lt => f
  | Gt => f + 1
  | Eq => if Z.even f then f else f + 1
  end.

(** The nearest multiple of the spacing of the doubles around a positive
    number: 53 significant bits, and [2 ^ -1074] below [2 ^ -1022]. *)
Definition nearest (x : Q) : Q :=
  let q := pow2 (Z.max (exponent x) (-1022) - 52) in
  (inject_Z (roundEven (x / q)) * q)%Q.

Definition roundFinite (x : Q) : Q :=
  match Qnum x with
  | Z0 => 0%Q
  | Zpos _ => nearest x
  | Zneg _ => (- nearest (- x))%Q
  end.

Definition round (x : Q) : Q :=
  let y := roundFinite x in
  if Qle_bool (pow2 1024) y then pow2 1024
  else if Qle_bool y (- pow2 1024) then (- pow2 1024)%Q
  else y.

(** The double nearest to an integer, which is an integer. *)
Definition integer (z : Z) : Z := Qfloor (round (inject_Z z)).

End Double.

(** The preview size is an integer shape, so [Math.round] leaves its
    fields as they are. *)
Definition pickBoardSize (play : option PlayOutcome) (mode : option GameMode)
    (previewSize : option GridSize) : GridSize :=
  let fromMode :=
    match mode with
    | Some nivel1 => LEVEL_ONE_PREVIEW_SIZE
    | _ => LEVEL_TWO_PREVIEW_SIZE
    end in
  let fromPreview :=
    match previewSize with
    | Some p =>
        if (negb (rows p =? 0) && negb (cols p =? 0))%bool
        then {| rows := Z.max 1 (rows p); cols := Z.max 1 (cols p) |}
        else fromMode
    | None => fromMode
    end in
  match play with
  | Some pl =>
      match grid0 pl with
      | r0 :: _ =>
          if negb (length r0 =? 0)%nat
          then {| rows := Z.of_nat (length (grid0 pl));
                  cols := Z.of_nat (length r0) |}
          else fromPreview
      | [] => fromPreview
      end
  | None => fromPreview
  end.

(** [safeGrid[r]?.[c] ?? ""]. *)
Definition cellAt (grid : Grid) (r c : nat) : string :=
  default ""%string (grid !! r ≫= fun line => line !! c).

Definition normalizeGrid (grid : Grid) (rows cols : nat) : Grid :=
  (fun r => (fun c => cellAt grid r c) <$> seq 0 cols) <$> seq 0 rows.

(** [this.grid?.[row]?.[col]] for numbers [row] and [col]. *)
Definition gridCell (g : Grid) (r c : Z) : option string :=
  if ((r <? 0) || (c <? 0))%bool then None
  else g !! Z.to_nat r ≫= fun line => line !! Z.to_nat c.

Definition Qmax (a b : Q) : Q := if Qlt_le_dec a b then b else a.
Definition Qmin (a b : Q) : Q := if Qlt_le_dec b a then b else a.

Definition computeMetrics (play : option PlayOutcome) (containerWidth : Q)
    (containerHeight : option Q) (mode : option GameMode)
    (previewSize : option GridSize) : BoardMetrics :=
  let size := pickBoardSize play mode previewSize in
  let rows := Z.max 1 (rows size) in
  let cols := Z.max 1 (cols size) in
  let safeWidth :=
    if Qlt_le_dec 0 containerWidth then containerWidth else width DEFAULT_METRICS in
  let safeHeight :=
    match containerHeight with
    | Some h => if Qlt_le_dec 0 h then h else height DEFAULT_METRICS
    | None => height DEFAULT_METRICS
    end in
  let padding : Q := if Qlt_le_dec safeWidth 640 then 8%Q else 12%Q in
  let gap : Q := 2%Q in
  let offsetY : Q := 32%Q in
  let usableByWidth :=
    Qmax 120 (safeWidth - padding * 2 - gap * (inject_Z cols - 1))%Q in
  let usableByHeight :=
    Qmax 120 (safeHeight - offsetY - padding * 2 - gap * (inject_Z rows - 1))%Q in
  let rawCellByWidth :=
    if 0 <? cols then (usableByWidth / inject_Z cols)%Q
    else cellSize DEFAULT_METRICS in
  let rawCellByHeight :=
    if 0 <? rows then (usableByHeight / inject_Z rows)%Q
    else cellSize DEFAULT_METRICS in
  let rawCell := Qmin rawCellByWidth rawCellByHeight in
  let cellSize := Qmin 72 (Qmax 20 rawCell) in
  let width :=
    (padding * 2 + inject_Z cols * cellSize + gap * (inject_Z cols - 1))%Q in
  let height :=
    (offsetY + inject_Z rows * cellSize + gap * (inject_Z rows - 1) + padding)%Q in
  {| cellSize := cellSize; gap := gap; offsetY := offsetY; padding := padding;
     width := width; height := height; mrows := rows; mcols := cols |}.

(** [getBoardOffsets] and [getCellPosition], for a canvas of the given
    size and a board of [rows] by [cols] cells. *)
Record Offsets : Type := mkOffsets { offsetX : Q; offsetTop : Q }.

Definition getBoardOffsets (m : BoardMetrics) (rows cols : Z)
    (canvasWidth canvasHeight : Q) : Offsets :=
  let totalGridWidth :=
    (inject_Z cols * cellSize m + (inject_Z cols - 1) * gap m)%Q in
  let totalGridHeight :=
    (inject_Z rows * cellSize m + (inject_Z rows - 1) * gap m)%Q in
  let offsetX := Math_round ((canvasWidth - totalGridWidth) / 2)%Q in
  let centeredY := Math_round ((canvasHeight - totalGridHeight) / 2)%Q in
  {| offsetX := inject_Z offsetX;
     offsetTop := Qmax (inject_Z centeredY) (offsetY m) |}.

Definition getCellPosition (m : BoardMetrics) (offsets : Offsets) (row col : Z)
  : Q * Q :=
  ((offsetX offsets + inject_Z col * (cellSize m + gap m))%Q,
   (offsetTop offsets + inject_Z row * (cellSize m + gap m))%Q).

(** ** The scene clock ([this.time])

    A scheduled event is a due time and a callback.  The clock fires the
    event that is due first; events due at the same time fire in the order
    they were added. *)

Fixpoint minDue {A : Type} (evs : list (Z * A)) : option Z :=
  match evs with
  | [] => None
  | (t, _) :: rest =>
      match minDue rest with
      | None => Some t
      | Some m => Some (Z.min t m)
      end
  end.

Fixpoint takeDue {A : Type} (t : Z) (evs : list (Z * A))
  : option (A * list (Z * A)) :=
  match evs with
  | [] => None
  | (t', a) :: rest =>
      if t' =? t then Some (a, rest)
      else match takeDue t rest with
           | Some (x, rest') => Some (x, (t', a) :: rest')
           | None => None
           end
  end.

Definition popEarliest {A : Type} (evs : list (Z * A))
  : option (Z * A * list (Z * A)) :=
  match minDue evs with
  | None => None
  | Some t =>
      match takeDue t evs with
      | Some (a, rest) => Some (t, a, rest)
      | None => None
      end
  end.

(** [Math.random()]: the i-th call of a session returns [random i], a
    rational in [0, 1). *)
Definition RandomSource : Type := nat -> Q.

(** [Math.floor(Math.random() * n)] used as an array index. *)
Definition randomIndex (r : Q) (n : nat) : nat :=
  Z.to_nat (Qfloor (r * inject_Z (Z.of_nat n))%Q).

(** The distinct elements of a list in order of first occurrence, as
    [Array.from(new Set(xs))]. *)
Fixpoint distinctFrom (seen xs : list string) : list string :=
  match xs with
  | [] => []
  | x :: rest =>
      if bool_decide (x ∈ seen) then distinctFrom seen rest
      else x :: distinctFrom (x :: seen) rest
  end.

Definition distinct (xs : list string) : list string := distinctFrom [] xs.

(** [trim] and [toUpperCase] on a string of code units below 256.  The
    white space among them is TAB, LF, VT, FF, CR, SP and NBSP.  The upper
    case of [ß] is [SS]; the upper case of [µ] and of [ÿ] is a code unit
    of 256 or more, so a string with one of them is not among the strings
    of the model, and they are left as they are. *)
Definition isSpace (c : ascii) : bool :=
  let n := nat_of_ascii c in
  ((n =? 9) || (n =? 10) || (n =? 11) || (n =? 12) || (n =? 13)
   || (n =? 32) || (n =? 160))%nat.

Fixpoint dropSpaces (s : list ascii) : list ascii :=
  match s with
  | [] => []
  | c :: rest => if isSpace c then dropSpaces rest else s
  end.

Definition trim (s : string) : string :=
  string_of_list_ascii
    (rev (dropSpaces (rev (dropSpaces (list_ascii_of_string s))))).

Definition upperCase (c : ascii) : list ascii :=
  let n := nat_of_ascii c in
  if ((97 <=? n) && (n <=? 122))%nat then [ascii_of_nat (n - 32)]
  else if (n =? 223)%nat then ["S"%char; "S"%char]
  else if ((224 <=? n) && (n <=? 254) && negb (n =? 247))%nat
  then [ascii_of_nat (n - 32)]
  else [c].

Definition toUpperCase (s : string) : string :=
  string_of_list_ascii (c ← list_ascii_of_string s; upperCase c).

(** ** The reel intro ([playBoardIntro], fill mode [rodillo])

    The closure state of the reel intro: one [ColumnState] per column, the
    counter [lastColumnSpinSteps], the flag [stopSequenceScheduled], and
    the events the intro puts on the clock: the looping spin timer, one
    [dropColumn] call per column and, once scheduled, one stop call per
    column.  The completion of a drop tween is an event too, due
    [dropDuration] after the tween was added.  [stopLog] is a ghost record
    of the stop commands delivered; [startIndex] keeps the random start
    of a column so that the ticks it has spun can be read off its cursor.

    A cell of a column is its row and the symbol it shows; position,
    alpha and scale are left out.  Symbols are taken as they are: the
    code trims and upper-cases them on the way to the label. *)

Module Reel.

Definition colStartDelay : Z := 320.
Definition dropDuration : Z := 280.
Definition stopDelay : Z := 220.
Definition settleDuration : Z := 260.
Definition spinTickMs : Z := 90.
Definition minTurnsLastColumn : nat := 2.

Record ReelCell : Type := mkReelCell { cellRow : Z; shown : string }.

Record ColumnState : Type := mkColumn {
  ccol : nat;
  cells : list ReelCell;
  strip : list string;
  startIndex : nat;
  stripCursor : nat;
  spinning : bool;
  completed : nat
}.

Inductive Callback : Type :=
| DropColumn (col : nat)
| DropTweenComplete (col : nat)
| SpinTick
| StopColumn (col : nat)
| RemoveSpinTimer.

(** A delivered stop command: when, to which column, and how many ticks
    the rightmost column had spun by then. *)
Record StopRecord : Type := mkStop {
  stopTime : Z;
  stopCol : nat;
  lastColumnTicks : nat
}.

Record State : Type := mkState {
  columnStates : list ColumnState;
  lastColumnSpinSteps : nat;
  stopSequenceScheduled : bool;
  events : list (Z * Callback);
  now : Z;
  stopLog : list StopRecord
}.

Definition setColumns (cs : list ColumnState) (s : State) : State :=
  mkState cs (lastColumnSpinSteps s) (stopSequenceScheduled s)
          (events s) (now s) (stopLog s).

Definition setEvents (evs : list (Z * Callback)) (s : State) : State :=
  mkState (columnStates s) (lastColumnSpinSteps s) (stopSequenceScheduled s)
          evs (now s) (stopLog s).

Definition delayedCall (delay : Z) (cb : Callback) (s : State) : State :=
  setEvents (events s ++ [(now s + delay, cb)]) s.

Definition stripAt (strip : list string) (i : nat) : string :=
  default "A"%string (strip !! (i mod length strip)%nat).

(** The symbols a column shows for a given cursor. *)
Definition showStrip (strip : list string) (cursor : nat)
    (cells : list ReelCell) : list ReelCell :=
  imap (fun rowIdx cell => mkReelCell (cellRow cell) (stripAt strip (cursor + rowIdx)))
       cells.

(** The symbol pool of the reels: the symbols of the grid, trimmed and
    in upper case, without the empty ones, each once; the fallback
    symbols when there is none. *)
Definition reelSymbols (grid : Grid) : list string :=
  let symbolPool :=
    distinct (filter (fun symbol => symbol ≠ ""%string)
                     ((fun symbol => toUpperCase (trim symbol)) <$> concat grid)) in
  match symbolPool with
  | [] => FALLBACK_STRIP_SYMBOLS
  | _ => symbolPool
  end.

Definition stripSize (grid : Grid) : nat :=
  Nat.max 28 (length (reelSymbols grid) * 4).

(** [buildStrip], drawing from the random source from call [from] on. *)
Definition buildStrip (random : RandomSource) (from : nat) (grid : Grid)
  : list string :=
  let pool := reelSymbols grid in
  map (fun i => default "A"%string (pool !! randomIndex (random (from + i)%nat) (length pool)))
      (seq 0 (stripSize grid)).

Fixpoint insertRow (r : Z) (sorted : list Z) : list Z :=
  match sorted with
  | [] => [r]
  | x :: rest => if r <? x then r :: sorted else x :: insertRow r rest
  end.

Definition sortRows (rs : list Z) : list Z := foldr insertRow [] rs.

(** The cells of column [col] among the keys of the cell map, by row. *)
Definition columnCells (entries : list (Z * Z)) (col : nat) : list ReelCell :=
  map (fun r => mkReelCell r ""%string)
      (sortRows (map fst (filter (fun e => e.2 = Z.of_nat col) entries))).

Definition initColumn (random : RandomSource) (from : nat) (grid : Grid)
    (entries : list (Z * Z)) (rows col : nat) : ColumnState :=
  let base := (from + col * S (stripSize grid))%nat in
  let strip := buildStrip random base grid in
  let startIndex := randomIndex (random (base + stripSize grid)%nat) (length strip) in
  let cursor := (startIndex + rows)%nat in
  {| ccol := col;
     cells := showStrip strip cursor (columnCells entries col);
     strip := strip;
     startIndex := startIndex;
     stripCursor := cursor;
     spinning := false;
     completed := 0 |}.

(** The state the intro leaves when [playBoardIntro] returns: the columns
    set up, the looping spin timer and one drop call per column on the
    clock. *)
Definition init (random : RandomSource) (from : nat) (grid : Grid)
    (entries : list (Z * Z)) (rows cols : nat) (t0 : Z) : State :=
  {| columnStates :=
       map (initColumn random from grid entries rows) (seq 0 cols);
     lastColumnSpinSteps := 0;
     stopSequenceScheduled := false;
     events :=
       (t0 + spinTickMs, SpinTick)
       :: map (fun col => (t0 + Z.of_nat col * colStartDelay, DropColumn col))
              (seq 0 cols);
     now := t0;
     stopLog := [] |}.

(** Ticks the rightmost column has spun: how far its cursor has moved. *)
Definition ticksOfColumn (rows : nat) (st : ColumnState) : nat :=
  (stripCursor st - (startIndex st + rows))%nat.

Definition ticksOfLast (rows cols : nat) (s : State) : nat :=
  match columnStates s !! (cols - 1)%nat with
  | Some st => ticksOfColumn rows st
  | None => 0
  end.

Definition scheduleStopSequence (cols : nat) (s : State) : State :=
  if stopSequenceScheduled s then s
  else
    foldl (fun acc col => delayedCall (Z.of_nat col * stopDelay) (StopColumn col) acc)
          (mkState (columnStates s) (lastColumnSpinSteps s) true
                   (events s) (now s) (stopLog s))
          (seq 0 cols).

(** The body of the spin timer's [columnStates.forEach], for the column
    state at position [i]. *)
Definition spinColumn (rows cols : nat) (s : State) (i : nat) : State :=
  match columnStates s !! i with
  | None => s
  | Some st =>
      if spinning st then
        let cursor := S (stripCursor st) in
        let st' :=
          mkColumn (ccol st) (showStrip (strip st) cursor (cells st)) (strip st)
                   (startIndex st) cursor (spinning st) (completed st) in
        let s1 := setColumns (<[i := st']> (columnStates s)) s in
        if ((ccol st =? cols - 1)%nat && negb (stopSequenceScheduled s1))%bool then
          let s2 :=
            mkState (columnStates s1) (S (lastColumnSpinSteps s1))
                    (stopSequenceScheduled s1) (events s1) (now s1) (stopLog s1) in
          if (rows * minTurnsLastColumn <=? lastColumnSpinSteps s2)%nat
          then scheduleStopSequence cols s2
          else s2
        else s1
      else s
  end.

Definition spinTick (rows cols : nat) (s : State) : State :=
  foldl (spinColumn rows cols) s (seq 0 (length (columnStates s))).

Definition dropColumn (col : nat) (s : State) : State :=
  match columnStates s !! col with
  | None => s
  | Some st =>
      match cells st with
      | [] => s
      | _ =>
          let st' :=
            mkColumn (ccol st) (cells st) (strip st) (startIndex st)
                     (stripCursor st) (spinning st) 0 in
          foldl (fun acc _ => delayedCall dropDuration (DropTweenComplete col) acc)
                (setColumns (<[col := st']> (columnStates s)) s)
                (cells st)
      end
  end.

Definition dropTweenComplete (col : nat) (s : State) : State :=
  match columnStates s !! col with
  | None => s
  | Some st =>
      let done := S (completed st) in
      let st' :=
        mkColumn (ccol st) (cells st) (strip st) (startIndex st) (stripCursor st)
                 (if (done =? length (cells st))%nat then true else spinning st)
                 done in
      setColumns (<[col := st']> (columnStates s)) s
  end.

Definition stopColumn (grid : Grid) (rows cols col : nat) (s : State) : State :=
  match columnStates s !! col with
  | None => s
  | Some st =>
      let finalCells :=
        map (fun cell =>
               mkReelCell (cellRow cell)
                 (default (shown cell)
                    (gridCell grid (cellRow cell) (Z.of_nat col))))
            (cells st) in
      let st' :=
        mkColumn (ccol st) finalCells (strip st) (startIndex st) (stripCursor st)
                 false (completed st) in
      let s1 :=
        mkState (<[col := st']> (columnStates s)) (lastColumnSpinSteps s)
                (stopSequenceScheduled s) (events s) (now s)
                (stopLog s ++ [mkStop (now s) col (ticksOfLast rows cols s)]) in
      if (col =? cols - 1)%nat
      then delayedCall (settleDuration + 40) RemoveSpinTimer s1
      else s1
  end.

Definition isSpinTick (ev : Z * Callback) : bool :=
  match ev.2 with SpinTick => true | _ => false end.

(** Running one callback.  The spin timer loops: it stays the first event
    of the clock and is due again one tick later. *)
Definition fire (grid : Grid) (rows cols : nat) (cb : Callback) (s : State)
  : State :=
  match cb with
  | DropColumn col => dropColumn col s
  | DropTweenComplete col => dropTweenComplete col s
  | SpinTick =>
      let s1 := spinTick rows cols s in
      setEvents ((now s1 + spinTickMs, SpinTick) :: events s1) s1
  | StopColumn col => stopColumn grid rows cols col s
  | RemoveSpinTimer =>
      setEvents (List.filter (fun ev => negb (isSpinTick ev)) (events s)) s
  end.

Definition step (grid : Grid) (rows cols : nat) (s : State) : option State :=
  match popEarliest (events s) with
  | None => None
  | Some (t, cb, rest) =>
      Some (fire grid rows cols cb
              (mkState (columnStates s) (lastColumnSpinSteps s)
                       (stopSequenceScheduled s) rest t (stopLog s)))
  end.

Fixpoint run (grid : Grid) (rows cols : nat) (fuel : nat) (s : State) : State :=
  match fuel with
  | O => s
  | S fuel' =>
      match step grid rows cols s with
      | None => s
      | Some s' => run grid rows cols fuel' s'
      end
  end.

(** The stop events on the clock, as due time and column. *)
Definition stopEventsOf (evs : list (Z * Callback)) : list (Z * nat) :=
  omap (fun ev : Z * Callback =>
          match ev.2 with
          | StopColumn col => Some (ev.1, col)
          | _ => None
          end) evs.

(** The stop commands of a stop sequence begun at time [T], for the
    columns from [from] on: left to right, [stopDelay] apart. *)
Definition stopPlan (T : Z) (from count : nat) : list (Z * nat) :=
  (fun col => (T + Z.of_nat col * stopDelay, col)) <$> seq from count.

(** The duration [playBoardIntro] returns. *)
Definition introDuration (rows cols : nat) : Z :=
  let dropPhase := (Z.of_nat cols - 1) * colStartDelay + dropDuration in
  let stopPhase :=
    Z.of_nat (rows * minTurnsLastColumn) * spinTickMs
    + Z.max 0 (Z.of_nat cols - 1) * stopDelay + settleDuration in
  dropPhase + stopPhase.

End Reel.

(** ** The board scene ([BoardScene])

    The scene keeps the grid, the board shape, the play, the accumulated
    win and the map of cell containers.  Of the rendering collaborator the
    model keeps what the sequencer decides: which container sits on which
    key, the sparks an explosion draws at random, and the reels an intro
    sets up.  Colours, positions, tweens without a completion callback and
    the header text are left out.

    The scene clock holds the callbacks of the sequencer: [runStep],
    [startRemoval], the callback that applies a step, and [onComplete].
    The timers that only tidy up drawings (the contour, the sparks, the
    highlight of a bonus cell) touch nothing the model keeps and are not
    on it; the timers and tweens of a reel intro are run by [Reel.run] on
    the reel's own clock. *)

(** A cell container: its identity and the symbol it was created with. *)
Record Handle : Type := mkHandle { hid : nat; hsymbol : string }.

(** What the scene emits on [gameBus]. *)
Inductive Notification : Type :=
| CascadeStepEvent (playId : string) (stepIndex totalSteps : nat)
| WinIncrement (playId : string) (amount : Z)
| BonusTriggered (playId : string) (bonusData : option BonusData)
| CascadeCompleted (playId : string) (totalSteps : nat).

(** The [onComplete] closures: the one [runStep] passes to [animateStep]
    ([() => this.time.delayedCall(250, () => runStep(idx + 1))]) and the
    one [animateStep] wraps around it for a bonus step. *)
Inductive Continuation : Type :=
| AfterStep (play : PlayOutcome) (idx : nat)
| BonusThen (step : CascadeStep) (onComplete : Continuation).

(** The closures put on the scene clock. *)
Inductive Callback : Type :=
| RunStep (play : PlayOutcome) (idx : nat)
| StartRemoval (step : CascadeStep) (stepIndex totalSteps : nat)
    (onComplete : Continuation)
| ApplyStep (step : CascadeStep) (stepIndex totalSteps : nat)
    (onComplete : Continuation)
| Invoke (onComplete : Continuation).

(** One spark of [playExplosion]: both values are drawn at random. *)
Record Spark : Type := mkSpark { sparkDistance : Q; sparkDuration : Z }.

(** The getters [createBoardScene] receives, and the random source. *)
Record Env : Type := mkEnv {
  getPreviewMode : option GameMode;
  getPreviewSize : option GridSize;
  getFillMode : option FillMode;
  random : RandomSource
}.

Record Scene : Type := mkScene {
  cellMap : gmap (Z * Z) Handle;
  grid : option Grid;
  boardSize : GridSize;
  metrics : BoardMetrics;
  currentPlay : option PlayOutcome;
  accumulatedWin : Z;
  clock : list (Z * Callback);
  time : Z;
  emitted : list Notification;
  nextHandle : nat;
  randomCalls : nat;
  sparks : list Spark;
  reel : option Reel.State
}.

Definition setCellMap (cm : gmap (Z * Z) Handle) (n : nat) (s : Scene) : Scene :=
  mkScene cm (grid s) (boardSize s) (metrics s) (currentPlay s)
          (accumulatedWin s) (clock s) (time s) (emitted s) n
          (randomCalls s) (sparks s) (reel s).

Definition setGrid (g : option Grid) (s : Scene) : Scene :=
  mkScene (cellMap s) g (boardSize s) (metrics s) (currentPlay s)
          (accumulatedWin s) (clock s) (time s) (emitted s) (nextHandle s)
          (randomCalls s) (sparks s) (reel s).

Definition setBoardSize (size : GridSize) (s : Scene) : Scene :=
  mkScene (cellMap s) (grid s) size (metrics s) (currentPlay s)
          (accumulatedWin s) (clock s) (time s) (emitted s) (nextHandle s)
          (randomCalls s) (sparks s) (reel s).

Definition setClock (evs : list (Z * Callback)) (s : Scene) : Scene :=
  mkScene (cellMap s) (grid s) (boardSize s) (metrics s) (currentPlay s)
          (accumulatedWin s) evs (time s) (emitted s) (nextHandle s)
          (randomCalls s) (sparks s) (reel s).

Definition setTime (t : Z) (s : Scene) : Scene :=
  mkScene (cellMap s) (grid s) (boardSize s) (metrics s) (currentPlay s)
          (accumulatedWin s) (clock s) t (emitted s) (nextHandle s)
          (randomCalls s) (sparks s) (reel s).

Definition setPlay (p : option PlayOutcome) (win : Z) (s : Scene) : Scene :=
  mkScene (cellMap s) (grid s) (boardSize s) (metrics s) p
          win (clock s) (time s) (emitted s) (nextHandle s)
          (randomCalls s) (sparks s) (reel s).

Definition setEffects (calls : nat) (sp : list Spark) (r : option Reel.State)
    (s : Scene) : Scene :=
  mkScene (cellMap s) (grid s) (boardSize s) (metrics s) (currentPlay s)
          (accumulatedWin s) (clock s) (time s) (emitted s) (nextHandle s)
          calls sp r.

(** [gameBus.emit]. *)
Definition emit (n : Notification) (s : Scene) : Scene :=
  mkScene (cellMap s) (grid s) (boardSize s) (metrics s) (currentPlay s)
          (accumulatedWin s) (clock s) (time s) (emitted s ++ [n]) (nextHandle s)
          (randomCalls s) (sparks s) (reel s).

(** [this.time.delayedCall]. *)
Definition delayedCall (delay : Z) (cb : Callback) (s : Scene) : Scene :=
  setClock (clock s ++ [(time s + delay, cb)]) s.

(** [this.time.removeAllEvents()] and [this.tweens.killAll()] on the
    scene clock, which holds its events by due time: no event is left, and
    the reel intro, which lives on timers and tweens, is gone with them.
    This is the clock once the library has taken every event in.  The
    library removes only the events it has taken in; one added since the
    last frame is not removed.  [Live], below, has the clock of the
    library frame by frame. *)
Definition removeAllEvents (s : Scene) : Scene :=
  setEffects (randomCalls s) (sparks s) None (setClock [] s).

(** The key [`${row}-${col}`]. *)
Definition cellKey (cell : CellRef) : Z * Z := (row cell, col cell).

(** The coordinates of a [rows] by [cols] board in row-major order. *)
Definition boardCells (rows cols : nat) : list (nat * nat) :=
  r ← seq 0 rows; (fun c => (r, c)) <$> seq 0 cols.

(** [this.currentPlay?.playId] when it is truthy. *)
Definition activePlayId (s : Scene) : option string :=
  match currentPlay s with
  | Some play => if bool_decide (playId play = ""%string) then None else Some (playId play)
  | None => None
  end.

(** [createCellContainer] followed by [map.set(key, container)]. *)
Definition createCell (key : Z * Z) (symbol : string)
    (acc : gmap (Z * Z) Handle * nat) : gmap (Z * Z) Handle * nat :=
  (<[key := mkHandle acc.2 symbol]> acc.1, S acc.2).

(** [grid[row][col]] where [grid[row]] must exist: [None] is the
    [TypeError] of reading a property of [undefined]. *)
Definition strictCell (g : Grid) (r c : nat) : option string :=
  line ← g !! r; Some (default ""%string (line !! c)).

Definition drawGrid (g : Grid) (s : Scene) : option Scene :=
  let rows := Z.max 1 (rows (boardSize s)) in
  let cols := Z.max 1 (cols (boardSize s)) in
  let s1 :=
    setBoardSize {| rows := rows; cols := cols |}
      (setGrid (Some (normalizeGrid g (Z.to_nat rows) (Z.to_nat cols))) s) in
  drawn ← mapM (fun rc : nat * nat =>
                  symbol ← strictCell g rc.1 rc.2;
                  Some ((Z.of_nat rc.1, Z.of_nat rc.2), symbol))
               (boardCells (Z.to_nat rows) (Z.to_nat cols));
  let cells :=
    foldl (fun acc ks => createCell ks.1 ks.2 acc) (∅, nextHandle s1) drawn in
  Some (setCellMap cells.1 cells.2 s1).

(** [playExplosion]: sixteen sparks, each drawing a distance and then a
    duration from [Math.random]. *)
Definition explosionSparks (random : RandomSource) (from : nat) (cell : Q)
  : list Spark :=
  map (fun idx =>
         mkSpark (cell * ((3 # 10) + random (from + 2 * idx)%nat * (35 # 100)))%Q
                 (320 + Qfloor (random (from + 2 * idx + 1)%nat * 120)%Q))
      (seq 0 16).

Definition playExplosion (env : Env) (s : Scene) : Scene :=
  setEffects (randomCalls s + 32)%nat
    (sparks s ++ explosionSparks (random env) (randomCalls s) (cellSize (metrics s)))
    (reel s) s.

(** [playBoardIntro]: the duration of the entrance animation.  In the
    fill mode [rodillo] it also sets the reels up, one random strip and
    one random start index per column. *)
Definition playBoardIntro (env : Env) (s : Scene) : Z * Scene :=
  let entries := fst <$> map_to_list (cellMap s) in
  match entries with
  | [] => (0, s)
  | _ =>
      let rows := Z.to_nat (Z.max 1 (rows (boardSize s))) in
      let cols := Z.to_nat (Z.max 1 (cols (boardSize s))) in
      match getFillMode env with
      | Some rodillo =>
          let g := default [] (grid s) in
          (Reel.introDuration rows cols,
           setEffects (randomCalls s + cols * S (Reel.stripSize g))%nat (sparks s)
             (Some (Reel.init (random env) (randomCalls s) g entries rows cols (time s)))
             s)
      | Some cascade => ((Z.of_nat cols - 1) * 120 + 380, s)
      | _ => (260 + (Z.of_nat (length entries) - 1) * 40, s)
      end
  end.

Definition renderPlay (env : Env) (play : PlayOutcome) (s : Scene)
  : option Scene :=
  let s1 := setPlay (Some play) 0 (removeAllEvents s) in
  let size := pickBoardSize (Some play) (getPreviewMode env) (getPreviewSize env) in
  let s2 :=
    setBoardSize {| rows := Z.max 1 (rows size); cols := Z.max 1 (cols size) |} s1 in
  let g :=
    normalizeGrid (grid0 play) (Z.to_nat (rows (boardSize s2)))
                  (Z.to_nat (cols (boardSize s2))) in
  s3 ← drawGrid g (setGrid (Some g) s2);
  let (introDuration, s4) := playBoardIntro env s3 in
  let initialDelay := Z.max 320 (introDuration + 120) in
  Some (delayedCall initialDelay (RunStep play 0) s4).

Definition clearBoard (env : Env) (s : Scene) : option Scene :=
  let s1 := setPlay None 0 (removeAllEvents s) in
  let size := pickBoardSize None (getPreviewMode env) (getPreviewSize env) in
  let s2 :=
    setBoardSize {| rows := Z.max 1 (rows size); cols := Z.max 1 (cols size) |} s1 in
  let emptyGrid :=
    normalizeGrid [] (Z.to_nat (rows (boardSize s2)))
                  (Z.to_nat (cols (boardSize s2))) in
  drawGrid emptyGrid (setGrid (Some emptyGrid) s2).

(** *** The bonus highlight *)

(** The [forEach] over [triggerCells] that fills [explicitTargets]: cells
    out of bounds, cells that do not show the trigger symbol and cells
    seen before are skipped. *)
Fixpoint explicitTargets (g : Grid) (size : GridSize) (seen : list (Z * Z))
    (cells : list CellRef) : list CellRef :=
  match cells with
  | [] => []
  | cell :: rest =>
      if ((row cell <? 0) || (col cell <? 0))%bool
      then explicitTargets g size seen rest
      else if ((rows size <=? row cell) || (cols size <=? col cell))%bool
      then explicitTargets g size seen rest
      else if negb (bool_decide (gridCell g (row cell) (col cell)
                                 = Some BONUS_TRIGGER_SYMBOL))
      then explicitTargets g size seen rest
      else if bool_decide (cellKey cell ∈ seen)
      then explicitTargets g size seen rest
      else mkCell (row cell) (col cell)
           :: explicitTargets g size (cellKey cell :: seen) rest
  end.

(** The row-major scan for the trigger symbol. *)
Definition fallbackTargets (g : Grid) (size : GridSize) : list CellRef :=
  (fun rc : nat * nat => mkCell (Z.of_nat rc.1) (Z.of_nat rc.2))
  <$> filter (fun rc : nat * nat =>
                g !! rc.1 ≫= (fun line => line !! rc.2) = Some BONUS_TRIGGER_SYMBOL)
             (boardCells (Z.to_nat (rows size)) (Z.to_nat (cols size))).

Definition requestedCount (triggerCount : Z) : Z :=
  Z.max 1 (Z.min BONUS_HIGHLIGHT_LIMIT
             (if triggerCount =? 0 then BONUS_HIGHLIGHT_LIMIT else triggerCount)).

Definition highlightTargets (g : Grid) (size : GridSize) (triggerCount : Z)
    (triggerCells : option (list CellRef)) : list CellRef :=
  let requested := Z.to_nat (requestedCount triggerCount) in
  let explicit := explicitTargets g size [] (default [] triggerCells) in
  match take requested explicit with
  | [] =>
      let fallback := fallbackTargets g size in
      take (Nat.min requested (length fallback)) fallback
  | targets => targets
  end.

(** *** The step sequencer *)

(** Calling an [onComplete] closure. *)
Fixpoint invoke (k : Continuation) (s : Scene) : Scene :=
  match k with
  | AfterStep play idx => delayedCall 250 (RunStep play (idx + 1)) s
  | BonusThen step onComplete =>
      invoke onComplete
        (match activePlayId s with
         | Some pid => emit (BonusTriggered pid (bonusData step)) s
         | None => s
         end)
  end.

Definition playBonusTriggerHighlight (triggerCount : Z)
    (triggerCells : option (list CellRef)) (onComplete : Continuation)
    (s : Scene) : Scene :=
  match grid s with
  | None => invoke onComplete s
  | Some g =>
      match highlightTargets g (boardSize s) triggerCount triggerCells with
      | [] => invoke onComplete s
      | targets =>
          let totalDuration :=
            1280 + Z.max 0 (Z.of_nat (length targets) - 1) * 120 in
          delayedCall totalDuration (Invoke onComplete) s
      end
  end.

(** The number of contour segments [playMatchContour] draws: one for each
    side of a cell whose neighbour on that side is not in the set.  The
    row and the column of the neighbour are computed in doubles: from
    [2 ^ 53] on, [row - 1] or [row + 1] may be [row] itself.  The timer
    that destroys the drawing touches nothing the model keeps and is not
    put on the clock. *)
Definition contourSegments (cells : list CellRef) : nat :=
  let cellSet := cellKey <$> cells in
  let missing (key : Z * Z) : nat := if bool_decide (key ∈ cellSet) then 0%nat else 1%nat in
  sum_list
    ((fun cell =>
        let top := missing (Double.integer (row cell - 1), col cell) in
        let bottom := missing (Double.integer (row cell + 1), col cell) in
        let left := missing (row cell, Double.integer (col cell - 1)) in
        let right := missing (row cell, Double.integer (col cell + 1)) in
        (top + bottom + left + right)%nat)
     <$> cells).

Definition playMatchContour (cells : list CellRef) : Z :=
  match cells with
  | [] => 0
  | _ => if (contourSegments cells =? 0)%nat then 0 else MATCH_CONTOUR_DURATION
  end.

(** [new Set(step.removeCells.map(cell => `${cell.row}-${cell.col}`))]. *)
Definition removeSetOf (step : CascadeStep) : gset (Z * Z) :=
  list_to_set (cellKey <$> removeCells step).

(** The fill mode [replace]: a cell keeps its container unless it was
    removed or has none; otherwise a new container shows the new symbol. *)
Definition replaceCell (removeSet : gset (Z * Z)) (old : gmap (Z * Z) Handle)
    (g : Grid) (acc : gmap (Z * Z) Handle * nat) (rc : nat * nat)
  : gmap (Z * Z) Handle * nat :=
  let key := (Z.of_nat rc.1, Z.of_nat rc.2) in
  match old !! key with
  | Some existing =>
      if bool_decide (key ∈ removeSet) then createCell key (cellAt g rc.1 rc.2) acc
      else (<[key := existing]> acc.1, acc.2)
  | None => createCell key (cellAt g rc.1 rc.2) acc
  end.

Definition replaceCells (removeSet : gset (Z * Z)) (old : gmap (Z * Z) Handle)
    (next : nat) (g : Grid) (rows cols : nat) : gmap (Z * Z) Handle * nat :=
  foldl (replaceCell removeSet old g) (∅, next) (boardCells rows cols).

Definition applyReplace (removeSet : gset (Z * Z)) (g : Grid) (rows cols : nat)
    (s : Scene) : Scene :=
  let cells := replaceCells removeSet (cellMap s) (nextHandle s) g rows cols in
  setCellMap cells.1 cells.2 s.

(** The gravity drop, column by column.  [survivors] lists the containers
    of a column that stay, from the bottom row up. *)
Definition survivors (removeSet : gset (Z * Z)) (old : gmap (Z * Z) Handle)
    (rows : nat) (col : Z) : list Handle :=
  omap (fun r : nat =>
          let key := (Z.of_nat r, col) in
          if bool_decide (key ∈ removeSet) then None else old !! key)
       (rev (seq 0 rows)).

(** The state of the loop over one column: the new map, the next fresh
    container and [writeRow]. *)
Record ColumnFill : Type := mkFill {
  newMap : gmap (Z * Z) Handle;
  fresh : nat;
  writeRow : Z
}.

Definition placeSurvivor (col : Z) (acc : ColumnFill) (container : Handle)
  : ColumnFill :=
  mkFill (<[(writeRow acc, col) := container]> (newMap acc)) (fresh acc)
         (writeRow acc - 1).

Definition placeDrop (col : Z) (acc : ColumnFill) (symbol : string)
  : ColumnFill :=
  mkFill (<[(writeRow acc, col) := mkHandle (fresh acc) symbol]> (newMap acc))
         (S (fresh acc)) (writeRow acc - 1).

(** [step.dropIn.find((d) => d.col === col)?.symbols ?? []]. *)
Definition dropSymbolsFor (step : CascadeStep) (col : Z) : list string :=
  match find (fun d => dropCol d =? col) (dropIn step) with
  | Some d => symbols d
  | None => []
  end.

Definition fillColumn (step : CascadeStep) (removeSet : gset (Z * Z))
    (old : gmap (Z * Z) Handle) (rows : nat) (acc : gmap (Z * Z) Handle * nat)
    (c : nat) : gmap (Z * Z) Handle * nat :=
  let col := Z.of_nat c in
  let start := mkFill acc.1 acc.2 (Z.of_nat rows - 1) in
  let kept := foldl (placeSurvivor col) start (survivors removeSet old rows col) in
  let filled := foldl (placeDrop col) kept (rev (dropSymbolsFor step col)) in
  (newMap filled, fresh filled).

Definition dropCells (step : CascadeStep) (removeSet : gset (Z * Z))
    (old : gmap (Z * Z) Handle) (next : nat) (rows cols : nat)
  : gmap (Z * Z) Handle * nat :=
  foldl (fillColumn step removeSet old rows) (∅, next) (seq 0 cols).

Definition applyDrop (step : CascadeStep) (removeSet : gset (Z * Z))
    (rows cols : nat) (s : Scene) : Scene :=
  let cells := dropCells step removeSet (cellMap s) (nextHandle s) rows cols in
  setCellMap cells.1 cells.2 s.

(** The callback [startRemoval] schedules after the removal: the grid
    becomes [gridAfter], normalised, and the containers follow the fill
    mode. *)
Definition applyStep (env : Env) (step : CascadeStep)
    (stepIndex totalSteps : nat) (onComplete : Continuation) (s : Scene)
  : Scene :=
  match grid s with
  | None => invoke onComplete s
  | Some current =>
      let rows := Z.to_nat (rows (boardSize s)) in
      let cols := Z.to_nat (cols (boardSize s)) in
      let nextGrid := default current (gridAfter step) in
      let g := normalizeGrid nextGrid rows cols in
      let s1 := setGrid (Some g) s in
      match getFillMode env with
      | Some replace =>
          delayedCall (280 + 120) (Invoke onComplete)
            (applyReplace (removeSetOf step) g rows cols s1)
      | _ =>
          delayedCall (480 + 120) (Invoke onComplete)
            (applyDrop step (removeSetOf step) rows cols s1)
      end
  end.

Definition startRemoval (env : Env) (step : CascadeStep)
    (stepIndex totalSteps : nat) (onComplete : Continuation) (s : Scene)
  : Scene :=
  let removalDuration := 520 in
  let s1 := foldl (fun acc _ => playExplosion env acc) s (removeCells step) in
  let s2 :=
    match activePlayId s1 with
    | Some pid =>
        if 0 <? winStep step
        then emit (WinIncrement pid (winStep step))
               (setPlay (currentPlay s1) (accumulatedWin s1 + winStep step) s1)
        else s1
    | None => s1
    end in
  delayedCall (removalDuration + 160)
    (ApplyStep step stepIndex totalSteps onComplete) s2.

(** The trigger count [animateStep] passes to the highlight:
    [Math.max(1, Math.min(BONUS_HIGHLIGHT_LIMIT,
    step.bonusData?.triggerCount ?? BONUS_HIGHLIGHT_LIMIT))]. *)
Definition stepTriggerCount (step : CascadeStep) : Z :=
  Z.max 1 (Z.min BONUS_HIGHLIGHT_LIMIT
             (match bonusData step with
              | Some d => triggerCount d
              | None => BONUS_HIGHLIGHT_LIMIT
              end)).

Definition animateStep (env : Env) (step : CascadeStep)
    (stepIndex totalSteps : nat) (onComplete : Continuation) (s : Scene)
  : Scene :=
  match grid s with
  | None => invoke onComplete s
  | Some _ =>
      let s1 :=
        match activePlayId s with
        | Some pid => emit (CascadeStepEvent pid (stepIndex + 1) totalSteps) s
        | None => s
        end in
      match bonus step with
      | Some true =>
          playBonusTriggerHighlight (stepTriggerCount step)
            (d ← bonusData step; triggerCells d)
            (BonusThen step onComplete) s1
      | _ =>
          let contourDelay := playMatchContour (removeCells step) in
          if 0 <? contourDelay
          then delayedCall contourDelay
                 (StartRemoval step stepIndex totalSteps onComplete) s1
          else startRemoval env step stepIndex totalSteps onComplete s1
      end
  end.

(** The closure [runStep] of [renderPlay]. *)
Definition runStep (env : Env) (play : PlayOutcome) (idx : nat) (s : Scene)
  : Scene :=
  match grid s with
  | None => s
  | Some _ =>
      match cascades play !! idx with
      | None =>
          emit (CascadeCompleted (playId play) (length (cascades play))) s
      | Some step =>
          animateStep env step idx (length (cascades play)) (AfterStep play idx) s
      end
  end.

Definition fire (env : Env) (cb : Callback) (s : Scene) : Scene :=
  match cb with
  | RunStep play idx => runStep env play idx s
  | StartRemoval step stepIndex totalSteps onComplete =>
      startRemoval env step stepIndex totalSteps onComplete s
  | ApplyStep step stepIndex totalSteps onComplete =>
      applyStep env step stepIndex totalSteps onComplete s
  | Invoke onComplete => invoke onComplete s
  end.

(** The clock fires its next event. *)
Definition step (env : Env) (s : Scene) : option Scene :=
  match popEarliest (clock s) with
  | None => None
  | Some (t, cb, rest) => Some (fire env cb (setTime t (setClock rest s)))
  end.

(** The clock runs until it has no event left, for at most [fuel] events. *)
Fixpoint run (env : Env) (fuel : nat) (s : Scene) : Scene :=
  match fuel with
  | O => s
  | S fuel' =>
      match step env s with
      | None => s
      | Some s' => run env fuel' s'
      end
  end.

(** Events enough for a whole play: the last [runStep] and at most four
    events for each step. *)
Definition fuelFor (play : PlayOutcome) : nat :=
  S (4 * length (cascades play)).

Definition emptyScene : Scene :=
  {| cellMap := ∅; grid := None;
     boardSize := LEVEL_TWO_PREVIEW_SIZE;
     metrics := DEFAULT_METRICS;
     currentPlay := None; accumulatedWin := 0;
     clock := []; time := 0; emitted := [];
     nextHandle := 0; randomCalls := 0; sparks := []; reel := None |}.

(** *** The scene on the clock of the library, frame by frame

    [this.time] is the [Clock] of the library.  It keeps three lists of
    timer events: the active ones, the ones pending insertion and the
    ones pending removal.  [delayedCall] puts a new event on the list
    pending insertion.  [removeAllEvents] puts the active events on the
    list pending removal, and leaves the list pending insertion as it
    is.  On each frame the scene first runs [preUpdate], which takes the
    events pending removal off the active list and the events pending
    insertion in, and then [update], which adds the time of the frame to
    the elapsed time of every active event, calls the callback of an
    event that has reached its delay and puts that event on the list
    pending removal.  The handlers of [render-play] and [clear-play] run
    between two frames.

    The functions of the scene run here on a scene clock that is empty
    when they start, so that it records the events they add; these are
    then put on the list pending insertion. *)
Module Live.

Record TimerEvent : Type := mkTimer {
  ident : nat;
  delay : Z;
  elapsed : Z;
  hasDispatched : bool;
  callback : Callback
}.

Record State : Type := mkLive {
  scene : Scene;
  active : list TimerEvent;
  pendingInsertion : list TimerEvent;
  pendingRemoval : list nat;
  nextIdent : nat
}.

(** A scene that has not drawn anything yet, and a clock without
    events. *)
Definition start : State := mkLive emptyScene [] [] [] 0.

(** The events a function of the scene has added, each a new event with
    its delay, are put on the list pending insertion. *)
Definition addEvents (s : Scene) (L : State) : State :=
  let added :=
    imap (fun i (ev : Z * Callback) =>
            mkTimer (nextIdent L + i) (ev.1 - time s) 0 false ev.2)
         (clock s) in
  mkLive (setClock [] s) (active L) (pendingInsertion L ++ added)
         (pendingRemoval L) (nextIdent L + length (clock s)).

(** [Clock.removeAllEvents]. *)
Definition removeAllEvents (L : State) : State :=
  mkLive (scene L) (active L) (pendingInsertion L)
         (pendingRemoval L ++ (ident <$> active L)) (nextIdent L).

(** The handlers of [render-play] and [clear-play]. *)
Definition renderPlay (env : Env) (play : PlayOutcome) (L : State)
  : option State :=
  let L1 := removeAllEvents L in
  s ← renderPlay env play (scene L1);
  Some (addEvents s L1).

Definition clearBoard (env : Env) (L : State) : option State :=
  let L1 := removeAllEvents L in
  s ← clearBoard env (scene L1);
  Some (addEvents s L1).

(** [Clock.preUpdate]. *)
Definition preUpdate (L : State) : State :=
  mkLive (scene L)
         (filter (fun ev => ident ev ∉ pendingRemoval L) (active L)
          ++ pendingInsertion L)
         [] [] (nextIdent L).

(** One turn of the loop of [Clock.update], for an event without
    repeats. *)
Definition updateEvent (env : Env) (delta : Z) (acc : State * list TimerEvent)
    (ev : TimerEvent) : State * list TimerEvent :=
  let L := acc.1 in
  let e := elapsed ev + delta in
  if delay ev <=? e
  then
    let L1 :=
      if hasDispatched ev then L
      else addEvents (fire env (callback ev) (scene L)) L in
    (mkLive (scene L1) (active L1) (pendingInsertion L1)
            (pendingRemoval L1 ++ [ident ev]) (nextIdent L1),
     acc.2 ++ [mkTimer (ident ev) (delay ev) (delay ev) true (callback ev)])
  else
    (L, acc.2 ++ [mkTimer (ident ev) (delay ev) e (hasDispatched ev) (callback ev)]).

(** [Clock.update(time, delta)]. *)
Definition update (env : Env) (delta : Z) (L : State) : State :=
  let L0 :=
    mkLive (setTime (time (scene L) + delta) (scene L)) (active L)
           (pendingInsertion L) (pendingRemoval L) (nextIdent L) in
  let done := foldl (updateEvent env delta) (L0, []) (active L0) in
  mkLive (scene done.1) done.2 (pendingInsertion done.1) (pendingRemoval done.1)
         (nextIdent done.1).

(** A frame that lasts [delta] milliseconds, and a run of frames. *)
Definition frame (env : Env) (L : State) (delta : Z) : State :=
  update env delta (preUpdate L).

Definition frames (env : Env) (deltas : list Z) (L : State) : State :=
  foldl (frame env) L deltas.

(** What the scene has emitted after the frames. *)
Definition emittedAfter (env : Env) (deltas : list Z) (L : option State)
  : option (list Notification) :=
  L1 ← L; Some (emitted (scene (frames env deltas L1))).

End Live.

(** *** The selection of the bonus highlight, in the words of the
    specification

    The listed cells that are in bounds and show the trigger symbol. *)
Definition validTrigger (g : Grid) (size : GridSize) (cell : CellRef) : bool :=
  (negb ((row cell <? 0) || (col cell <? 0))
   && negb ((rows size <=? row cell) || (cols size <=? col cell))
   && bool_decide (gridCell g (row cell) (col cell) = Some BONUS_TRIGGER_SYMBOL))%bool.

(** The selection as the specification words it: the first
    [triggerCount] listed valid cells, and the row-major scan when there
    is none. *)
Definition specHighlightTargets (g : Grid) (size : GridSize) (triggerCount : Z)
    (triggerCells : option (list CellRef)) : list CellRef :=
  let listed := List.filter (validTrigger g size) (default [] triggerCells) in
  match take (Z.to_nat triggerCount) listed with
  | [] => take (Z.to_nat triggerCount) (fallbackTargets g size)
  | targets => targets
  end.

(** The cells of a list without the second and later occurrences. *)
Fixpoint firstOccurrences (seen : list (Z * Z)) (cells : list CellRef)
  : list CellRef :=
  match cells with
  | [] => []
  | cell :: rest =>
      if bool_decide (cellKey cell ∈ seen) then firstOccurrences seen rest
      else cell :: firstOccurrences (cellKey cell :: seen) rest
  end.

(** The selection as the code makes it: distinct cells, and a count
    between one and [BONUS_HIGHLIGHT_LIMIT]. *)
Definition distinctHighlightTargets (g : Grid) (size : GridSize)
    (triggerCount : Z) (triggerCells : option (list CellRef)) : list CellRef :=
  let count := Z.to_nat (requestedCount triggerCount) in
  let listed :=
    firstOccurrences [] (List.filter (validTrigger g size) (default [] triggerCells)) in
  match take count listed with
  | [] => take count (fallbackTargets g size)
  | targets => targets
  end.

(** *** The cell sizes the container allows, in the words of the
    specification *)

Definition paddingFor (containerWidth : Q) : Q :=
  if Qlt_le_dec containerWidth 640 then 8%Q else 12%Q.

(** The cell size that makes [cols] cells, their gaps and the padding
    fill the width of the container (never less than 120 pixels of
    cells). *)
Definition widthConstrainedCell (containerWidth : Q) (cols : Z) : Q :=
  (Qmax 120 (containerWidth - paddingFor containerWidth * 2
             - 2 * (inject_Z cols - 1))
   / inject_Z cols)%Q.

(** The same for the height, below the header offset. *)
Definition heightConstrainedCell (containerWidth containerHeight : Q) (rows : Z)
  : Q :=
  (Qmax 120 (containerHeight - 32 - paddingFor containerWidth * 2
             - 2 * (inject_Z rows - 1))
   / inject_Z rows)%Q.

(** ** What a play is expected to emit *)


(** The play id when it is not the empty string. *)
Definition truthyId (play : PlayOutcome) : option string :=
  if bool_decide (playId play = ""%string) then None else Some (playId play).






(** The part of the scene the sequencer reads and writes: the grid, the
    board shape, the play, the accumulated win, the callbacks on the
    clock in the order they were added, and what has been emitted. *)
Record Core : Type := mkCore {
  coreGrid : option Grid;
  coreSize : GridSize;
  corePlay : option PlayOutcome;
  coreWin : Z;
  corePending : list Callback;
  coreEmitted : list Notification
}.

Definition core (s : Scene) : Core :=
  {| coreGrid := grid s; coreSize := boardSize s; corePlay := currentPlay s;
     coreWin := accumulatedWin s; corePending := snd <$> clock s;
     coreEmitted := emitted s |}.

(** The board shape [renderPlay] gives the scene. *)
Definition shapeFor (env : Env) (play : option PlayOutcome) : GridSize :=
  let size := pickBoardSize play (getPreviewMode env) (getPreviewSize env) in
  {| rows := Z.max 1 (rows size); cols := Z.max 1 (cols size) |}.





(** The play id the scene emits with, as a function of the core. *)
Definition coreId (c : Core) : option string :=
  match corePlay c with
  | Some play => truthyId play
  | None => None
  end.





Definition sumZ (xs : list Z) : Z := foldr Z.add 0 xs.





(** *** A step without its out-of-range entries *)

Definition inBounds (size : GridSize) (cell : CellRef) : bool :=
  ((0 <=? row cell) && (row cell <? rows size)
   && (0 <=? col cell) && (col cell <? cols size))%bool.

Definition inRange (size : GridSize) (d : DropIn) : bool :=
  ((0 <=? dropCol d) && (dropCol d <? cols size))%bool.

(** The step with the cells of [removeCells] outside the board and the
    entries of [dropIn] for columns outside the board left out. *)
Definition withoutOutOfRange (size : GridSize) (st : CascadeStep) : CascadeStep :=
  {| removeCells := List.filter (inBounds size) (removeCells st);
     dropIn := List.filter (inRange size) (dropIn st);
     winStep := winStep st; gridAfter := gridAfter st;
     bonus := bonus st; bonusData := bonusData st |}.


(** *** Invariants of the reel intro *)

(** The column states are one per column, each knows its column, and no
    cursor is behind its start. *)
Definition columnsWellFormed (rows cols : nat) (s : Reel.State) : Prop :=
  length (Reel.columnStates s) = cols
  ∧ ∀ i st,
      Reel.columnStates s !! i = Some st →
      Reel.ccol st = i ∧ (Reel.startIndex st + rows ≤ Reel.stripCursor st)%nat.

Definition stopOf (r : Reel.StopRecord) : Z * nat :=
  (Reel.stopTime r, Reel.stopCol r).

(** Before the stop sequence is scheduled there is no stop event and no
    stop command.  After it, the rightmost column has spun its minimum,
    the stop commands delivered and the stop events still on the clock
    are together the stop plan of some time [T], and every stop command
    was delivered after the rightmost column had spun its minimum. *)
Definition stopsInOrder (rows cols : nat) (s : Reel.State) : Prop :=
  if Reel.stopSequenceScheduled s then
    (rows * Reel.minTurnsLastColumn ≤ Reel.lastColumnSpinSteps s)%nat
    ∧ ∃ T k,
        (k ≤ cols)%nat
        ∧ Reel.stopEventsOf (Reel.events s) = Reel.stopPlan T k (cols - k)
        ∧ stopOf <$> Reel.stopLog s = Reel.stopPlan T 0 k
        ∧ Forall (fun r => (rows * Reel.minTurnsLastColumn
                            ≤ Reel.lastColumnTicks r)%nat)
                 (Reel.stopLog s)
  else Reel.stopEventsOf (Reel.events s) = [] ∧ Reel.stopLog s = [].

Definition reelInvariant (rows cols : nat) (s : Reel.State) : Prop :=
  columnsWellFormed rows cols s
  ∧ (Reel.lastColumnSpinSteps s ≤ Reel.ticksOfLast rows cols s)%nat
  ∧ stopsInOrder rows cols s.

(** ** Containers and keys

    The key of a board position given by its row and column indices. *)
Definition keyOf (rc : nat * nat) : Z * Z := (Z.of_nat rc.1, Z.of_nat rc.2).

(** The cells of column [col] below row [r0] that a step vacates: those
    it removes and those that hold no container. *)
Definition vacatedBelow (removeSet : gset (Z * Z)) (old : gmap (Z * Z) Handle)
    (rows r0 : nat) (col : Z) : nat :=
  length (filter (fun r : nat =>
                    (Z.of_nat r, col) ∈ removeSet ∨ old !! (Z.of_nat r, col) = None)
                 (seq (S r0) (rows - S r0))).

(** ** Sample data

    A board of three rows and five columns with two trigger symbols, the
    play of the specification's example (two match steps), and plays and
    steps that exercise a bonus step, an empty cascade list and entries
    out of range. *)

Definition sampleGrid : Grid :=
  [["A"; "B"; "C"; "D"; "E"];
   ["A"; "N"; "C"; "D"; "E"];
   ["A"; "B"; "C"; "N"; "E"]]%string.

Definition sampleSize : GridSize := {| rows := 3; cols := 5 |}.

Definition sampleRandom : RandomSource := fun i => (Z.of_nat (i mod 7) # 7)%Q.

Definition otherRandom : RandomSource := fun i => (Z.of_nat (i mod 5) # 11)%Q.

Definition sampleEnv (fillMode : option FillMode) : Env :=
  {| getPreviewMode := None; getPreviewSize := None;
     getFillMode := fillMode; random := sampleRandom |}.

(** The first step removes three cells and wins 10, the second removes
    four cells and wins 25. *)
Definition firstStep : CascadeStep :=
  {| removeCells := [mkCell 0 0; mkCell 1 0; mkCell 2 0];
     dropIn := [mkDropIn 0 ["X"; "Y"; "Z"]%string];
     winStep := 10;
     gridAfter := Some [["X"; "B"; "C"; "D"; "E"];
                        ["Y"; "N"; "C"; "D"; "E"];
                        ["Z"; "B"; "C"; "N"; "E"]]%string;
     bonus := None; bonusData := None |}.

Definition secondStep : CascadeStep :=
  {| removeCells := [mkCell 0 1; mkCell 0 2; mkCell 0 3; mkCell 0 4];
     dropIn := [mkDropIn 1 ["P"]; mkDropIn 2 ["Q"]; mkDropIn 3 ["R"];
                mkDropIn 4 ["S"]]%string;
     winStep := 25;
     gridAfter := Some [["X"; "P"; "Q"; "R"; "S"];
                        ["Y"; "N"; "C"; "D"; "E"];
                        ["Z"; "B"; "C"; "N"; "E"]]%string;
     bonus := None; bonusData := None |}.

Definition samplePlay : PlayOutcome :=
  {| playId := "p1"; mode := nivel1; bet := 1; grid0 := sampleGrid;
     cascades := [firstStep; secondStep]; totalWin := 35 |}.



(** A play without cascades. *)
Definition quietPlay : PlayOutcome :=
  {| playId := "p0"; mode := nivel1; bet := 1; grid0 := sampleGrid;
     cascades := []; totalWin := 0 |}.

(** The sample play is submitted to a new scene; after [n] frames of 16
    ms another play is submitted, or the board is cleared, before the next
    frame. *)
Definition interrupted (fillMode : option FillMode) (n : nat)
    (next : option PlayOutcome) : option Live.State :=
  L1 ← Live.renderPlay (sampleEnv fillMode) samplePlay Live.start;
  let L2 := Live.frames (sampleEnv fillMode) (replicate n 16) L1 in
  match next with
  | Some play => Live.renderPlay (sampleEnv fillMode) play L2
  | None => Live.clearBoard (sampleEnv fillMode) L2
  end.

(** A scene that shows [sampleGrid]. *)
Definition sampleScene : Scene :=
  setGrid (Some sampleGrid) (setBoardSize sampleSize emptyScene).

(** A step with a cell and a drop column outside the sample board. *)
Definition malformedStep : CascadeStep :=
  {| removeCells := [mkCell 0 0; mkCell 7 9; mkCell (-1) 2];
     dropIn := [mkDropIn 0 ["X"]; mkDropIn 12 ["Y"; "Z"]]%string;
     winStep := 3;
     gridAfter := Some [["X"; "B"]; ["A"]]%string;
     bonus := None; bonusData := None |}.

(** The sample scene with its grid drawn: one container per cell. *)
Definition drawnScene : Scene :=
  default sampleScene (drawGrid sampleGrid sampleScene).

(** A step that removes the bottom cell of column 1 and the middle cell
    of column 3 of the sample board. *)
Definition gravityStep : CascadeStep :=
  {| removeCells := [mkCell 2 1; mkCell 1 3];
     dropIn := [mkDropIn 1 ["W"]; mkDropIn 3 ["V"]]%string;
     winStep := 5;
     gridAfter := Some [["A"; "W"; "C"; "V"; "E"];
                        ["A"; "B"; "C"; "D"; "E"];
                        ["A"; "N"; "C"; "N"; "E"]]%string;
     bonus := None; bonusData := None |}.

(** ** Colours ([hexToRgb], [clampChannel], [darkenColor], [lightenColor])

    A colour string is read as its sequence of code units, each below
    256.  A JavaScript number that [parseInt] produces is an integer,
    [NaN] or an infinity.  The channels and the amount of [darkenColor]
    and [lightenColor] are finite doubles; each subtraction, product and
    sum is rounded to a double by [Double.round]. *)

Module Color.

Record Rgb : Type := mkRgb { r : Q; g : Q; b : Q }.

Inductive Number : Type :=
| NaN
| Infinity (negative : bool)
| Finite (z : Z).

(** [hex.replace("#", "")]: the first ["#"] of the string is removed. *)
Fixpoint removeFirstHash (s : list ascii) : list ascii :=
  match s with
  | [] => []
  | c :: rest => if Ascii.eqb c "#" then rest else c :: removeFirstHash rest
  end.

(** [safe.split("").map((c) => c + c).join("")]. *)
Definition doubleEach (s : list ascii) : list ascii :=
  c ← s; [c; c].

(** [safe.padEnd(6, "0")]. *)
Definition padEnd (s : list ascii) (targetLength : nat) (fill : ascii)
  : list ascii :=
  s ++ replicate (targetLength - length s) fill.

(** The white space and line terminators [parseInt] skips, among the code
    units below 256: TAB, LF, VT, FF, CR, SP and NBSP. *)
Definition isWhiteSpace (c : ascii) : bool :=
  let n := nat_of_ascii c in
  ((n =? 9) || (n =? 10) || (n =? 11) || (n =? 12) || (n =? 13)
   || (n =? 32) || (n =? 160))%nat.

Fixpoint trimStart (s : list ascii) : list ascii :=
  match s with
  | [] => []
  | c :: rest => if isWhiteSpace c then trimStart rest else s
  end.

(** The value of a digit of radix 16. *)
Definition digitValue (c : ascii) : option Z :=
  let n := Z.of_nat (nat_of_ascii c) in
  if (48 <=? n) && (n <=? 57) then Some (n - 48)
  else if (97 <=? n) && (n <=? 102) then Some (n - 87)
  else if (65 <=? n) && (n <=? 70) then Some (n - 55)
  else None.

Fixpoint leadingDigits (s : list ascii) : list Z :=
  match s with
  | [] => []
  | c :: rest =>
      match digitValue c with
      | Some d => d :: leadingDigits rest
      | None => []
      end
  end.

Definition mathInt (digits : list Z) : Z :=
  foldl (fun acc d => acc * 16 + d) 0 digits.

(** The Number value of a non-negative integer: the nearest double, ties
    to the even significand, and an infinity from [2 ^ 1024] on. *)
Definition toNumber (negative : bool) (n : Z) : Number :=
  let bits := if n =? 0 then 0 else Z.log2 n + 1 in
  let rounded :=
    if bits <=? 53 then n
    else
      let e := bits - 53 in
      let q := Z.shiftr n e in
      let rest := Z.land n (Z.ones e) in
      let half := Z.shiftl 1 (e - 1) in
      let q' := if (half <? rest) || ((rest =? half) && Z.odd q) then q + 1 else q in
      Z.shiftl q' e in
  if 2 ^ 1024 <=? rounded then Infinity negative
  else Finite (if negative then - rounded else rounded).

(** [parseInt(string, 16)]: leading white space is skipped, then a sign,
    then a prefix [0x] or [0X]; the digits that follow are read, and
    without a digit the result is [NaN]. *)
Definition parseInt16 (s : list ascii) : Number :=
  let trimmed := trimStart s in
  let negative :=
    match trimmed with
    | c :: _ => Ascii.eqb c "-"
    | [] => false
    end in
  let unsigned :=
    match trimmed with
    | c :: rest => if (Ascii.eqb c "-" || Ascii.eqb c "+")%bool then rest else trimmed
    | [] => []
    end in
  let digits :=
    match unsigned with
    | c0 :: cx :: rest =>
        if (Ascii.eqb c0 "0" && (Ascii.eqb cx "x" || Ascii.eqb cx "X"))%bool
        then rest else unsigned
    | _ => unsigned
    end in
  match leadingDigits digits with
  | [] => NaN
  | ds => toNumber negative (mathInt ds)
  end.

(** [ToInt32], which the bit operators apply to their operands. *)
Definition wrapInt32 (z : Z) : Z :=
  let m := z mod 2 ^ 32 in
  if 2 ^ 31 <=? m then m - 2 ^ 32 else m.

Definition ToInt32 (x : Number) : Z :=
  match x with
  | Finite z => wrapInt32 z
  | _ => 0
  end.

(** [x >> n], [x << n], [x & y] and [x | y] on integers. *)
Definition shr (x : Z) (n : Z) : Z := Z.shiftr (wrapInt32 x) (n mod 32).
Definition shl (x : Z) (n : Z) : Z := wrapInt32 (Z.shiftl (wrapInt32 x) (n mod 32)).
Definition band (x y : Z) : Z := Z.land (wrapInt32 x) (wrapInt32 y).
Definition bor (x y : Z) : Z := Z.lor (wrapInt32 x) (wrapInt32 y).

Definition hexToRgb (hex : string) : Rgb :=
  let safe := removeFirstHash (list_ascii_of_string hex) in
  let parsed :=
    if (length safe =? 3)%nat then doubleEach safe else padEnd safe 6 "0" in
  let num := ToInt32 (parseInt16 parsed) in
  {| r := inject_Z (band (shr num 16) 255);
     g := inject_Z (band (shr num 8) 255);
     b := inject_Z (band num 255) |}.

Definition clampChannel (value : Q) : Z :=
  Z.max 0 (Z.min 255 (Math_round value)).

(** The channels and the amount are doubles: a rational given for one
    is read as the double nearest to it. *)
Definition darkenColor (rgb : Rgb) (amount : Q) : Z :=
  let factor := Double.round (1 - Double.round amount) in
  bor (bor (shl (clampChannel (Double.round (Double.round (r rgb) * factor))) 16)
           (shl (clampChannel (Double.round (Double.round (g rgb) * factor))) 8))
      (clampChannel (Double.round (Double.round (b rgb) * factor))).

(** [c + (255 - c) * amount] for a channel [c]. *)
Definition lightenChannel (c amount : Q) : Q :=
  let c := Double.round c in
  Double.round (c + Double.round (Double.round (255 - c) * Double.round amount)).

Definition lightenColor (rgb : Rgb) (amount : Q) : Z :=
  bor (bor (shl (clampChannel (lightenChannel (r rgb) amount)) 16)
           (shl (clampChannel (lightenChannel (g rgb) amount)) 8))
      (clampChannel (lightenChannel (b rgb) amount)).

(** The colours of the paytable ([PhaserBoard]'s effect on
    [symbolPaytable]) and [getSymbolColor]. *)
Record SymbolMatchRule : Type := mkRule { count : Z; multiplier : Z }.

Record SymbolPaytableEntry : Type := mkEntry {
  symbol : string;
  label : string;
  color : string;
  matches : list SymbolMatchRule
}.

Definition symbolColorMap (symbolPaytable : option (list SymbolPaytableEntry))
  : gmap string string :=
  foldl (fun map entry =>
           if (negb (String.eqb (symbol entry) "")
               && negb (String.eqb (color entry) ""))%bool
           then <[symbol entry := color entry]> map
           else map)
        ∅ (default [] symbolPaytable).

Definition getSymbolColor (map : gmap string string) (symbol : string) : string :=
  default "#e2e8f0"%string (map !! symbol).

End Color.

(** ** The event bus ([src/lib/event-bus.ts])

    [handlers] is a [Map] from an event name to a [Set] of handlers.  A
    handler is a function object, told from others by its identity; a
    [Set] keeps its elements in the order they were added, adding an
    element it already has changes nothing, and deleting keeps the order
    of the others.  [emit] is given by the calls it makes, in order, for
    handlers that do not touch the bus while they run. *)

Module EventBus.

Section Bus.

Context {Handler Payload : Type} `{EqDecision Handler}.

Abbreviation Handlers := (gmap string (list Handler)).

(** [new Map()]. *)
Definition createEventBus : Handlers := ∅.

(** [set.add(handler)] and [set.delete(handler)]. *)
Definition setAdd (handler : Handler) (set : list Handler) : list Handler :=
  if decide (handler ∈ set) then set else set ++ [handler].

Definition setDelete (handler : Handler) (set : list Handler) : list Handler :=
  filter (fun h => h ≠ handler) set.

Definition on (event : string) (handler : Handler) (handlers : Handlers)
  : Handlers :=
  let handlers1 :=
    match handlers !! event with
    | None => <[event := []]> handlers
    | Some _ => handlers
    end in
  match handlers1 !! event with
  | Some set => <[event := setAdd handler set]> handlers1
  | None => handlers1
  end.

(** The function [on] returns: [handlers.get(event)?.delete(handler)]. *)
Definition unsubscribe (event : string) (handler : Handler)
    (handlers : Handlers) : Handlers :=
  match handlers !! event with
  | Some set => <[event := setDelete handler set]> handlers
  | None => handlers
  end.

(** The calls [emit] makes: each handler of the event, with the payload. *)
Definition emit (event : string) (payload : Payload) (handlers : Handlers)
  : list (Handler * Payload) :=
  match handlers !! event with
  | Some set => (fun handler => (handler, payload)) <$> set
  | None => []
  end.

Definition clear (handlers : Handlers) : Handlers := ∅.

(** [handlers.get(event)], an absent set read as the empty one. *)
Definition handlersOf (event : string) (handlers : Handlers) : list Handler :=
  default [] (handlers !! event).

(** A use of the bus, and a history of uses from its creation on. *)
Inductive Use : Type :=
| On (event : string) (handler : Handler)
| Unsubscribe (event : string) (handler : Handler)
| Clear.

Definition use (handlers : Handlers) (u : Use) : Handlers :=
  match u with
  | On event handler => on event handler handlers
  | Unsubscribe event handler => unsubscribe event handler handlers
  | Clear => clear handlers
  end.

Definition after (history : list Use) : Handlers :=
  foldl use createEventBus history.

(** The uses that decide whether [handler] is subscribed to [event]. *)
Definition concerns (event : string) (handler : Handler) (u : Use) : Prop :=
  u = On event handler ∨ u = Unsubscribe event handler ∨ u = Clear.

#[global] Instance Use_eq_dec : EqDecision Use.
Proof. solve_decision. Defined.

#[global] Instance concerns_dec event handler u : Decision (concerns event handler u).
Proof. unfold concerns. apply _. Defined.

Definition subscribed (event : string) (handler : Handler) (history : list Use)
  : Prop :=
  last (filter (concerns event handler) history) = Some (On event handler).

End Bus.

End EventBus.

(** ** Money ([src/lib/format-money.ts])

    An amount is a finite number, taken as the rational it denotes; a
    string is read as its sequence of code units.  [Number_toString] is
    the host's conversion of a number to a string, which [toFixed] uses
    for an amount of [10 ^ 21] or more. *)

Module Money.

Record MoneyFormat : Type := mkFormat {
  currency : string;
  decimals : Z;
  thousandSeparator : string;
  decimalSeparator : string
}.

Definition isDigit (c : ascii) : bool :=
  let n := nat_of_ascii c in ((48 <=? n) && (n <=? 57))%nat.

(** The characters [\w] matches. *)
Definition isWordChar (c : ascii) : bool :=
  let n := nat_of_ascii c in
  (isDigit c || ((65 <=? n) && (n <=? 90)) || ((97 <=? n) && (n <=? 122))
   || (n =? 95))%nat.

(** The decimal digits of a natural number. *)
Definition digitsOf (n : Z) : list ascii :=
  list_ascii_of_string (NilEmpty.string_of_uint (N.to_uint (Z.to_N n))).

Section ToFixed.

Variable Number_toString : Q → list ascii.

(** [x.toFixed(fractionDigits)]: [None] is the [RangeError] for a number
    of digits outside 0..100. *)
Definition toFixed (x : Q) (fractionDigits : Z) : option (list ascii) :=
  if ((fractionDigits <? 0) || (100 <? fractionDigits))%bool then None
  else
    let f := Z.to_nat fractionDigits in
    let sign := if Qlt_le_dec x 0 then ["-"%char] else [] in
    let magnitude := if Qlt_le_dec x 0 then (- x)%Q else x in
    if Qlt_le_dec magnitude (inject_Z (10 ^ 21))
    then
      let n := Qfloor (magnitude * inject_Z (10 ^ fractionDigits) + (1 # 2))%Q in
      let m := digitsOf n in
      let m' :=
        match f with
        | O => m
        | _ =>
            let padded := replicate (S f - length m) "0"%char ++ m in
            take (length padded - f) padded ++ "."%char :: drop (length padded - f) padded
        end in
      Some (sign ++ m')
    else Some (sign ++ Number_toString magnitude).

End ToFixed.

(** [s.split(sep)] for a separator of one character. *)
Fixpoint split (sep : ascii) (s : list ascii) : list (list ascii) :=
  match s with
  | [] => [[]]
  | c :: rest =>
      if Ascii.eqb c sep then [] :: split sep rest
      else match split sep rest with
           | first :: others => (c :: first) :: others
           | [] => [[c]]
           end
  end.

(** The number of digits a string starts with. *)
Fixpoint digitRun (s : list ascii) : nat :=
  match s with
  | c :: rest => if isDigit c then S (digitRun rest) else O
  | [] => O
  end.

(** Whether the pattern [\B(?=(\d{3})+(?!\d))] matches between [prev]
    and [s]: no word boundary, and the digits that follow number a
    positive multiple of three. *)
Definition matchesAt (prev : option ascii) (s : list ascii) : bool :=
  let wordBefore := match prev with Some c => isWordChar c | None => false end in
  let wordAfter := match s with c :: _ => isWordChar c | [] => false end in
  (Bool.eqb wordBefore wordAfter
   && (0 <? digitRun s)%nat && (digitRun s mod 3 =? 0)%nat)%bool.

(** The text a replacement string stands for ([GetSubstitution]) at a
    match of the pattern: the match is empty, and its one capture is the
    last group of three digits. *)
Fixpoint getSubstitution (before after capture : list ascii)
    (replacement : list ascii) : list ascii :=
  match replacement with
  | [] => []
  | c :: rest =>
      if negb (Ascii.eqb c "$") then c :: getSubstitution before after capture rest
      else
        match rest with
        | [] => [c]
        | c1 :: rest1 =>
            if Ascii.eqb c1 "$" then "$"%char :: getSubstitution before after capture rest1
            else if Ascii.eqb c1 "&" then getSubstitution before after capture rest1
            else if Ascii.eqb c1 "`" then before ++ getSubstitution before after capture rest1
            else if Ascii.eqb c1 "'" then after ++ getSubstitution before after capture rest1
            else if Ascii.eqb c1 "1" then capture ++ getSubstitution before after capture rest1
            else if Ascii.eqb c1 "0" then
              match rest1 with
              | c2 :: rest2 =>
                  if Ascii.eqb c2 "1"
                  then capture ++ getSubstitution before after capture rest2
                  else c :: getSubstitution before after capture rest
              | [] => c :: getSubstitution before after capture rest
              end
            else c :: getSubstitution before after capture rest
        end
  end.

(** [s.replace(/\B(?=(\d{3})+(?!\d))/g, replacement)], from the position
    after [before] on. *)
Fixpoint replaceFrom (replacement : list ascii) (before : list ascii)
    (s : list ascii) : list ascii :=
  let here :=
    if matchesAt (last before) s
    then getSubstitution before s
           (take 3 (drop (digitRun s - 3) s)) replacement
    else [] in
  match s with
  | [] => here
  | c :: rest => here ++ c :: replaceFrom replacement (before ++ [c]) rest
  end.

Definition replaceThousands (s replacement : list ascii) : list ascii :=
  replaceFrom replacement [] s.

Section FormatMoney.

Variable Number_toString : Q → list ascii.

Definition formatMoney (amount : Q) (format : MoneyFormat) : option string :=
  fixed ← toFixed Number_toString amount (decimals format);
  let parts := split "." fixed in
  let intPart := default [] (parts !! 0%nat) in
  let decimalPart := parts !! 1%nat in
  let withThousands :=
    replaceThousands intPart (list_ascii_of_string (thousandSeparator format)) in
  Some (currency format ++ " "
        ++ string_of_list_ascii withThousands
        ++ match decimalPart with
           | Some (d :: ds) =>
               decimalSeparator format ++ string_of_list_ascii (d :: ds)
           | _ => ""
           end)%string.

End FormatMoney.

End Money.

(** The digits of an integer part from its second digit on, with the
    separator before every digit that is followed by a multiple of three
    digits less one. *)
Fixpoint groupedTail (sep : list ascii) (ds : list ascii) : list ascii :=
  match ds with
  | [] => []
  | d :: rest =>
      (if (length ds mod 3 =? 0)%nat then sep else []) ++ d :: groupedTail sep rest
  end.

(** ** The page ([src/app/page.tsx])

    The values the page derives from its state on each render, and the
    state updates of its buttons.  Amounts and indices are integers. *)

Module Page.

(** *** The rules carousel

    JavaScript's [%] takes the sign of the dividend: it is [Z.rem]. *)
Definition goPrevRule (rulesTotal prev : Z) : Z :=
  if rulesTotal =? 0 then prev else Z.rem (prev - 1 + rulesTotal) rulesTotal.

Definition goNextRule (rulesTotal prev : Z) : Z :=
  if rulesTotal =? 0 then prev else Z.rem (prev + 1) rulesTotal.

(** [rulesTotal > 0 ? rulesPages[rulesIndex % rulesTotal] : null]. *)
Definition activeRule {A : Type} (rulesPages : list A) (rulesIndex : Z) : option A :=
  let rulesTotal := Z.of_nat (length rulesPages) in
  if 0 <? rulesTotal
  then
    let i := Z.rem rulesIndex rulesTotal in
    if i <? 0 then None else rulesPages !! Z.to_nat i
  else None.

(** *** The bet selector *)

(** [array.indexOf(x)]: the first index of [x], or -1. *)
Fixpoint indexOf (x : Z) (values : list Z) : Z :=
  match values with
  | [] => -1
  | v :: rest =>
      if v =? x then 0
      else let i := indexOf x rest in if i <? 0 then -1 else i + 1
  end.

(** [betValues] for a loaded configuration: the configured values, or
    the minimum bet alone when there are none. *)
Definition betValuesOf (betValues : option (list Z)) (minBet : Z) : list Z :=
  match betValues with
  | Some (v :: rest) => v :: rest
  | _ => [minBet]
  end.

Definition safeBetValues (betValues : list Z) : list Z :=
  match betValues with
  | [] => [0]
  | _ => betValues
  end.

Definition betIndex (values : list Z) (bet : Z) : Z :=
  Z.max 0 (indexOf bet values).

(** [safeBetValues[betIndex] ?? 0]. *)
Definition betValue (values : list Z) (bet : Z) : Z :=
  default 0 (values !! Z.to_nat (betIndex values bet)).

Definition canDecreaseBet (values : list Z) (bet : Z) : bool :=
  0 <? betIndex values bet.

Definition canIncreaseBet (values : list Z) (bet : Z) : bool :=
  betIndex values bet <? Z.of_nat (length values) - 1.

(** The bet a button sets: [safeBetValues[betIndex - 1]] and
    [safeBetValues[betIndex + 1]]; [None] is [undefined]. *)
Definition decreaseBet (values : list Z) (bet : Z) : option Z :=
  let i := betIndex values bet - 1 in
  if i <? 0 then None else values !! Z.to_nat i.

Definition increaseBet (values : list Z) (bet : Z) : option Z :=
  values !! Z.to_nat (betIndex values bet + 1).

(** *** The summary of a pack *)

Record PackPlay : Type := mkPackPlay {
  playId : string;
  mode : GameMode;
  bet : Z;
  ticketIndex : Z;
  grid0 : Grid;
  cascades : list CascadeStep;
  totalWin : Z
}.

(** [plays.slice(0, packRevealed)]. *)
Definition revealedPlays (plays : list PackPlay) (packRevealed : nat)
  : list PackPlay :=
  take packRevealed plays.

Definition revealedTotalWin (revealed : list PackPlay) : Z :=
  foldl (fun acc ticket => acc + totalWin ticket) 0 revealed.

Definition bestRevealed (revealed : list PackPlay) : option PackPlay :=
  foldl (fun best ticket =>
           match best with
           | None => Some ticket
           | Some b => if totalWin b <? totalWin ticket then Some ticket else Some b
           end)
        None revealed.

End Page.

(** ** The requests in flight ([src/api/client.ts])

    [pending] is a [Map] from a request id to the promise of the request
    and its timeout; a [Map] keeps its keys in the order they were first
    set.  A request is told from others by the number of its promise,
    which is also the number of its timer.  What the code does to
    promises and timers is kept in a log.  Opening the socket and
    [ws.send] are left out: they do not touch [pending]. *)

Module Client.

#[warnings="-register-all"] Inductive Json : Type :=
| JNull
| JBool (b : bool)
| JNumber (q : Q)
| JString (s : string)
| JArray (items : list Json)
| JObject (fields : list (string * Json)).

(** [value.key] for a parsed value other than [null]: the last field of
    that name of an object, and [undefined] for any other value. *)
Definition property (key : string) (value : Json) : option Json :=
  match value with
  | JObject fields =>
      snd <$> last (filter (fun field : string * Json => field.1 = key) fields)
  | _ => None
  end.

(** Whether a value that may be [undefined] is truthy. *)
Definition truthy (value : option Json) : bool :=
  match value with
  | None | Some JNull => false
  | Some (JBool b) => b
  | Some (JNumber q) => negb (Qeq_bool q 0)
  | Some (JString s) => negb (String.eqb s "")
  | Some (JArray _) | Some (JObject _) => true
  end.

(** [value === text]. *)
Definition isString (text : string) (value : option Json) : bool :=
  match value with
  | Some (JString s) => String.eqb s text
  | _ => false
  end.

Inductive Effect : Type :=
| ClearTimeout (request : nat)
| Resolve (request : nat) (data : option Json)
| Reject (request : nat) (message : option Json) (status : option Json).

Record State : Type := mkState {
  pending : list (string * nat);
  timers : list (nat * string);
  log : list Effect;
  requests : nat
}.

(** [pending.set(requestId, request)]. *)
Fixpoint mapSet (requestId : string) (request : nat) (entries : list (string * nat))
  : list (string * nat) :=
  match entries with
  | [] => [(requestId, request)]
  | entry :: rest =>
      if String.eqb entry.1 requestId then (requestId, request) :: rest
      else entry :: mapSet requestId request rest
  end.

(** [pending.get(requestId)] and [pending.delete(requestId)]. *)
Definition mapGet (requestId : string) (entries : list (string * nat)) : option nat :=
  snd <$> find (fun entry : string * nat => String.eqb entry.1 requestId) entries.

Definition mapDelete (requestId : string) (entries : list (string * nat))
  : list (string * nat) :=
  List.filter (fun entry : string * nat => negb (String.eqb entry.1 requestId)) entries.

(** [clearTimeout(timeoutId)]. *)
Definition clearTimeout (request : nat) (s : State) : State :=
  mkState (pending s)
          (List.filter (fun t : nat * string => negb (t.1 =? request)%nat) (timers s))
          (log s ++ [ClearTimeout request]) (requests s).

(** The promise executor of [wsRequest]: the timeout is set, with the
    request id its callback captures, and the request is put into
    [pending]. *)
Definition wsRequest (requestId : string) (s : State) : State :=
  let request := requests s in
  mkState (mapSet requestId request (pending s))
          (timers s ++ [(request, requestId)]) (log s) (S request).

(** The timeout of a request fires, if it is still set. *)
Definition timeout (request : nat) (s : State) : State :=
  match find (fun t : nat * string => (t.1 =? request)%nat) (timers s) with
  | Some (_, requestId) =>
      mkState (mapDelete requestId (pending s))
              (List.filter (fun t : nat * string => negb (t.1 =? request)%nat)
                           (timers s))
              (log s ++ [Reject request
                           (Some (JString "WebSocket request timed out.")) None])
              (requests s)
  | None => s
  end.

(** The settlement of a request found in [pending]. *)
Definition settle (requestId : string) (request : nat) (effect : Effect) (s : State)
  : State :=
  let s1 := clearTimeout request s in
  mkState (mapDelete requestId (pending s1)) (timers s1) (log s1 ++ [effect])
          (requests s1).

Section Messages.

(** [JSON.parse(String(event.data))]: [None] when it throws. *)
Variable JSON_parse : string → option Json.

(** [handleSocketMessage]: [None] is the [TypeError] of reading a
    property of [null]. *)
Definition handleSocketMessage (data : string) (s : State) : option State :=
  match JSON_parse data with
  | None => Some s
  | Some JNull => None
  | Some payload =>
      if (negb (isString "response" (property "type" payload))
          || negb (truthy (property "requestId" payload)))%bool
      then Some s
      else
        match property "requestId" payload with
        | Some (JString requestId) =>
            match mapGet requestId (pending s) with
            | None => Some s
            | Some request =>
                if truthy (property "ok" payload)
                then Some (settle requestId request
                             (Resolve request (property "data" payload)) s)
                else
                  let error :=
                    match property "error" payload with
                    | None | Some JNull =>
                        JObject [("message"%string, JString "Unknown error")]
                    | Some e => e
                    end in
                  Some (settle requestId request
                          (Reject request (property "message" error)
                                  (property "status" error)) s)
            end
        | _ => Some s
        end
  end.

(** What happens to the requests in flight. *)
Inductive Event : Type :=
| Request (requestId : string)
| TimerFires (request : nat)
| Message (data : string)
| Closed.

(** [rejectAllPending(reason)]. *)
Definition rejectAllPending (reason : string) (s : State) : State :=
  foldl (fun acc entry =>
           settle entry.1 entry.2 (Reject entry.2 (Some (JString reason)) None) acc)
        s (pending s).

(** One event; a handler that throws leaves the state as it is. *)
Definition handle (s : State) (event : Event) : State :=
  match event with
  | Request requestId => wsRequest requestId s
  | TimerFires request => timeout request s
  | Message data => default s (handleSocketMessage data s)
  | Closed => rejectAllPending "WebSocket connection closed." s
  end.

End Messages.

Definition initial : State := mkState [] [] [] 0.

(** The request an effect settles. *)
Definition settled (effect : Effect) : option nat :=
  match effect with
  | ClearTimeout _ => None
  | Resolve request _ => Some request
  | Reject request _ _ => Some request
  end.

End Client.

(** *** What holds of the requests in flight *)

(** The requests the log settles. *)
Definition settledIn (log : list Client.Effect) : list nat :=
  omap Client.settled log.

(** What every reachable state of the requests in flight satisfies: a
    pending request has its timer set, under the request id it is pending
    for; a request with a timer set is not settled; no request has two
    timers or is settled twice; and no two pending entries share a key. *)
Record clientInvariant (s : Client.State) : Prop := mkClientInvariant {
  pending_has_timer :
    ∀ requestId request,
      (requestId, request) ∈ Client.pending s → (request, requestId) ∈ Client.timers s;
  timer_unsettled :
    ∀ request requestId,
      (request, requestId) ∈ Client.timers s →
      (request < Client.requests s)%nat ∧ request ∉ settledIn (Client.log s);
  timers_distinct : NoDup (Client.timers s).*1;
  settled_once : NoDup (settledIn (Client.log s));
  settled_made :
    ∀ request, request ∈ settledIn (Client.log s) → (request < Client.requests s)%nat;
  keys_distinct : NoDup (Client.pending s).*1
}.

(** Every request made is settled or has its timer set. *)
Definition accountedFor (s : Client.State) : Prop :=
  ∀ request, (request < Client.requests s)%nat →
    request ∈ settledIn (Client.log s) ∨ request ∈ (Client.timers s).*1.

(** * Properties *)

(** ** The state machine *)

(** The test of [state-machine.test.ts]. *)
Example state_machine_test :
  let m0 := StateMachine.createStateMachine (Some StateMachine.MENU) in
  let m1 := StateMachine.transition StateMachine.LOADING None m0 in
  let m2 :=
    StateMachine.transition StateMachine.READY
      (Some {[ "mode"%string := StateMachine.VString "nivel1";
               "packId"%string := StateMachine.VString "pack-1" ]}) m1 in
  StateMachine.state m0 = StateMachine.MENU
  ∧ StateMachine.state m1 = StateMachine.LOADING
  ∧ StateMachine.state m2 = StateMachine.READY
  ∧ StateMachine.context m2 !! "mode"%string = Some (StateMachine.VString "nivel1")
  ∧ StateMachine.context m2 !! "packId"%string = Some (StateMachine.VString "pack-1").
Proof. repeat split; reflexivity. Qed.

(** C10.  For every machine, every next state and every optional partial
    context, [transition] sets the state to the next state, whatever the
    current state is; a key of the partial context reads as the partial
    context has it afterwards, and every other key of the context reads as
    before. *)
Theorem transition_total_and_frame :
  ∀ (m : StateMachine.StateMachine) (next : StateMachine.GameState)
    (partial : option (gmap string StateMachine.CtxValue)) (key : string),
    StateMachine.state (StateMachine.transition next partial m) = next
    ∧ StateMachine.context (StateMachine.transition next partial m) !! key
      = match partial ≫= (fun p => p !! key) with
        | Some v => Some v
        | None => StateMachine.context m !! key
        end.
Proof.
  intros m next partial key. split; [reflexivity|].
  destruct partial as [p|]; simpl; [|reflexivity].
  unfold StateMachine.objectAssign.
  destruct (p !! key) as [v|] eqn:Hp.
  - apply lookup_union_Some_l. exact Hp.
  - apply lookup_union_r. exact Hp.
Qed.

(** ** The bonus highlight *)

Lemma explicitTargets_firstOccurrences g size :
  ∀ cells seen,
    explicitTargets g size seen cells
    = firstOccurrences seen (List.filter (validTrigger g size) cells).
Proof.
  induction cells as [|[r c] rest IH]; intros seen; [reflexivity|].
  cbn [explicitTargets List.filter]. unfold validTrigger at 1. cbn [row col].
  destruct ((r <? 0) || (c <? 0))%bool; cbn [negb andb]; [apply IH|].
  destruct ((rows size <=? r) || (cols size <=? c))%bool; cbn [negb andb];
    [apply IH|].
  destruct (bool_decide (gridCell g r c = Some BONUS_TRIGGER_SYMBOL));
    cbn [negb]; [|apply IH].
  cbn [firstOccurrences].
  destruct (bool_decide (cellKey {| row := r; col := c |} ∈ seen)); [apply IH|].
  f_equal. apply IH.
Qed.

Lemma take_min_length {A : Type} (n : nat) (l : list A) :
  take (Nat.min n (length l)) l = take n l.
Proof.
  destruct (Nat.le_ge_cases n (length l)) as [Hle|Hge].
  - rewrite Nat.min_l by exact Hle. reflexivity.
  - rewrite Nat.min_r by exact Hge.
    rewrite firstn_all. symmetry. apply take_ge. exact Hge.
Qed.

(** The example of the specification: no [triggerCells], two trigger
    symbols on the board, a trigger count of three. *)
Example highlight_two_of_three :
  highlightTargets sampleGrid sampleSize 3 None = [mkCell 1 1; mkCell 2 3].
Proof. reflexivity. Qed.

Lemma highlightTargets_eq_distinct g size count cells :
  highlightTargets g size count cells
  = distinctHighlightTargets g size count cells.
Proof.
  unfold highlightTargets, distinctHighlightTargets.
  rewrite explicitTargets_firstOccurrences.
  destruct (take _ (firstOccurrences _ _)); [|reflexivity].
  apply take_min_length.
Qed.




Lemma firstOccurrences_NoDup :
  ∀ cells seen,
    NoDup (cellKey <$> cells) →
    (∀ cell, cell ∈ cells → cellKey cell ∉ seen) →
    firstOccurrences seen cells = cells.
Proof.
  induction cells as [|cell rest IH]; intros seen Hnd Hseen; [reflexivity|].
  cbn [firstOccurrences]. rewrite fmap_cons in Hnd.
  apply NoDup_cons in Hnd as [Hnotin Hnd].
  rewrite bool_decide_eq_false_2 by (apply Hseen; left).
  f_equal. apply IH; [exact Hnd|].
  intros other Hin Hkey. apply elem_of_cons in Hkey as [Heq|Hkey].
  - apply Hnotin. rewrite <- Heq. apply list_elem_of_fmap. eauto.
  - apply (Hseen other); [right; exact Hin | exact Hkey].
Qed.

Lemma filter_keys_NoDup (f : CellRef → bool) :
  ∀ cells, NoDup (cellKey <$> cells) → NoDup (cellKey <$> List.filter f cells).
Proof.
  induction cells as [|cell rest IH]; intros Hnd; [exact Hnd|].
  rewrite fmap_cons in Hnd. apply NoDup_cons in Hnd as [Hnotin Hnd].
  cbn [List.filter]. destruct (f cell); [|apply IH; exact Hnd].
  rewrite fmap_cons. apply NoDup_cons. split; [|apply IH; exact Hnd].
  intros Hin. apply Hnotin.
  apply list_elem_of_fmap in Hin as (other & Heq & Hin).
  apply list_elem_of_fmap. exists other. split; [exact Heq|].
  apply list_elem_of_In. apply list_elem_of_In in Hin.
  apply filter_In in Hin. tauto.
Qed.

(** With a trigger count from one to three and no cell listed twice, the
    selection is the one the specification words. *)
Lemma highlightTargets_spec_when_distinct :
  ∀ (g : Grid) (size : GridSize) (count : Z) (cells : option (list CellRef)),
    1 ≤ count ≤ 3 →
    NoDup (cellKey <$> default [] cells) →
    highlightTargets g size count cells = specHighlightTargets g size count cells.
Proof.
  intros g size count cells Hcount Hnd.
  rewrite highlightTargets_eq_distinct.
  unfold distinctHighlightTargets, specHighlightTargets.
  rewrite firstOccurrences_NoDup.
  - replace (requestedCount count) with count; [reflexivity|].
    unfold requestedCount, BONUS_HIGHLIGHT_LIMIT.
    destruct (count =? 0) eqn:H0; lia.
  - apply filter_keys_NoDup. exact Hnd.
  - intros cell _. apply not_elem_of_nil.
Qed.

(** ** The metrics resolver *)

Lemma clamp_bounds (x : Q) : (20 <= Qmin 72 (Qmax 20 x) <= 72)%Q.
Proof.
  unfold Qmin, Qmax.
  destruct (Qlt_le_dec 20 x); destruct (Qlt_le_dec _ 72); lra.
Qed.

Lemma Qmin_le_l (a b : Q) : (Qmin a b <= a)%Q.
Proof. unfold Qmin. destruct (Qlt_le_dec b a); lra. Qed.

Lemma Qmin_le_r (a b : Q) : (Qmin a b <= b)%Q.
Proof. unfold Qmin. destruct (Qlt_le_dec b a); lra. Qed.

Lemma Qmax_le (a b c : Q) : (a <= c → b <= c → Qmax a b <= c)%Q.
Proof. unfold Qmax. destruct (Qlt_le_dec a b); lra. Qed.

Lemma Qmax_ge_l (a b : Q) : (a <= Qmax a b)%Q.
Proof. unfold Qmax. destruct (Qlt_le_dec a b); lra. Qed.

Lemma Qmax_ge_r (a b : Q) : (b <= Qmax a b)%Q.
Proof. unfold Qmax. destruct (Qlt_le_dec a b); lra. Qed.

Lemma Math_round_integer (x : Q) (n : Z) : (x == inject_Z n)%Q → Math_round x = n.
Proof.
  intros Hx. unfold Math_round.
  assert (Hfl : (inject_Z n <= x + (1 # 2))%Q) by lra.
  assert (Hlt : (x + (1 # 2) < inject_Z (n + 1))%Q).
  { rewrite inject_Z_plus. change (inject_Z 1) with 1%Q. lra. }
  pose proof (Qfloor_le (x + (1 # 2))) as Hle.
  pose proof (Qlt_floor (x + (1 # 2))) as Hgt.
  assert (H1 : (inject_Z (Qfloor (x + (1 # 2))) < inject_Z (n + 1))%Q) by lra.
  assert (H2 : (inject_Z n < inject_Z (Qfloor (x + (1 # 2)) + 1))%Q) by lra.
  rewrite <- Zlt_Qlt in H1, H2. lia.
Qed.

Lemma inject_Z_range (x n : Z) :
  0 ≤ x < n → (0 <= inject_Z x ∧ inject_Z x <= inject_Z n - 1)%Q.
Proof.
  intros Hx.
  assert (H0 : 0 ≤ x) by lia. rewrite Zle_Qle in H0.
  assert (H1 : x ≤ n + -1) by lia. rewrite Zle_Qle in H1.
  rewrite inject_Z_plus in H1.
  change (inject_Z 0) with 0%Q in H0. change (inject_Z (-1)) with (-1)%Q in H1.
  lra.
Qed.

(** A board laid out on a canvas exactly as wide and as high as
    [computeMetrics] makes it: every cell lies inside the canvas. *)
Lemma cells_inside_canvas (m : BoardMetrics) (nrows ncols r c : Z) :
  gap m = 2%Q → offsetY m = 32%Q →
  padding m = 8%Q ∨ padding m = 12%Q →
  (20 <= cellSize m)%Q →
  (width m
   == padding m * 2 + inject_Z ncols * cellSize m + gap m * (inject_Z ncols - 1))%Q →
  (height m
   == offsetY m + inject_Z nrows * cellSize m + gap m * (inject_Z nrows - 1)
      + padding m)%Q →
  0 ≤ r < nrows → 0 ≤ c < ncols →
  (0 <= (getCellPosition m (getBoardOffsets m nrows ncols (width m) (height m)) r c).1
   ∧ (getCellPosition m (getBoardOffsets m nrows ncols (width m) (height m)) r c).1
     + cellSize m <= width m
   ∧ 0 <= (getCellPosition m (getBoardOffsets m nrows ncols (width m) (height m)) r c).2
   ∧ (getCellPosition m (getBoardOffsets m nrows ncols (width m) (height m)) r c).2
     + cellSize m <= height m)%Q.
Proof.
  destruct m as [cs gp oy pad wd ht mr mc].
  cbn [gap offsetY padding cellSize width height].
  intros -> -> Hpad Hcs Hwidth Hheight Hr Hc.
  set (offsets := getBoardOffsets _ nrows ncols wd ht).
  apply inject_Z_range in Hr, Hc.
  set (qr := inject_Z r) in *. set (qc := inject_Z c) in *.
  set (qrows := inject_Z nrows) in *. set (qcols := inject_Z ncols) in *.
  assert (Hpc : (0 <= qc * (cs + 2))%Q) by (apply Qmult_le_0_compat; lra).
  assert (Hpr : (0 <= qr * (cs + 2))%Q) by (apply Qmult_le_0_compat; lra).
  assert (Hpc' : (0 <= (qcols - 1 - qc) * (cs + 2))%Q)
    by (apply Qmult_le_0_compat; lra).
  assert (Hpr' : (0 <= (qrows - 1 - qr) * (cs + 2))%Q)
    by (apply Qmult_le_0_compat; lra).
  assert (HoX : (offsetX offsets == pad)%Q).
  { unfold offsets, getBoardOffsets. cbn [offsetX cellSize gap]. fold qcols.
    destruct Hpad as [->| ->].
    - rewrite (Math_round_integer _ 8); [reflexivity|].
      rewrite Hwidth. change (inject_Z 8) with 8%Q. field.
    - rewrite (Math_round_integer _ 12); [reflexivity|].
      rewrite Hwidth. change (inject_Z 12) with 12%Q. field. }
  assert (HoY : (offsetTop offsets == 32)%Q).
  { unfold offsets, getBoardOffsets. cbn [offsetTop cellSize gap offsetY]. fold qrows.
    destruct Hpad as [->| ->].
    - rewrite (Math_round_integer _ 20); [reflexivity|].
      rewrite Hheight. change (inject_Z 20) with 20%Q. field.
    - rewrite (Math_round_integer _ 22); [reflexivity|].
      rewrite Hheight. change (inject_Z 22) with 22%Q. field. }
  unfold getCellPosition. cbn [fst snd cellSize gap width height].
  fold qc qr. rewrite HoX, HoY, Hwidth, Hheight.
  destruct Hpad as [->| ->]; repeat split; lra.
Qed.

(** C8.  For a container of positive width and height, whatever the
    board shape picked: the board has at least one row and one column; the
    cell size is the smaller of the width-constrained and the
    height-constrained size brought into the range from 20 to 72; the
    canvas is as wide as the padding on both sides, the columns and their
    gaps, and as high as the header offset, the rows, their gaps and the
    padding; and every cell of the board, placed by [getBoardOffsets] and
    [getCellPosition] on a canvas of that size, lies inside the canvas. *)
Theorem computeMetrics_board_fits :
  ∀ (play : option PlayOutcome) (w h : Q) (mode : option GameMode)
    (previewSize : option GridSize),
    (0 < w)%Q → (0 < h)%Q →
    let m := computeMetrics play w (Some h) mode previewSize in
    let size := pickBoardSize play mode previewSize in
    let nrows := inject_Z (mrows m) in
    let ncols := inject_Z (mcols m) in
    mrows m = Z.max 1 (rows size) ∧ mcols m = Z.max 1 (cols size)
    ∧ (cellSize m
       == Qmin 72 (Qmax 20 (Qmin (widthConstrainedCell w (mcols m))
                                 (heightConstrainedCell w h (mrows m)))))%Q
    ∧ (20 <= cellSize m <= 72)%Q
    ∧ (width m == padding m * 2 + ncols * cellSize m + gap m * (ncols - 1))%Q
    ∧ (height m
       == offsetY m + nrows * cellSize m + gap m * (nrows - 1) + padding m)%Q
    ∧ ∀ r c : Z,
        0 ≤ r < mrows m → 0 ≤ c < mcols m →
        let offsets := getBoardOffsets m (mrows m) (mcols m) (width m) (height m) in
        let xy := getCellPosition m offsets r c in
        (0 <= xy.1 ∧ xy.1 + cellSize m <= width m
         ∧ 0 <= xy.2 ∧ xy.2 + cellSize m <= height m)%Q.
Proof.
  intros play w h mode previewSize Hw Hh m size nrows ncols.
  split; [reflexivity|]. split; [reflexivity|].
  split.
  { unfold m, computeMetrics, widthConstrainedCell, heightConstrainedCell,
      paddingFor. cbn [cellSize mcols mrows width height DEFAULT_METRICS].
    fold size.
    destruct (Qlt_le_dec 0 w) as [_|Hbad]; [|lra].
    destruct (Qlt_le_dec 0 h) as [_|Hbad]; [|lra].
    replace (0 <? Z.max 1 (cols size)) with true by (symmetry; apply Z.ltb_lt; lia).
    replace (0 <? Z.max 1 (rows size)) with true by (symmetry; apply Z.ltb_lt; lia).
    reflexivity. }
  split; [apply clamp_bounds|].
  assert (Hwidth :
    (width m == padding m * 2 + ncols * cellSize m + gap m * (ncols - 1))%Q).
  { unfold ncols, m, computeMetrics.
    cbn [width padding cellSize gap mcols]. apply Qeq_refl. }
  assert (Hheight :
    (height m
     == offsetY m + nrows * cellSize m + gap m * (nrows - 1) + padding m)%Q).
  { unfold nrows, m, computeMetrics.
    cbn [height padding cellSize gap mrows offsetY]. apply Qeq_refl. }
  split; [exact Hwidth|]. split; [exact Hheight|].
  intros r c Hr Hc offsets xy.
  apply (cells_inside_canvas m (mrows m) (mcols m) r c).
  - unfold m, computeMetrics. cbn [gap]. apply eq_refl.
  - unfold m, computeMetrics. cbn [offsetY]. apply eq_refl.
  - unfold m, computeMetrics. cbn [padding]. destruct (Qlt_le_dec _ 640); auto.
  - apply clamp_bounds.
  - exact Hwidth.
  - exact Hheight.
  - exact Hr.
  - exact Hc.
Qed.

Lemma computeMetrics_board_fits_witness :
  (0 < 100)%Q ∧ (0 < 400)%Q
  ∧ (20 <= cellSize (computeMetrics None 100 (Some 400%Q) (Some nivel1) None)
     <= 72)%Q.
Proof.
  split; [reflexivity|]. split; [reflexivity|].
  exact (proj1 (proj2 (proj2 (proj2
    (computeMetrics_board_fits None 100 400 (Some nivel1) None
       eq_refl eq_refl))))).
Defined.

(** The smaller of the two constrained sizes is what makes the canvas fit
    the container: when neither usable length is below its floor of 120
    and the smaller constrained size is at least the minimum cell size,
    the canvas is no wider and no higher than the container. *)
Lemma computeMetrics_fits_container :
  ∀ (play : option PlayOutcome) (w h : Q) (mode : option GameMode)
    (previewSize : option GridSize),
    (0 < w)%Q → (0 < h)%Q →
    let m := computeMetrics play w (Some h) mode previewSize in
    let ncols := inject_Z (mcols m) in
    let nrows := inject_Z (mrows m) in
    (120 <= w - paddingFor w * 2 - 2 * (ncols - 1))%Q →
    (120 <= h - 32 - paddingFor w * 2 - 2 * (nrows - 1))%Q →
    (20 <= Qmin (widthConstrainedCell w (mcols m))
                (heightConstrainedCell w h (mrows m)))%Q →
    (width m <= w ∧ height m <= h)%Q.
Proof.
  intros play w h mode previewSize Hw Hh m ncols nrows HuW HuH Hraw.
  set (size := pickBoardSize play mode previewSize).
  assert (Hcols : (1 <= ncols)%Q).
  { unfold ncols. change 1%Q with (inject_Z 1). rewrite <- Zle_Qle.
    unfold m, computeMetrics. cbn [mcols]. lia. }
  assert (Hrows : (1 <= nrows)%Q).
  { unfold nrows. change 1%Q with (inject_Z 1). rewrite <- Zle_Qle.
    unfold m, computeMetrics. cbn [mrows]. lia. }
  assert (Hcell : (cellSize m
       == Qmin 72 (Qmax 20 (Qmin (widthConstrainedCell w (mcols m))
                                 (heightConstrainedCell w h (mrows m)))))%Q).
  { unfold m, computeMetrics, widthConstrainedCell, heightConstrainedCell,
      paddingFor. cbn [cellSize mcols mrows width height DEFAULT_METRICS].
    fold size.
    destruct (Qlt_le_dec 0 w) as [_|Hbad]; [|lra].
    destruct (Qlt_le_dec 0 h) as [_|Hbad]; [|lra].
    replace (0 <? Z.max 1 (cols size)) with true by (symmetry; apply Z.ltb_lt; lia).
    replace (0 <? Z.max 1 (rows size)) with true by (symmetry; apply Z.ltb_lt; lia).
    reflexivity. }
  assert (Hpad : padding m = paddingFor w).
  { unfold m, computeMetrics, paddingFor. cbn [padding].
    destruct (Qlt_le_dec 0 w) as [_|Hbad]; [reflexivity|lra]. }
  assert (Hpad0 : (0 <= paddingFor w)%Q).
  { unfold paddingFor. destruct (Qlt_le_dec w 640); lra. }
  set (raw := Qmin (widthConstrainedCell w (mcols m))
                   (heightConstrainedCell w h (mrows m))) in *.
  assert (Hle : (cellSize m <= raw)%Q).
  { rewrite Hcell. unfold Qmin at 1, Qmax.
    destruct (Qlt_le_dec 20 raw); destruct (Qlt_le_dec _ 72); lra. }
  assert (HleW : (cellSize m <= widthConstrainedCell w (mcols m))%Q).
  { eapply Qle_trans; [exact Hle | apply Qmin_le_l]. }
  assert (HleH : (cellSize m <= heightConstrainedCell w h (mrows m))%Q).
  { eapply Qle_trans; [exact Hle | apply Qmin_le_r]. }
  unfold widthConstrainedCell in HleW. unfold heightConstrainedCell in HleH.
  fold ncols in HleW. fold nrows in HleH.
  assert (HmaxW : (Qmax 120 (w - paddingFor w * 2 - 2 * (ncols - 1))
                   == w - paddingFor w * 2 - 2 * (ncols - 1))%Q).
  { unfold Qmax. destruct (Qlt_le_dec 120 _); [reflexivity | lra]. }
  assert (HmaxH : (Qmax 120 (h - 32 - paddingFor w * 2 - 2 * (nrows - 1))
                   == h - 32 - paddingFor w * 2 - 2 * (nrows - 1))%Q).
  { unfold Qmax. destruct (Qlt_le_dec 120 _); [reflexivity | lra]. }
  rewrite HmaxW in HleW. rewrite HmaxH in HleH.
  apply (Qmult_le_compat_r _ _ ncols) in HleW; [|lra].
  apply (Qmult_le_compat_r _ _ nrows) in HleH; [|lra].
  assert (HeqW : ((w - paddingFor w * 2 - 2 * (ncols - 1)) / ncols * ncols
                  == w - paddingFor w * 2 - 2 * (ncols - 1))%Q) by (field; lra).
  assert (HeqH : ((h - 32 - paddingFor w * 2 - 2 * (nrows - 1)) / nrows * nrows
                  == h - 32 - paddingFor w * 2 - 2 * (nrows - 1))%Q) by (field; lra).
  rewrite HeqW in HleW. rewrite HeqH in HleH.
  assert (Hwidth :
    (width m == padding m * 2 + ncols * cellSize m + gap m * (ncols - 1))%Q).
  { unfold ncols, m, computeMetrics.
    cbn [width padding cellSize gap mcols]. apply Qeq_refl. }
  assert (Hheight :
    (height m
     == offsetY m + nrows * cellSize m + gap m * (nrows - 1) + padding m)%Q).
  { unfold nrows, m, computeMetrics.
    cbn [height padding cellSize gap mrows offsetY]. apply Qeq_refl. }
  assert (Hgap : gap m = 2%Q) by (unfold m, computeMetrics; cbn [gap]; apply eq_refl).
  assert (HoffY : offsetY m = 32%Q)
    by (unfold m, computeMetrics; cbn [offsetY]; apply eq_refl).
  rewrite Hwidth, Hheight, Hgap, HoffY, Hpad.
  set (cs := cellSize m) in *. split; lra.
Qed.

(** A container too small for the minimum cell size: the canvas is wider
    than the container, and still encloses the board. *)
Example small_container_canvas :
  let m := computeMetrics None 100 (Some 400%Q) (Some nivel1) None in
  (cellSize m == 24)%Q ∧ (width m == 144)%Q ∧ (height m == 116)%Q.
Proof. repeat split; vm_compute; reflexivity. Qed.

(** ** Normalised grids *)

Lemma normalizeGrid_length g rows cols : length (normalizeGrid g rows cols) = rows.
Proof. unfold normalizeGrid. rewrite length_fmap, length_seq. reflexivity. Qed.

Lemma normalizeGrid_row g rows cols r :
  (r < rows)%nat →
  normalizeGrid g rows cols !! r = Some (cellAt g r <$> seq 0 cols).
Proof.
  intros Hr. unfold normalizeGrid. rewrite list_lookup_fmap.
  rewrite lookup_seq_lt by exact Hr. reflexivity.
Qed.


Lemma normalizeGrid_cell g rows cols r c :
  (r < rows)%nat → (c < cols)%nat →
  cellAt (normalizeGrid g rows cols) r c = cellAt g r c.
Proof.
  intros Hr Hc. unfold cellAt at 1. rewrite normalizeGrid_row by exact Hr.
  cbn [mbind option_bind]. rewrite list_lookup_fmap.
  rewrite lookup_seq_lt by exact Hc. reflexivity.
Qed.

Lemma normalizeGrid_idem g rows cols :
  normalizeGrid (normalizeGrid g rows cols) rows cols = normalizeGrid g rows cols.
Proof.
  unfold normalizeGrid at 1 3.
  apply list_fmap_ext. intros i r Hr. apply lookup_seq in Hr as [-> Hr].
  apply list_fmap_ext. intros j c Hc. apply lookup_seq in Hc as [-> Hc].
  apply normalizeGrid_cell; lia.
Qed.

(** Reading a normalised grid inside the board never fails. *)
Lemma strictCell_normalizeGrid g rows cols r c :
  (r < rows)%nat →
  strictCell (normalizeGrid g rows cols) r c
  = Some (default ""%string ((cellAt g r <$> seq 0 cols) !! c)).
Proof.
  intros Hr. unfold strictCell. rewrite normalizeGrid_row by exact Hr. reflexivity.
Qed.

Lemma elem_of_boardCells rows cols rc :
  rc ∈ boardCells rows cols ↔ (rc.1 < rows)%nat ∧ (rc.2 < cols)%nat.
Proof.
  unfold boardCells. rewrite list_elem_of_bind. split.
  - intros (r & Hin & Hr). apply list_elem_of_fmap in Hin as (c & -> & Hc).
    apply elem_of_seq in Hr, Hc. cbn. lia.
  - intros [Hr Hc]. exists rc.1. split.
    + apply list_elem_of_fmap. exists rc.2. split; [destruct rc; reflexivity|].
      apply elem_of_seq. lia.
    + apply elem_of_seq. lia.
Qed.

(** ** The step sequencer *)

#[local] Arguments normalizeGrid : simpl never.
#[local] Arguments highlightTargets : simpl never.
#[local] Arguments playMatchContour : simpl never.
#[local] Arguments replaceCells : simpl never.
#[local] Arguments dropCells : simpl never.
#[local] Arguments removeSetOf : simpl never.
#[local] Arguments explosionSparks : simpl never.
#[local] Arguments Z.add : simpl never.
#[local] Arguments Z.mul : simpl never.
#[local] Arguments Z.max : simpl never.
#[local] Arguments Z.min : simpl never.





Lemma core_delayedCall delay cb s :
  core (delayedCall delay cb s)
  = mkCore (grid s) (boardSize s) (currentPlay s) (accumulatedWin s)
           (corePending (core s) ++ [cb]) (emitted s).
Proof. destruct s. unfold core. cbn. rewrite fmap_app. reflexivity. Qed.






Lemma core_applyStep env st i n k s g :
  grid s = Some g →
  core (applyStep env st i n k s)
  = mkCore (Some (normalizeGrid (default g (gridAfter st))
                    (Z.to_nat (rows (boardSize s))) (Z.to_nat (cols (boardSize s)))))
           (boardSize s) (currentPlay s) (accumulatedWin s)
           (corePending (core s) ++ [Invoke k]) (emitted s).
Proof.
  intros Hgrid. unfold applyStep. rewrite Hgrid.
  destruct (getFillMode env) as [[| |]|]; rewrite core_delayedCall;
    destruct s; reflexivity.
Qed.


(** Reading the scene through its core. *)
Ltac through_core s :=
  change (grid s) with (coreGrid (core s));
  change (boardSize s) with (coreSize (core s));
  change (currentPlay s) with (corePlay (core s));
  change (accumulatedWin s) with (coreWin (core s));
  change (emitted s) with (coreEmitted (core s)).




Lemma core_eq_fields s c :
  core s = c →
  grid s = coreGrid c ∧ boardSize s = coreSize c ∧ currentPlay s = corePlay c
  ∧ accumulatedWin s = coreWin c ∧ emitted s = coreEmitted c
  ∧ corePending (core s) = corePending c ∧ coreId (core s) = coreId c.
Proof. intros <-. repeat split. Qed.


Ltac fields H :=
  let Hg := fresh "Hgrid" in
  let Hb := fresh "Hsize" in
  let Hp := fresh "Hplay" in
  let Hw := fresh "Hwin" in
  let He := fresh "Hemitted" in
  let Hc := fresh "Hpending" in
  let Hi := fresh "Hid" in
  destruct (core_eq_fields _ _ H) as (Hg & Hb & Hp & Hw & He & Hc & Hi);
  cbn [coreGrid coreSize corePlay coreWin coreEmitted corePending] in Hg, Hb, Hp, Hw, He, Hc;
  unfold coreId in Hi at 2; cbn [corePlay] in Hi.










(** ** Submitting a play and clearing the board *)

Lemma drawGrid_normalized g0 s R C :
  boardSize s = {| rows := R; cols := C |} → 1 ≤ R → 1 ≤ C →
  ∃ cm n,
    drawGrid (normalizeGrid g0 (Z.to_nat R) (Z.to_nat C)) s
    = Some (setCellMap cm n
              (setBoardSize {| rows := R; cols := C |}
                 (setGrid (Some (normalizeGrid g0 (Z.to_nat R) (Z.to_nat C))) s))).
Proof.
  intros Hsize HR HC. unfold drawGrid. rewrite Hsize. cbn [rows cols].
  rewrite !Z.max_r by lia. rewrite normalizeGrid_idem.
  set (f := fun rc : nat * nat => _).
  destruct (mapM f (boardCells (Z.to_nat R) (Z.to_nat C))) as [drawn|] eqn:Hdrawn.
  - cbn [mbind option_bind]. eexists _, _. reflexivity.
  - exfalso. apply eq_None_not_Some in Hdrawn. apply Hdrawn.
    apply mapM_is_Some. apply Forall_forall. intros rc Hin.
    apply elem_of_boardCells in Hin as [Hr Hc].
    unfold f, compose. rewrite strictCell_normalizeGrid by exact Hr.
    cbn [mbind option_bind]. eexists. reflexivity.
Qed.

Lemma core_playBoardIntro env s : core (playBoardIntro env s).2 = core s.
Proof.
  unfold playBoardIntro.
  destruct (map_to_list (cellMap s)).*1; [reflexivity|].
  destruct (getFillMode env) as [[| |]|]; destruct s; reflexivity.
Qed.

Lemma shapeFor_positive env play :
  1 ≤ rows (shapeFor env play) ∧ 1 ≤ cols (shapeFor env play).
Proof. unfold shapeFor. cbn [rows cols]. lia. Qed.

Lemma renderPlay_core env play s :
  ∃ s1,
    renderPlay env play s = Some s1
    ∧ core s1
      = mkCore (Some (normalizeGrid (grid0 play)
                        (Z.to_nat (rows (shapeFor env (Some play))))
                        (Z.to_nat (cols (shapeFor env (Some play))))))
               (shapeFor env (Some play)) (Some play) 0 [RunStep play 0]
               (emitted s).
Proof.
  unfold renderPlay. cbv zeta.
  set (shape := {| rows := Z.max 1 _; cols := Z.max 1 _ |}).
  change shape with (shapeFor env (Some play)) in *. clear shape.
  set (shape := shapeFor env (Some play)).
  set (s2 := setBoardSize shape _).
  assert (Hs2 : boardSize s2 = {| rows := rows shape; cols := cols shape |})
    by (destruct s; reflexivity).
  replace (boardSize s2) with shape by (destruct s; reflexivity).
  destruct (shapeFor_positive env (Some play)) as [HR HC]. fold shape in HR, HC.
  destruct (drawGrid_normalized (grid0 play) (setGrid
              (Some (normalizeGrid (grid0 play) (Z.to_nat (rows shape))
                                   (Z.to_nat (cols shape)))) s2)
              (rows shape) (cols shape)) as (cm & n & ->);
    [destruct s; reflexivity | exact HR | exact HC |].
  cbn [mbind option_bind].
  set (s3 := setCellMap cm n _).
  pose proof (core_playBoardIntro env s3) as Hintro.
  destruct (playBoardIntro env s3) as [introDuration s4]. cbn [snd] in Hintro.
  eexists. split; [reflexivity|].
  rewrite core_delayedCall. through_core s4. rewrite Hintro.
  destruct s, shape. reflexivity.
Qed.

Lemma clearBoard_core env s :
  ∃ s1,
    clearBoard env s = Some s1
    ∧ core s1
      = mkCore (Some (normalizeGrid [] (Z.to_nat (rows (shapeFor env None)))
                                    (Z.to_nat (cols (shapeFor env None)))))
               (shapeFor env None) None 0 [] (emitted s).
Proof.
  unfold clearBoard. cbv zeta.
  set (shape := {| rows := Z.max 1 _; cols := Z.max 1 _ |}).
  change shape with (shapeFor env None) in *. clear shape.
  set (shape := shapeFor env None).
  set (s2 := setBoardSize shape _).
  replace (boardSize s2) with shape by (destruct s; reflexivity).
  destruct (shapeFor_positive env None) as [HR HC]. fold shape in HR, HC.
  destruct (drawGrid_normalized [] (setGrid
              (Some (normalizeGrid [] (Z.to_nat (rows shape))
                                   (Z.to_nat (cols shape)))) s2)
              (rows shape) (cols shape)) as (cm & n & ->);
    [destruct s; reflexivity | exact HR | exact HC |].
  eexists. split; [reflexivity|].
  destruct s, shape. reflexivity.
Qed.

(** ** A whole play *)





(** ** What a play emits *)














(** The sparks of an explosion do depend on the random source. *)
Example sparks_depend_on_random :
  explosionSparks sampleRandom 1 70 ≠ explosionSparks otherRandom 1 70.
Proof. vm_compute. discriminate. Qed.

(** The sample play run with two random sources, in the fill mode
    [cascade]: the sparks drawn differ, the notifications do not. *)
Example random_changes_sparks_only :
  let envA := sampleEnv (Some cascade) in
  let envB := mkEnv None None (Some cascade) otherRandom in
  let final env :=
    from_option (run env (fuelFor samplePlay)) emptyScene
                (renderPlay env samplePlay emptyScene) in
  sparks (final envA) ≠ sparks (final envB)
  ∧ emitted (final envA) = emitted (final envB)
  ∧ length (sparks (final envA)) = 112%nat.
Proof. vm_compute. repeat split. discriminate. Qed.

(** In the fill mode [rodillo] the strips of the reels are random too. *)
Example random_changes_reels :
  let reels random :=
    Reel.strip <$> Reel.columnStates (Reel.init random 0 sampleGrid [] 3 5 0) in
  reels sampleRandom ≠ reels otherRandom.
Proof. vm_compute. discriminate. Qed.


(** ** Cancelling a run *)

Lemma callback_addEvents s L :
  Live.callback <$> Live.pendingInsertion (Live.addEvents s L)
  = (Live.callback <$> Live.pendingInsertion L) ++ (snd <$> clock s).
Proof.
  unfold Live.addEvents. cbn [Live.pendingInsertion].
  rewrite fmap_app. f_equal.
  generalize (Live.nextIdent L) as n. generalize (time s) as t.
  induction (clock s) as [|ev evs IH]; intros t n; [reflexivity|].
  cbn [imap fmap list_fmap Live.callback]. f_equal.
  rewrite <- (IH t (S n)). f_equal. apply imap_ext. intros i x _. cbn.
  f_equal. lia.
Qed.

(** What [render-play] does on the clock of the library: the active
    events are put on the list pending removal, the events pending
    insertion stay, and the first [runStep] of the new play joins them. *)
Lemma live_renderPlay env play L :
  ∃ L',
    Live.renderPlay env play L = Some L'
    ∧ Live.callback <$> Live.pendingInsertion L'
      = (Live.callback <$> Live.pendingInsertion L) ++ [RunStep play 0]
    ∧ Live.active L' = Live.active L
    ∧ Live.pendingRemoval L'
      = Live.pendingRemoval L ++ (Live.ident <$> Live.active L)
    ∧ grid (Live.scene L')
      = Some (normalizeGrid (grid0 play)
                (Z.to_nat (rows (shapeFor env (Some play))))
                (Z.to_nat (cols (shapeFor env (Some play)))))
    ∧ emitted (Live.scene L') = emitted (Live.scene L).
Proof.
  unfold Live.renderPlay. cbv zeta.
  destruct (renderPlay_core env play (Live.scene (Live.removeAllEvents L)))
    as (s1 & Hrender & Hcore).
  rewrite Hrender. cbn [mbind option_bind]. fields Hcore.
  eexists. split; [reflexivity|].
  split; [rewrite callback_addEvents;
          change (snd <$> clock s1) with (corePending (core s1));
          rewrite Hpending; reflexivity|].
  split; [reflexivity|]. split; [reflexivity|].
  split; [|destruct s1; exact Hemitted].
  destruct s1; exact Hgrid.
Qed.

(** C4.  On the clock of the library, a [render-play] takes no event
    that is pending insertion off the clock, whatever the scene is doing:
    the callbacks pending insertion before the call are pending insertion
    after it, before the first [runStep] of the new play; only the active
    events are put on the list pending removal.  The grid is at once the
    [grid0] of the new play, normalised.  So, in the fill mode [replace]:
    the sample play [p1] is submitted to a new scene and, after the 59th
    frame of 16 ms, in which its first [runStep] ran and put the start of
    the removal on the clock, the play [p0], which has no step, is
    submitted.  The superseded run goes on: after the call the scene emits
    the wins and the second step event of [p1] under the id of [p0], and
    the completion of [p1], besides the completion of [p0].  Clearing the
    board at that moment does not stop the completion of [p1] either, and
    two plays submitted before the first frame both run.  Submitted one
    frame later, [p0] does supersede the run. *)
Theorem submit_leaves_pending_callbacks_alive :
  (∀ (env : Env) (play : PlayOutcome) (L : Live.State),
     ∃ L',
       Live.renderPlay env play L = Some L'
       ∧ Live.callback <$> Live.pendingInsertion L'
         = (Live.callback <$> Live.pendingInsertion L) ++ [RunStep play 0]
       ∧ Live.pendingRemoval L'
         = Live.pendingRemoval L ++ (Live.ident <$> Live.active L)
       ∧ grid (Live.scene L')
         = Some (normalizeGrid (grid0 play)
                   (Z.to_nat (rows (shapeFor env (Some play))))
                   (Z.to_nat (cols (shapeFor env (Some play))))))
  ∧ Live.emittedAfter (sampleEnv (Some replace)) []
      (interrupted (Some replace) 59 (Some quietPlay))
    = Some [CascadeStepEvent "p1" 1 2]
  ∧ (Live.callback <$>
       default [] (Live.pendingInsertion
                     <$> interrupted (Some replace) 59 (Some quietPlay)))
    = [StartRemoval firstStep 0 2 (AfterStep samplePlay 0); RunStep quietPlay 0]
  ∧ Live.emittedAfter (sampleEnv (Some replace)) (replicate 400 16)
      (interrupted (Some replace) 59 (Some quietPlay))
    = Some [CascadeStepEvent "p1" 1 2; WinIncrement "p0" 10;
            CascadeCompleted "p0" 0; CascadeStepEvent "p0" 2 2;
            WinIncrement "p0" 25; CascadeCompleted "p1" 2]
  ∧ Live.emittedAfter (sampleEnv (Some replace)) (replicate 400 16)
      (interrupted (Some replace) 59 None)
    = Some [CascadeStepEvent "p1" 1 2; CascadeCompleted "p1" 2]
  ∧ Live.emittedAfter (sampleEnv (Some replace)) (replicate 400 16)
      (interrupted (Some replace) 0 (Some quietPlay))
    = Some [CascadeStepEvent "p0" 1 2; CascadeCompleted "p0" 0;
            WinIncrement "p0" 10; CascadeStepEvent "p0" 2 2;
            WinIncrement "p0" 25; CascadeCompleted "p1" 2]
  ∧ Live.emittedAfter (sampleEnv (Some replace)) (replicate 400 16)
      (interrupted (Some replace) 60 (Some quietPlay))
    = Some [CascadeStepEvent "p1" 1 2; CascadeCompleted "p0" 0].
Proof.
  split.
  { intros env play L.
    destruct (live_renderPlay env play L) as (L' & H1 & H2 & _ & H3 & H4 & _).
    exists L'. repeat (split; [assumption|]). exact H4. }
  repeat split; vm_compute; reflexivity.
Qed.

(** ** The grid after a step *)

Lemma normalizeGrid_id g rows cols :
  length g = rows → Forall (fun line => length line = cols) g →
  normalizeGrid g rows cols = g.
Proof.
  intros Hlen Hrows. apply list_eq. intros r.
  destruct (Nat.lt_ge_cases r rows) as [Hr|Hr].
  - rewrite normalizeGrid_row by exact Hr.
    destruct (lookup_lt_is_Some_2 g r ltac:(lia)) as [line Hline].
    rewrite Hline. f_equal.
    assert (Hcols : length line = cols).
    { rewrite Forall_forall in Hrows. apply Hrows.
      apply list_elem_of_lookup. eauto. }
    apply list_eq. intros c. rewrite list_lookup_fmap.
    destruct (Nat.lt_ge_cases c cols) as [Hc|Hc].
    + rewrite lookup_seq_lt by exact Hc. cbn.
      destruct (lookup_lt_is_Some_2 line c ltac:(lia)) as [x Hx].
      unfold cellAt. rewrite Hline. cbn. rewrite Hx. reflexivity.
    + rewrite lookup_seq_ge by exact Hc.
      symmetry. apply lookup_ge_None. lia.
  - rewrite (proj2 (lookup_ge_None _ _)) by (rewrite normalizeGrid_length; lia).
    symmetry. apply lookup_ge_None. lia.
Qed.

Lemma grid_invoke k : ∀ s, grid (invoke k s) = grid s.
Proof.
  induction k as [play idx|st k IH]; intros s; cbn [invoke].
  - destruct s. reflexivity.
  - rewrite IH. destruct (activePlayId s); destruct s; reflexivity.
Qed.

(** C5.  Whatever the fill mode, when a step that carries a [gridAfter]
    has its grid applied, the grid of the scene is that [gridAfter]
    normalised to the board shape, and it still is when the phase
    completes and [onComplete] is called; inside the board the normalised
    grid reads as [gridAfter] does, and it is [gridAfter] itself when
    [gridAfter] has the board shape. *)
Theorem applyStep_grid_is_gridAfter :
  ∀ (env : Env) (st : CascadeStep) (i n : nat) (k : Continuation) (s : Scene)
    (g ga : Grid),
    grid s = Some g → gridAfter st = Some ga →
    let nrows := Z.to_nat (rows (boardSize s)) in
    let ncols := Z.to_nat (cols (boardSize s)) in
    grid (applyStep env st i n k s) = Some (normalizeGrid ga nrows ncols)
    ∧ grid (invoke k (applyStep env st i n k s))
      = Some (normalizeGrid ga nrows ncols)
    ∧ (∀ r c, (r < nrows)%nat → (c < ncols)%nat →
              cellAt (normalizeGrid ga nrows ncols) r c = cellAt ga r c)
    ∧ (length ga = nrows → Forall (fun line => length line = ncols) ga →
       grid (applyStep env st i n k s) = Some ga).
Proof.
  intros env st i n k s g ga Hgrid Hafter nrows ncols.
  assert (Happlied :
    grid (applyStep env st i n k s) = Some (normalizeGrid ga nrows ncols)).
  { change (grid (applyStep env st i n k s))
      with (coreGrid (core (applyStep env st i n k s))).
    rewrite (core_applyStep env st i n k s g Hgrid), Hafter. reflexivity. }
  split; [exact Happlied|].
  split; [rewrite grid_invoke; exact Happlied|].
  split; [intros r c Hr Hc; apply normalizeGrid_cell; assumption|].
  intros Hlen Hrows. rewrite Happlied, normalizeGrid_id by assumption. reflexivity.
Qed.

Lemma applyStep_grid_is_gridAfter_witness :
  let after := [["X"; "B"; "C"; "D"; "E"];
                ["Y"; "N"; "C"; "D"; "E"];
                ["Z"; "B"; "C"; "N"; "E"]]%string in
  grid sampleScene = Some sampleGrid
  ∧ gridAfter firstStep = Some after
  ∧ grid (applyStep (sampleEnv (Some cascade)) firstStep 0 2
            (AfterStep samplePlay 0) sampleScene)
    = Some after.
Proof.
  intros after. split; [reflexivity|]. split; [reflexivity|].
  exact (proj1 (applyStep_grid_is_gridAfter (sampleEnv (Some cascade)) firstStep
                  0 2 (AfterStep samplePlay 0) sampleScene sampleGrid after
                  eq_refl eq_refl)).
Defined.

(** ** Malformed outcomes *)












(** A ragged grid of two rows on the board of three rows and five
    columns: the cells that are missing show the empty symbol. *)
Example normalizeGrid_pads :
  normalizeGrid [["X"; "B"]; ["A"]]%string 3 5
  = [["X"; "B"; ""; ""; ""]; ["A"; ""; ""; ""; ""]; [""; ""; ""; ""; ""]]%string.
Proof. reflexivity. Qed.

(** A grid larger than the board is cut to it. *)
Example normalizeGrid_clamps :
  normalizeGrid sampleGrid 2 3 = [["A"; "B"; "C"]; ["A"; "N"; "C"]]%string.
Proof. reflexivity. Qed.





(** The malformed step on the sample scene, in the fill modes [replace]
    and [cascade]: the grid is padded and the containers are those of the
    step without its out-of-range entries. *)
Example malformed_step_applied :
  grid (applyStep (sampleEnv (Some replace)) malformedStep 0 1
          (AfterStep samplePlay 0) sampleScene)
  = Some [["X"; "B"; ""; ""; ""]; ["A"; ""; ""; ""; ""]; [""; ""; ""; ""; ""]]%string
  ∧ withoutOutOfRange sampleSize malformedStep
    = {| removeCells := [mkCell 0 0]; dropIn := [mkDropIn 0 ["X"%string]];
         winStep := 3; gridAfter := gridAfter malformedStep;
         bonus := None; bonusData := None |}.
Proof. split; reflexivity. Qed.

(** ** The clock *)

Lemma minDue_spec {A : Type} (evs : list (Z * A)) m :
  minDue evs = Some m → ∀ ev, ev ∈ evs → m ≤ ev.1.
Proof.
  revert m. induction evs as [|[t a] rest IH]; intros m Hmin ev Hin.
  - apply elem_of_nil in Hin. contradiction.
  - cbn [minDue] in Hmin. destruct (minDue rest) as [m'|] eqn:Hrest.
    + injection Hmin as <-. apply elem_of_cons in Hin as [->|Hin]; cbn; [lia|].
      specialize (IH m' eq_refl ev Hin). lia.
    + injection Hmin as <-. apply elem_of_cons in Hin as [->|Hin]; cbn; [lia|].
      destruct rest as [|[t' a'] rest']; [apply elem_of_nil in Hin; contradiction|].
      cbn [minDue] in Hrest. destruct (minDue rest'); discriminate.
Qed.

Lemma takeDue_spec {A : Type} t (evs : list (Z * A)) a rest :
  takeDue t evs = Some (a, rest) →
  ∃ pre post,
    evs = pre ++ (t, a) :: post ∧ rest = pre ++ post
    ∧ ∀ ev, ev ∈ pre → ev.1 ≠ t.
Proof.
  revert rest. induction evs as [|[t' a'] evs IH]; intros rest Htake; [discriminate|].
  cbn [takeDue] in Htake. destruct (t' =? t) eqn:Heq.
  - apply Z.eqb_eq in Heq. subst t'. injection Htake as <- <-.
    exists [], evs. repeat split. intros ev Hin. apply elem_of_nil in Hin. contradiction.
  - apply Z.eqb_neq in Heq.
    destruct (takeDue t evs) as [[x rest']|] eqn:Hrec; [|discriminate].
    injection Htake as <- <-.
    destruct (IH rest' eq_refl) as (pre & post & -> & -> & Hpre).
    exists ((t', a') :: pre), post. repeat split.
    intros ev Hin. apply elem_of_cons in Hin as [->|Hin]; [exact Heq | apply Hpre, Hin].
Qed.

(** The event the clock fires is due no later than any other, and
    strictly earlier than those added before it. *)
Lemma popEarliest_spec {A : Type} (evs : list (Z * A)) t a rest :
  popEarliest evs = Some (t, a, rest) →
  ∃ pre post,
    evs = pre ++ (t, a) :: post ∧ rest = pre ++ post
    ∧ (∀ ev, ev ∈ pre → t < ev.1) ∧ (∀ ev, ev ∈ post → t ≤ ev.1).
Proof.
  unfold popEarliest. destruct (minDue evs) as [m|] eqn:Hmin; [|discriminate].
  destruct (takeDue m evs) as [[x rest']|] eqn:Htake; [|discriminate].
  intros Heq. injection Heq as <- <- <-.
  destruct (takeDue_spec m evs x rest' Htake) as (pre & post & Hevs & Hrest & Hpre).
  exists pre, post. repeat split; [exact Hevs | exact Hrest | |].
  - intros ev Hin. pose proof (Hpre ev Hin).
    pose proof (minDue_spec evs m Hmin ev) as Hle.
    rewrite Hevs in Hle. specialize (Hle ltac:(apply elem_of_app; left; exact Hin)). lia.
  - intros ev Hin. apply (minDue_spec evs m Hmin ev).
    rewrite Hevs. apply elem_of_app. right. right. exact Hin.
Qed.

(** ** The reel intro *)

Lemma stopEventsOf_app evs1 evs2 :
  Reel.stopEventsOf (evs1 ++ evs2)
  = Reel.stopEventsOf evs1 ++ Reel.stopEventsOf evs2.
Proof. apply omap_app. Qed.

Lemma stopEventsOf_plan T (l : list nat) :
  Reel.stopEventsOf
    ((fun col => (T + Z.of_nat col * Reel.stopDelay, Reel.StopColumn col)) <$> l)
  = (fun col => (T + Z.of_nat col * Reel.stopDelay, col)) <$> l.
Proof. induction l as [|c l IH]; [reflexivity|]. cbn. f_equal. exact IH. Qed.

Lemma schedule_fold (l : list nat) :
  ∀ s,
    foldl (fun acc col =>
             Reel.delayedCall (Z.of_nat col * Reel.stopDelay) (Reel.StopColumn col) acc)
          s l
    = Reel.setEvents
        (Reel.events s
         ++ ((fun col => (Reel.now s + Z.of_nat col * Reel.stopDelay,
                          Reel.StopColumn col)) <$> l))
        s.
Proof.
  induction l as [|c l IH]; intros s.
  - cbn. rewrite app_nil_r. destruct s; reflexivity.
  - cbn [foldl]. rewrite IH. destruct s. cbn. rewrite <- app_assoc. reflexivity.
Qed.

(** Scheduling the stop sequence when it is not scheduled yet. *)
Lemma scheduleStopSequence_fresh cols s :
  Reel.stopSequenceScheduled s = false →
  Reel.scheduleStopSequence cols s
  = Reel.mkState (Reel.columnStates s) (Reel.lastColumnSpinSteps s) true
      (Reel.events s
       ++ ((fun col => (Reel.now s + Z.of_nat col * Reel.stopDelay,
                        Reel.StopColumn col)) <$> seq 0 cols))
      (Reel.now s) (Reel.stopLog s).
Proof.
  intros Hfresh. unfold Reel.scheduleStopSequence. rewrite Hfresh.
  rewrite schedule_fold. reflexivity.
Qed.

Lemma ticksOfLast_advance rows cols cs i st st' n b evs t log n' b' evs' t' log' :
  cs !! i = Some st →
  Reel.startIndex st' = Reel.startIndex st →
  Reel.stripCursor st' = S (Reel.stripCursor st) →
  (Reel.startIndex st + rows ≤ Reel.stripCursor st)%nat →
  Reel.ticksOfLast rows cols (Reel.mkState (<[i := st']> cs) n' b' evs' t' log')
  = if bool_decide (i = (cols - 1)%nat)
    then S (Reel.ticksOfLast rows cols (Reel.mkState cs n b evs t log))
    else Reel.ticksOfLast rows cols (Reel.mkState cs n b evs t log).
Proof.
  intros Hst Hstart Hcursor Hle. unfold Reel.ticksOfLast. cbn [Reel.columnStates].
  case_bool_decide as Hi.
  - subst i. rewrite list_lookup_insert_eq by (apply lookup_lt_Some in Hst; exact Hst).
    rewrite Hst. unfold Reel.ticksOfColumn. rewrite Hstart, Hcursor. lia.
  - rewrite list_lookup_insert_ne by exact Hi. reflexivity.
Qed.

Lemma columnsWellFormed_insert rows cols cs i st st' n b evs t log n' b' evs' t' log' :
  columnsWellFormed rows cols (Reel.mkState cs n b evs t log) →
  cs !! i = Some st →
  Reel.ccol st' = Reel.ccol st →
  Reel.startIndex st' = Reel.startIndex st →
  (Reel.stripCursor st ≤ Reel.stripCursor st')%nat →
  columnsWellFormed rows cols (Reel.mkState (<[i := st']> cs) n' b' evs' t' log').
Proof.
  intros [Hlen Hcols] Hst Hccol Hstart Hcursor. cbn [Reel.columnStates] in *.
  split; cbn [Reel.columnStates]; [rewrite length_insert; exact Hlen|].
  intros j stj Hj. destruct (decide (i = j)) as [<-|Hne].
  - rewrite list_lookup_insert_eq in Hj by (apply lookup_lt_Some in Hst; exact Hst).
    injection Hj as <-. destruct (Hcols i st Hst) as [Hc Hs].
    split; [congruence | lia].
  - rewrite list_lookup_insert_ne in Hj by exact Hne. apply Hcols. exact Hj.
Qed.

Lemma reelInvariant_spinColumn rows cols s i :
  reelInvariant rows cols s → reelInvariant rows cols (Reel.spinColumn rows cols s i).
Proof.
  intros Hinv. unfold Reel.spinColumn.
  destruct (Reel.columnStates s !! i) as [st|] eqn:Hst; [|exact Hinv].
  destruct (Reel.spinning st) eqn:Hspin; [|exact Hinv].
  destruct s as [cs n b evs t log]. cbn [Reel.columnStates] in Hst.
  destruct Hinv as (Hwf & Hcount & Hstops).
  destruct (proj2 Hwf i st Hst) as [Hccol Hcursor].
  set (st' := Reel.mkColumn _ _ _ _ _ _ _).
  assert (Hwf' : ∀ n' b' evs' t' log',
            columnsWellFormed rows cols
              (Reel.mkState (<[i := st']> cs) n' b' evs' t' log')).
  { intros. apply (columnsWellFormed_insert rows cols cs i st st' n b evs t log);
      try assumption; try reflexivity. cbn. lia. }
  assert (Hticks : ∀ n' b' evs' t' log',
            Reel.ticksOfLast rows cols
              (Reel.mkState (<[i := st']> cs) n' b' evs' t' log')
            = if bool_decide (i = (cols - 1)%nat)
              then S (Reel.ticksOfLast rows cols (Reel.mkState cs n b evs t log))
              else Reel.ticksOfLast rows cols (Reel.mkState cs n b evs t log)).
  { intros. apply (ticksOfLast_advance rows cols cs i st st'); try assumption;
      reflexivity. }
  unfold Reel.setColumns.
  cbn [Reel.columnStates Reel.lastColumnSpinSteps
       Reel.stopSequenceScheduled Reel.events Reel.now Reel.stopLog].
  cbn [Reel.lastColumnSpinSteps] in Hcount.
  rewrite Hccol.
  destruct (i =? cols - 1)%nat eqn:Hlast.
  - apply Nat.eqb_eq in Hlast.
    destruct b; cbn [negb andb].
    + (* already scheduled *)
      split; [apply Hwf'|]. split; [|exact Hstops].
      rewrite Hticks. cbn [Reel.lastColumnSpinSteps].
      rewrite bool_decide_eq_true_2 by exact Hlast. lia.
    + destruct (rows * Reel.minTurnsLastColumn <=? S n)%nat eqn:Hreq.
      * apply Nat.leb_le in Hreq.
        rewrite scheduleStopSequence_fresh by reflexivity.
        cbn [Reel.columnStates Reel.lastColumnSpinSteps Reel.events Reel.now
             Reel.stopLog].
        split; [apply Hwf'|]. split.
        { rewrite Hticks. cbn [Reel.lastColumnSpinSteps].
          rewrite bool_decide_eq_true_2 by exact Hlast. lia. }
        unfold stopsInOrder in *.
        cbn [Reel.stopSequenceScheduled Reel.lastColumnSpinSteps Reel.events
             Reel.stopLog] in *.
        destruct Hstops as [Hnone Hlog].
        split; [exact Hreq|]. exists t, 0%nat.
        split; [lia|]. split.
        { rewrite stopEventsOf_app, Hnone, stopEventsOf_plan, Nat.sub_0_r.
          reflexivity. }
        split; [rewrite Hlog; reflexivity|]. rewrite Hlog. constructor.
      * split; [apply Hwf'|]. split; [|exact Hstops].
        rewrite Hticks. cbn [Reel.lastColumnSpinSteps].
        rewrite bool_decide_eq_true_2 by exact Hlast. lia.
  - apply Nat.eqb_neq in Hlast. cbn [andb].
    split; [apply Hwf'|]. split; [|exact Hstops].
    rewrite Hticks. cbn [Reel.lastColumnSpinSteps].
    rewrite bool_decide_eq_false_2 by exact Hlast. exact Hcount.
Qed.

Lemma reelInvariant_spinTick rows cols s :
  reelInvariant rows cols s → reelInvariant rows cols (Reel.spinTick rows cols s).
Proof.
  unfold Reel.spinTick. generalize (seq 0 (length (Reel.columnStates s))).
  intros l. revert s. induction l as [|i l IH]; intros s Hinv; [exact Hinv|].
  cbn [foldl]. apply IH. apply reelInvariant_spinColumn. exact Hinv.
Qed.

Lemma elem_of_stopEventsOf evs t c :
  (t, c) ∈ Reel.stopEventsOf evs → (t, Reel.StopColumn c) ∈ evs.
Proof.
  unfold Reel.stopEventsOf. rewrite list_elem_of_omap.
  intros ([t' cb] & Hin & Hsome). cbn in Hsome.
  destruct cb; try discriminate. injection Hsome as -> ->. exact Hin.
Qed.

Lemma elem_of_stopPlan T from count t c :
  (t, c) ∈ Reel.stopPlan T from count →
  t = T + Z.of_nat c * Reel.stopDelay ∧ (from ≤ c < from + count)%nat.
Proof.
  unfold Reel.stopPlan. rewrite list_elem_of_fmap.
  intros (c' & Heq & Hin). injection Heq as -> ->.
  apply elem_of_seq in Hin. split; [reflexivity | lia].
Qed.

Lemma stopPlan_cons T from count :
  Reel.stopPlan T from (S count)
  = (T + Z.of_nat from * Reel.stopDelay, from) :: Reel.stopPlan T (S from) count.
Proof. reflexivity. Qed.

Lemma stopPlan_snoc T count :
  Reel.stopPlan T 0 (S count)
  = Reel.stopPlan T 0 count ++ [(T + Z.of_nat count * Reel.stopDelay, count)].
Proof. unfold Reel.stopPlan. rewrite seq_S, fmap_app. reflexivity. Qed.

(** The stop event the clock fires is the first of the plan that is
    still on the clock. *)
Lemma popped_stop_is_next pre post t c T k count :
  (∀ ev : Z * Reel.Callback, ev ∈ pre → t < ev.1) →
  Reel.stopEventsOf (pre ++ (t, Reel.StopColumn c) :: post) = Reel.stopPlan T k count →
  ∃ count',
    count = S count' ∧ c = k ∧ t = T + Z.of_nat k * Reel.stopDelay
    ∧ Reel.stopEventsOf (pre ++ post) = Reel.stopPlan T (S k) count'.
Proof.
  intros Hpre Hplan.
  rewrite stopEventsOf_app in Hplan. cbn [Reel.stopEventsOf omap list_omap] in Hplan.
  cbn in Hplan. fold (Reel.stopEventsOf post) in Hplan.
  fold (Reel.stopEventsOf pre) in Hplan.
  destruct (Reel.stopEventsOf pre) as [|[t1 c1] l] eqn:Hstops.
  - destruct count as [|count']; [discriminate|].
    rewrite stopPlan_cons in Hplan. cbn [app] in Hplan.
    injection Hplan as -> -> Hpost.
    exists count'. rewrite stopEventsOf_app, Hstops. cbn [app].
    repeat split; try reflexivity. exact Hpost.
  - exfalso.
    assert (Hin1 : (t1, Reel.StopColumn c1) ∈ pre).
    { apply elem_of_stopEventsOf. rewrite Hstops. left. }
    specialize (Hpre _ Hin1). cbn in Hpre.
    destruct count as [|count']; [discriminate|].
    rewrite stopPlan_cons in Hplan. cbn [app] in Hplan.
    injection Hplan as -> -> Hrest.
    assert (Hin : (t, c) ∈ Reel.stopPlan T (S k) count').
    { rewrite <- Hrest. apply elem_of_app. right. left. }
    apply elem_of_stopPlan in Hin as [-> Hc].
    unfold Reel.stopDelay in Hpre. nia.
Qed.

(** The invariant does not look at the time, and looks at the clock only
    for its stop events. *)
Lemma reelInvariant_events rows cols cs n b evs t log evs' t' :
  Reel.stopEventsOf evs' = Reel.stopEventsOf evs →
  reelInvariant rows cols (Reel.mkState cs n b evs t log) →
  reelInvariant rows cols (Reel.mkState cs n b evs' t' log).
Proof.
  intros Hsame (Hwf & Hcount & Hstops). split; [exact Hwf|]. split; [exact Hcount|].
  unfold stopsInOrder in *.
  cbn [Reel.events Reel.stopSequenceScheduled Reel.lastColumnSpinSteps
       Reel.stopLog] in *.
  rewrite Hsame. exact Hstops.
Qed.

(** A column state changed without moving its cursor. *)
Lemma reelInvariant_column rows cols cs n b evs t log i st st' :
  cs !! i = Some st →
  Reel.ccol st' = Reel.ccol st →
  Reel.startIndex st' = Reel.startIndex st →
  Reel.stripCursor st' = Reel.stripCursor st →
  reelInvariant rows cols (Reel.mkState cs n b evs t log) →
  reelInvariant rows cols (Reel.mkState (<[i := st']> cs) n b evs t log).
Proof.
  intros Hst Hccol Hstart Hcursor (Hwf & Hcount & Hstops).
  split; [|split; [|exact Hstops]].
  - apply (columnsWellFormed_insert rows cols cs i st st' n b evs t log);
      try assumption. lia.
  - unfold Reel.ticksOfLast in *. cbn [Reel.columnStates Reel.lastColumnSpinSteps] in *.
    destruct (decide (i = (cols - 1)%nat)) as [->|Hne].
    + rewrite list_lookup_insert_eq by (apply lookup_lt_Some in Hst; exact Hst).
      rewrite Hst in Hcount. unfold Reel.ticksOfColumn in *.
      rewrite Hstart, Hcursor. exact Hcount.
    + rewrite list_lookup_insert_ne by exact Hne. exact Hcount.
Qed.

Lemma tween_fold col (l : list Reel.ReelCell) :
  ∀ s,
    foldl (fun acc _ =>
             Reel.delayedCall Reel.dropDuration (Reel.DropTweenComplete col) acc)
          s l
    = Reel.setEvents
        (Reel.events s
         ++ ((fun _ => (Reel.now s + Reel.dropDuration, Reel.DropTweenComplete col))
             <$> l))
        s.
Proof.
  induction l as [|c l IH]; intros s.
  - cbn. rewrite app_nil_r. destruct s; reflexivity.
  - cbn [foldl]. rewrite IH. destruct s. cbn. rewrite <- app_assoc. reflexivity.
Qed.

Lemma stopEventsOf_tweens t col (l : list Reel.ReelCell) :
  Reel.stopEventsOf ((fun _ => (t, Reel.DropTweenComplete col)) <$> l) = [].
Proof. induction l as [|c l IH]; [reflexivity | exact IH]. Qed.

Lemma stopEventsOf_without_ticks evs :
  Reel.stopEventsOf (List.filter (fun ev => negb (Reel.isSpinTick ev)) evs)
  = Reel.stopEventsOf evs.
Proof.
  induction evs as [|[t cb] evs IH]; [reflexivity|].
  destruct cb; cbn; try exact IH. f_equal. exact IH.
Qed.

Lemma reelInvariant_fire_dropColumn rows cols col s :
  reelInvariant rows cols s → reelInvariant rows cols (Reel.dropColumn col s).
Proof.
  intros Hinv. unfold Reel.dropColumn.
  destruct (Reel.columnStates s !! col) as [st|] eqn:Hst; [|exact Hinv].
  destruct (Reel.cells st) as [|cell cells] eqn:Hcells; [exact Hinv|].
  rewrite tween_fold. destruct s as [cs n b evs t log].
  unfold Reel.setColumns, Reel.setEvents.
  cbn [Reel.columnStates Reel.lastColumnSpinSteps Reel.stopSequenceScheduled
       Reel.events Reel.now Reel.stopLog] in *.
  apply (reelInvariant_events rows cols _ n b evs t log).
  - rewrite stopEventsOf_app.
    rewrite (stopEventsOf_tweens _ col (cell :: cells)). apply app_nil_r.
  - apply (reelInvariant_column rows cols cs n b evs t log col st); try reflexivity;
      assumption.
Qed.

Lemma reelInvariant_fire_tween rows cols col s :
  reelInvariant rows cols s → reelInvariant rows cols (Reel.dropTweenComplete col s).
Proof.
  intros Hinv. unfold Reel.dropTweenComplete.
  destruct (Reel.columnStates s !! col) as [st|] eqn:Hst; [|exact Hinv].
  destruct s as [cs n b evs t log]. unfold Reel.setColumns.
  cbn [Reel.columnStates Reel.lastColumnSpinSteps Reel.stopSequenceScheduled
       Reel.events Reel.now Reel.stopLog] in *.
  apply (reelInvariant_column rows cols cs n b evs t log col st); try reflexivity;
    assumption.
Qed.

Lemma reelInvariant_fire_tick rows cols s :
  reelInvariant rows cols s →
  reelInvariant rows cols
    (Reel.setEvents
       ((Reel.now (Reel.spinTick rows cols s) + Reel.spinTickMs, Reel.SpinTick)
        :: Reel.events (Reel.spinTick rows cols s))
       (Reel.spinTick rows cols s)).
Proof.
  intros Hinv. apply reelInvariant_spinTick in Hinv.
  destruct (Reel.spinTick rows cols s) as [cs n b evs t log].
  unfold Reel.setEvents. cbn.
  apply (reelInvariant_events rows cols cs n b evs t log); [reflexivity | exact Hinv].
Qed.

Lemma reelInvariant_fire_remove rows cols s :
  reelInvariant rows cols s →
  reelInvariant rows cols
    (Reel.setEvents (List.filter (fun ev => negb (Reel.isSpinTick ev)) (Reel.events s))
       s).
Proof.
  intros Hinv. destruct s as [cs n b evs t log]. unfold Reel.setEvents. cbn.
  apply (reelInvariant_events rows cols cs n b evs t log);
    [apply stopEventsOf_without_ticks | exact Hinv].
Qed.

Lemma reelInvariant_fire_stop grid rows cols cs n evs t0 log t c pre post :
  evs = pre ++ (t, Reel.StopColumn c) :: post →
  (∀ ev : Z * Reel.Callback, ev ∈ pre → t < ev.1) →
  reelInvariant rows cols (Reel.mkState cs n true evs t0 log) →
  reelInvariant rows cols
    (Reel.stopColumn grid rows cols c (Reel.mkState cs n true (pre ++ post) t log)).
Proof.
  intros -> Hpre (Hwf & Hcount & Hstops).
  unfold stopsInOrder in Hstops.
  cbn [Reel.events Reel.stopSequenceScheduled Reel.lastColumnSpinSteps
       Reel.stopLog] in Hstops, Hcount.
  destruct Hstops as (Hreq & T & k & Hk & Hplan & Hlog & Hall).
  destruct (popped_stop_is_next pre post t c T k (cols - k) Hpre Hplan)
    as (count' & Hcount' & -> & -> & Hrest).
  unfold Reel.stopColumn. cbn [Reel.columnStates].
  destruct (lookup_lt_is_Some_2 cs k) as [st Hst].
  { destruct Hwf as [Hlen _]. cbn in Hlen. lia. }
  rewrite Hst.
  set (st' := Reel.mkColumn _ _ _ _ _ _ _).
  set (record := Reel.mkStop _ _ _).
  cbn [Reel.lastColumnSpinSteps Reel.stopSequenceScheduled Reel.events Reel.now
       Reel.stopLog].
  assert (Hgoal : ∀ extra,
    Reel.stopEventsOf extra = [] →
    reelInvariant rows cols
      (Reel.mkState (<[k := st']> cs) n true ((pre ++ post) ++ extra)
         (T + Z.of_nat k * Reel.stopDelay) (log ++ [record]))).
  { intros extra Hextra.
    assert (Hbase : reelInvariant rows cols
              (Reel.mkState cs n true ((pre ++ post) ++ extra)
                 (T + Z.of_nat k * Reel.stopDelay) (log ++ [record]))).
    { split; [exact Hwf|]. split; [exact Hcount|].
      unfold stopsInOrder.
      cbn [Reel.events Reel.stopSequenceScheduled Reel.lastColumnSpinSteps
           Reel.stopLog].
      split; [exact Hreq|]. exists T, (S k). split; [lia|].
      split.
      { rewrite stopEventsOf_app, Hextra, app_nil_r, Hrest.
        replace (cols - S k)%nat with count' by lia. reflexivity. }
      split.
      { rewrite fmap_app, Hlog, stopPlan_snoc. reflexivity. }
      apply Forall_app. split; [exact Hall|].
      constructor; [|constructor]. unfold record. cbn [Reel.lastColumnTicks].
      unfold Reel.ticksOfLast in *. cbn [Reel.columnStates] in *. lia. }
    apply (reelInvariant_column rows cols cs n true _ _ _ k st); try reflexivity;
      assumption. }
  destruct (k =? cols - 1)%nat.
  - unfold Reel.delayedCall, Reel.setEvents.
    cbn [Reel.columnStates Reel.lastColumnSpinSteps Reel.stopSequenceScheduled
         Reel.events Reel.now Reel.stopLog].
    apply Hgoal. reflexivity.
  - specialize (Hgoal [] eq_refl). rewrite app_nil_r in Hgoal. exact Hgoal.
Qed.

Lemma reelInvariant_step grid rows cols s s' :
  reelInvariant rows cols s →
  Reel.step grid rows cols s = Some s' →
  reelInvariant rows cols s'.
Proof.
  intros Hinv. unfold Reel.step.
  destruct (popEarliest (Reel.events s)) as [[[t cb] rest]|] eqn:Hpop; [|discriminate].
  intros Hs'. injection Hs' as <-.
  destruct (popEarliest_spec _ _ _ _ Hpop) as (pre & post & Hevs & -> & Hpre & _).
  destruct s as [cs n b evs t0 log].
  cbn [Reel.columnStates Reel.lastColumnSpinSteps Reel.stopSequenceScheduled
       Reel.events Reel.now Reel.stopLog] in *.
  destruct cb as [col|col| |col|]; cbn [Reel.fire].
  - apply reelInvariant_fire_dropColumn.
    apply (reelInvariant_events rows cols cs n b evs t0 log); [|exact Hinv].
    rewrite Hevs, !stopEventsOf_app. reflexivity.
  - apply reelInvariant_fire_tween.
    apply (reelInvariant_events rows cols cs n b evs t0 log); [|exact Hinv].
    rewrite Hevs, !stopEventsOf_app. reflexivity.
  - apply reelInvariant_fire_tick.
    apply (reelInvariant_events rows cols cs n b evs t0 log); [|exact Hinv].
    rewrite Hevs, !stopEventsOf_app. reflexivity.
  - destruct b.
    + apply (reelInvariant_fire_stop grid rows cols cs n evs t0 log); assumption.
    + exfalso. destruct Hinv as (_ & _ & Hstops). unfold stopsInOrder in Hstops.
      cbn [Reel.events Reel.stopSequenceScheduled] in Hstops.
      destruct Hstops as [Hnone _]. rewrite Hevs, stopEventsOf_app in Hnone.
      apply app_eq_nil in Hnone as [_ Hnone]. discriminate.
  - apply reelInvariant_fire_remove.
    apply (reelInvariant_events rows cols cs n b evs t0 log); [|exact Hinv].
    rewrite Hevs, !stopEventsOf_app. reflexivity.
Qed.

Lemma reelInvariant_run grid rows cols fuel :
  ∀ s, reelInvariant rows cols s → reelInvariant rows cols (Reel.run grid rows cols fuel s).
Proof.
  induction fuel as [|fuel IH]; intros s Hinv; [exact Hinv|].
  cbn [Reel.run]. destruct (Reel.step grid rows cols s) as [s'|] eqn:Hstep;
    [|exact Hinv].
  apply IH. apply (reelInvariant_step grid rows cols s s' Hinv Hstep).
Qed.

Lemma reelInvariant_init random from grid entries rows cols t0 :
  reelInvariant rows cols (Reel.init random from grid entries rows cols t0).
Proof.
  split; [|split].
  - split; cbn [Reel.init Reel.columnStates].
    + rewrite length_map, length_seq. reflexivity.
    + intros i st Hst. rewrite list_lookup_fmap in Hst.
      destruct (seq 0 cols !! i) as [c|] eqn:Hc; [|discriminate].
      apply lookup_seq in Hc as [-> _]. injection Hst as <-.
      cbn. split; [reflexivity | lia].
  - cbn. lia.
  - unfold stopsInOrder. cbn [Reel.init Reel.stopSequenceScheduled Reel.events
                              Reel.stopLog].
    split; [|reflexivity].
    cbn. induction (seq 0 cols) as [|c l IH]; [reflexivity | exact IH].
Qed.

(** The reel intro of the sample board: after eighty events every column
    has been stopped, left to right and 220 ms apart, the first when the
    rightmost column had spun six ticks, and the clock is empty. *)
Example sample_reel_stops :
  let entries := (fun rc : nat * nat => (Z.of_nat rc.1, Z.of_nat rc.2))
                 <$> boardCells 3 5 in
  let s := Reel.run sampleGrid 3 5 80
             (Reel.init sampleRandom 0 sampleGrid entries 3 5 0) in
  Reel.stopLog s
  = [Reel.mkStop 2070 0 6; Reel.mkStop 2290 1 8; Reel.mkStop 2510 2 10;
     Reel.mkStop 2730 3 13; Reel.mkStop 2950 4 15]
  ∧ Reel.events s = []
  ∧ Reel.spinning <$> Reel.columnStates s = [false; false; false; false; false].
Proof. vm_compute. repeat split. Qed.

(** C7.  At every moment of the reel intro, on a board of any size:
    every stop command delivered so far was delivered when the rightmost
    column had spun at least rows times [minTurnsLastColumn] ticks; the
    stop commands delivered are those of the columns 0, 1, 2, ... in this
    order, the command of column c at c times [stopDelay] after one time
    T; and the stop events still on the clock are those of the remaining
    columns, due by the same rule, so the rightmost column is stopped
    last. *)
Theorem reel_stops_after_minimum_spin_left_to_right :
  ∀ (random : RandomSource) (from : nat) (grid : Grid) (entries : list (Z * Z))
    (rows cols : nat) (t0 : Z) (fuel : nat),
    let s := Reel.run grid rows cols fuel
               (Reel.init random from grid entries rows cols t0) in
    let delivered := length (Reel.stopLog s) in
    Forall (fun r => (rows * Reel.minTurnsLastColumn ≤ Reel.lastColumnTicks r)%nat)
           (Reel.stopLog s)
    ∧ (delivered ≤ cols)%nat
    ∧ ∃ T,
        stopOf <$> Reel.stopLog s = Reel.stopPlan T 0 delivered
        ∧ Reel.stopEventsOf (Reel.events s)
          = if Reel.stopSequenceScheduled s
            then Reel.stopPlan T delivered (cols - delivered)
            else [].
Proof.
  intros random from grid entries rows cols t0 fuel s delivered.
  assert (Hinv : reelInvariant rows cols s).
  { apply reelInvariant_run, reelInvariant_init. }
  destruct Hinv as (_ & _ & Hstops). unfold stopsInOrder in Hstops.
  unfold delivered. destruct (Reel.stopSequenceScheduled s).
  - destruct Hstops as (_ & T & k & Hk & Hplan & Hlog & Hall).
    assert (Hlen : length (Reel.stopLog s) = k).
    { apply (f_equal length) in Hlog. unfold Reel.stopPlan in Hlog.
      rewrite !length_fmap, length_seq in Hlog. exact Hlog. }
    rewrite Hlen. split; [exact Hall|]. split; [exact Hk|].
    exists T. split; [exact Hlog | exact Hplan].
  - destruct Hstops as [Hnone Hlog]. rewrite Hlog.
    split; [constructor|]. split; [cbn; lia|].
    exists 0. split; [reflexivity | exact Hnone].
Qed.

(** ** More on the board scene

    *** The board shape *)

(** X1.  Whatever the play, the mode and the preview size are,
    [pickBoardSize] picks a shape with at least one row and at least one
    column. *)
Theorem pickBoardSize_at_least_one_cell :
  ∀ (play : option PlayOutcome) (mode : option GameMode)
    (previewSize : option GridSize),
    1 ≤ rows (pickBoardSize play mode previewSize)
    ∧ 1 ≤ cols (pickBoardSize play mode previewSize).
Proof.
  intros play mode previewSize. unfold pickBoardSize.
  assert (Hmode : 1 ≤ rows (match mode with
                             | Some nivel1 => LEVEL_ONE_PREVIEW_SIZE
                             | _ => LEVEL_TWO_PREVIEW_SIZE
                             end)
                  ∧ 1 ≤ cols (match mode with
                               | Some nivel1 => LEVEL_ONE_PREVIEW_SIZE
                               | _ => LEVEL_TWO_PREVIEW_SIZE
                               end)).
  { destruct mode as [[]|]; cbn; lia. }
  set (fromMode := match mode with
                   | Some nivel1 => LEVEL_ONE_PREVIEW_SIZE
                   | _ => LEVEL_TWO_PREVIEW_SIZE
                   end) in *.
  assert (Hpreview :
            1 ≤ rows (match previewSize with
                      | Some p =>
                          if (negb (rows p =? 0) && negb (cols p =? 0))%bool
                          then {| rows := Z.max 1 (rows p); cols := Z.max 1 (cols p) |}
                          else fromMode
                      | None => fromMode
                      end)
            ∧ 1 ≤ cols (match previewSize with
                        | Some p =>
                            if (negb (rows p =? 0) && negb (cols p =? 0))%bool
                            then {| rows := Z.max 1 (rows p); cols := Z.max 1 (cols p) |}
                            else fromMode
                        | None => fromMode
                        end)).
  { destruct previewSize as [p|]; [|exact Hmode].
    destruct (negb (rows p =? 0) && negb (cols p =? 0))%bool; [|exact Hmode].
    cbn [rows cols]. lia. }
  destruct play as [pl|]; [|exact Hpreview].
  destruct (grid0 pl) as [|r0 rest] eqn:Hg; [exact Hpreview|].
  destruct (length r0) as [|n] eqn:Hlen; cbn [Nat.eqb negb]; [exact Hpreview|].
  cbn [rows cols length]. lia.
Qed.

Lemma foldl_createCell_snd (drawn : list ((Z * Z) * string)) acc :
  (foldl (fun acc ks => createCell ks.1 ks.2 acc) acc drawn).2
  = (acc.2 + length drawn)%nat.
Proof.
  revert acc. induction drawn as [|ks rest IH]; intros acc; cbn [foldl length].
  - lia.
  - rewrite IH. cbn [createCell snd]. lia.
Qed.

Lemma foldl_createCell_notin (drawn : list ((Z * Z) * string)) acc key :
  key ∉ drawn.*1 →
  (foldl (fun acc ks => createCell ks.1 ks.2 acc) acc drawn).1 !! key = acc.1 !! key.
Proof.
  revert acc. induction drawn as [|ks rest IH]; intros acc Hnotin; [reflexivity|].
  cbn [foldl]. rewrite IH.
  - cbn [createCell fst]. apply lookup_insert_ne. intros Heq. apply Hnotin.
    rewrite fmap_cons, Heq. apply list_elem_of_here.
  - intros Hin. apply Hnotin. rewrite fmap_cons. apply list_elem_of_further, Hin.
Qed.

(** A key created once holds the container with the identity of its
    position in the list. *)
Lemma foldl_createCell_at (drawn : list ((Z * Z) * string)) acc i key symbol :
  NoDup drawn.*1 → drawn !! i = Some (key, symbol) →
  (foldl (fun acc ks => createCell ks.1 ks.2 acc) acc drawn).1 !! key
  = Some (mkHandle (acc.2 + i) symbol).
Proof.
  revert acc i. induction drawn as [|ks rest IH]; intros acc i Hnodup Hi; [done|].
  rewrite fmap_cons in Hnodup. apply NoDup_cons in Hnodup as [Hhead Hrest].
  cbn [foldl]. destruct i as [|i]; cbn in Hi.
  - injection Hi as ->. rewrite foldl_createCell_notin by exact Hhead.
    cbn [createCell fst snd]. rewrite lookup_insert_eq. f_equal. f_equal. lia.
  - rewrite (IH _ i Hrest Hi). cbn [createCell snd]. f_equal. f_equal. lia.
Qed.

Lemma mapM_fmap_Some {A B : Type} (f : A → option B) (h : A → B) (l : list A) :
  (∀ x, x ∈ l → f x = Some (h x)) → mapM f l = Some (h <$> l).
Proof.
  induction l as [|x l IH]; intros Hall; [reflexivity|].
  cbn [mapM]. rewrite (Hall x) by apply list_elem_of_here.
  cbn [mbind option_bind]. rewrite IH by (intros y Hy; apply Hall, list_elem_of_further, Hy).
  reflexivity.
Qed.

Lemma NoDup_boardCells rows cols : NoDup (boardCells rows cols).
Proof.
  unfold boardCells. apply NoDup_bind.
  - intros r1 r2 rc _ _ H1 H2.
    apply list_elem_of_fmap in H1 as (c1 & -> & _).
    apply list_elem_of_fmap in H2 as (c2 & Heq & _). congruence.
  - intros r _. apply NoDup_fmap_2; [|apply NoDup_seq].
    intros c1 c2 Heq. congruence.
  - apply NoDup_seq.
Qed.

Lemma NoDup_board_keys rows cols : NoDup (keyOf <$> boardCells rows cols).
Proof.
  apply NoDup_fmap_2; [|apply NoDup_boardCells].
  intros [r1 c1] [r2 c2] Heq. unfold keyOf in Heq. cbn in Heq.
  injection Heq as H1 H2. f_equal; lia.
Qed.

Lemma elem_of_board_keys rows cols (r c : Z) :
  (r, c) ∈ keyOf <$> boardCells rows cols
  ↔ 0 ≤ r < Z.of_nat rows ∧ 0 ≤ c < Z.of_nat cols.
Proof.
  rewrite list_elem_of_fmap. split.
  - intros ([r' c'] & Heq & Hin). apply elem_of_boardCells in Hin.
    unfold keyOf in Heq. cbn in *. injection Heq as -> ->. lia.
  - intros [Hr Hc]. exists (Z.to_nat r, Z.to_nat c). split.
    + unfold keyOf. cbn. f_equal; lia.
    + apply elem_of_boardCells. cbn. lia.
Qed.

(** X2.  [drawGrid] fails (it reads a cell of a row the grid does not
    have) exactly when the grid has fewer rows than the board.  Otherwise
    it leaves the grid normalised to the board shape and exactly one
    container for each position of the board: the container shows the
    symbol the grid has there, its identity is fresh, and no two positions
    share a container. *)
Theorem drawGrid_one_container_per_cell :
  ∀ (g : Grid) (s : Scene),
    if (Z.to_nat (Z.max 1 (rows (boardSize s))) <=? length g)%nat
    then
      ∃ s',
        drawGrid g s = Some s'
        ∧ grid s' = Some (normalizeGrid g (Z.to_nat (Z.max 1 (rows (boardSize s))))
                                          (Z.to_nat (Z.max 1 (cols (boardSize s)))))
        ∧ boardSize s' = {| rows := Z.max 1 (rows (boardSize s));
                            cols := Z.max 1 (cols (boardSize s)) |}
        ∧ (∀ r c : Z,
             is_Some (cellMap s' !! (r, c))
             ↔ 0 ≤ r < rows (boardSize s') ∧ 0 ≤ c < cols (boardSize s'))
        ∧ (∀ (r c : Z) (h : Handle),
             cellMap s' !! (r, c) = Some h →
             hsymbol h = cellAt g (Z.to_nat r) (Z.to_nat c)
             ∧ (nextHandle s ≤ hid h < nextHandle s')%nat)
        ∧ (∀ (k1 k2 : Z * Z) (h1 h2 : Handle),
             cellMap s' !! k1 = Some h1 → cellMap s' !! k2 = Some h2 →
             hid h1 = hid h2 → k1 = k2)
    else drawGrid g s = None.
Proof.
  intros g s.
  set (R := Z.max 1 (rows (boardSize s))).
  set (C := Z.max 1 (cols (boardSize s))).
  assert (HR : 1 ≤ R) by (unfold R; lia).
  assert (HC : 1 ≤ C) by (unfold C; lia).
  unfold drawGrid. fold R C.
  set (f := fun rc : nat * nat => _).
  destruct (Nat.leb_spec (Z.to_nat R) (length g)) as [Hlen|Hlen].
  - set (h := fun rc : nat * nat => (keyOf rc, cellAt g rc.1 rc.2)).
    assert (Hdrawn : mapM f (boardCells (Z.to_nat R) (Z.to_nat C))
                     = Some (h <$> boardCells (Z.to_nat R) (Z.to_nat C))).
    { apply mapM_fmap_Some. intros rc Hin. apply elem_of_boardCells in Hin as [Hr Hc].
      unfold f, h, strictCell, cellAt, keyOf.
      destruct (lookup_lt_is_Some_2 g rc.1 ltac:(lia)) as [line ->]. reflexivity. }
    rewrite Hdrawn. cbn [mbind option_bind].
    set (drawn := h <$> boardCells (Z.to_nat R) (Z.to_nat C)).
    assert (Hkeys : drawn.*1 = keyOf <$> boardCells (Z.to_nat R) (Z.to_nat C)).
    { unfold drawn. rewrite <- list_fmap_compose. reflexivity. }
    assert (Hnodup : NoDup drawn.*1) by (rewrite Hkeys; apply NoDup_board_keys).
    assert (Hat : ∀ key,
               key ∈ drawn.*1 →
               ∃ i, (i < length drawn)%nat
                    ∧ drawn !! i = Some (key, cellAt g (Z.to_nat key.1) (Z.to_nat key.2))).
    { intros key Hin. apply list_elem_of_fmap in Hin as ([k sym] & -> & Hin).
      pose proof Hin as Hin'. apply list_elem_of_lookup in Hin' as [i Hi].
      exists i. split; [apply lookup_lt_Some in Hi; exact Hi|].
      rewrite Hi. f_equal. f_equal. unfold drawn in Hin.
      apply list_elem_of_fmap in Hin as (rc & Heq & _). unfold h, keyOf in Heq.
      injection Heq as -> ->. cbn [fst snd]. rewrite !Nat2Z.id. reflexivity. }
    eexists. split; [reflexivity|].
    split; [destruct s; reflexivity|]. split; [destruct s; reflexivity|].
    assert (Hmap : ∀ m, cellMap (setCellMap m.1 m.2
                       (setBoardSize {| rows := R; cols := C |}
                          (setGrid (Some (normalizeGrid g (Z.to_nat R) (Z.to_nat C))) s)))
                   = m.1) by (intros m; destruct s; reflexivity).
    assert (Hnext : ∀ m, nextHandle (setCellMap m.1 m.2
                       (setBoardSize {| rows := R; cols := C |}
                          (setGrid (Some (normalizeGrid g (Z.to_nat R) (Z.to_nat C))) s)))
                   = m.2) by (intros m; destruct s; reflexivity).
    assert (Hsize : ∀ m, boardSize (setCellMap m.1 m.2
                       (setBoardSize {| rows := R; cols := C |}
                          (setGrid (Some (normalizeGrid g (Z.to_nat R) (Z.to_nat C))) s)))
                   = {| rows := R; cols := C |}) by (intros m; destruct s; reflexivity).
    assert (Hn0 : nextHandle (setBoardSize {| rows := R; cols := C |}
                          (setGrid (Some (normalizeGrid g (Z.to_nat R) (Z.to_nat C))) s))
                  = nextHandle s) by (destruct s; reflexivity).
    rewrite Hmap, Hnext, Hsize, Hn0. cbn [rows cols].
    split; [|split].
    + intros r c. split.
      * intros [hd Hhd].
        destruct (decide ((r, c) ∈ drawn.*1)) as [Hin|Hnotin].
        -- rewrite Hkeys in Hin. apply elem_of_board_keys in Hin. lia.
        -- rewrite foldl_createCell_notin in Hhd by exact Hnotin.
           cbn [fst] in Hhd. rewrite lookup_empty in Hhd. discriminate.
      * intros Hin.
        assert (Hin' : (r, c) ∈ drawn.*1)
          by (rewrite Hkeys; apply elem_of_board_keys; lia).
        destruct (Hat _ Hin') as (i & _ & Hi).
        rewrite (foldl_createCell_at drawn _ i _ _ Hnodup Hi). eexists. reflexivity.
    + intros r c hd Hhd.
      destruct (decide ((r, c) ∈ drawn.*1)) as [Hin|Hnotin].
      * destruct (Hat _ Hin) as (i & Hlt & Hi).
        rewrite (foldl_createCell_at drawn _ i _ _ Hnodup Hi) in Hhd.
        injection Hhd as <-. cbn [hsymbol hid fst snd].
        rewrite foldl_createCell_snd. cbn [snd]. split; [reflexivity|lia].
      * rewrite foldl_createCell_notin in Hhd by exact Hnotin.
        cbn [fst] in Hhd. rewrite lookup_empty in Hhd. discriminate.
    + intros k1 k2 h1 h2 H1 H2 Hid.
      assert (Hin : ∀ k hd,
                 (foldl (fun acc ks => createCell ks.1 ks.2 acc) (∅, nextHandle s) drawn).1
                 !! k = Some hd → k ∈ drawn.*1).
      { intros k hd Hk. destruct (decide (k ∈ drawn.*1)) as [Hin|Hnotin]; [exact Hin|].
        rewrite foldl_createCell_notin in Hk by exact Hnotin.
        cbn [fst] in Hk. rewrite lookup_empty in Hk. discriminate. }
      destruct (Hat _ (Hin _ _ H1)) as (i1 & _ & Hi1).
      destruct (Hat _ (Hin _ _ H2)) as (i2 & _ & Hi2).
      rewrite (foldl_createCell_at drawn _ i1 _ _ Hnodup Hi1) in H1.
      rewrite (foldl_createCell_at drawn _ i2 _ _ Hnodup Hi2) in H2.
      injection H1 as <-. injection H2 as <-. cbn [hid snd] in Hid.
      assert (i1 = i2) by lia. subst i2. rewrite Hi1 in Hi2. congruence.
  - destruct (mapM f (boardCells (Z.to_nat R) (Z.to_nat C))) as [drawn|] eqn:Hdrawn;
      [|reflexivity].
    exfalso.
    assert (Hsome : is_Some (mapM f (boardCells (Z.to_nat R) (Z.to_nat C))))
      by (rewrite Hdrawn; eexists; reflexivity).
    apply mapM_is_Some in Hsome. rewrite Forall_forall in Hsome.
    destruct (Hsome (length g, 0%nat)) as [x Hx].
    + apply elem_of_boardCells. cbn. lia.
    + unfold f, strictCell in Hx. cbn [fst snd] in Hx.
      rewrite (proj2 (lookup_ge_None g (length g))) in Hx by lia. discriminate.
Qed.

Lemma replaceCell_snd_le rs old g acc rc :
  (acc.2 ≤ (replaceCell rs old g acc rc).2)%nat.
Proof.
  unfold replaceCell, createCell.
  destruct (old !! _); [destruct (bool_decide _)|]; cbn [snd]; lia.
Qed.

Lemma foldl_replaceCell_snd_le rs old g l :
  ∀ acc, (acc.2 ≤ (foldl (replaceCell rs old g) acc l).2)%nat.
Proof.
  induction l as [|rc rest IH]; intros acc; cbn [foldl]; [lia|].
  etransitivity; [apply (replaceCell_snd_le rs old g acc rc)|apply IH].
Qed.

Lemma foldl_replaceCell_notin rs old g l :
  ∀ acc key, key ∉ keyOf <$> l →
    (foldl (replaceCell rs old g) acc l).1 !! key = acc.1 !! key.
Proof.
  induction l as [|rc rest IH]; intros acc key Hnotin; [reflexivity|].
  cbn [foldl]. rewrite IH.
  - assert (Hne : keyOf rc ≠ key).
    { intros Heq. apply Hnotin. rewrite fmap_cons, Heq. apply list_elem_of_here. }
    unfold replaceCell, createCell. fold (keyOf rc).
    destruct (old !! keyOf rc); [destruct (bool_decide _)|]; cbn [fst];
      apply lookup_insert_ne; exact Hne.
  - intros Hin. apply Hnotin. rewrite fmap_cons. apply list_elem_of_further, Hin.
Qed.

(** What [replaceCells] leaves on a key it visits once. *)
Lemma foldl_replaceCell_in rs old g l :
  ∀ acc rc, NoDup (keyOf <$> l) → rc ∈ l →
    match old !! keyOf rc with
    | Some existing =>
        if bool_decide (keyOf rc ∈ rs)
        then ∃ id, (acc.2 ≤ id < (foldl (replaceCell rs old g) acc l).2)%nat
                   ∧ (foldl (replaceCell rs old g) acc l).1 !! keyOf rc
                     = Some (mkHandle id (cellAt g rc.1 rc.2))
        else (foldl (replaceCell rs old g) acc l).1 !! keyOf rc = Some existing
    | None =>
        ∃ id, (acc.2 ≤ id < (foldl (replaceCell rs old g) acc l).2)%nat
              ∧ (foldl (replaceCell rs old g) acc l).1 !! keyOf rc
                = Some (mkHandle id (cellAt g rc.1 rc.2))
    end.
Proof.
  induction l as [|x rest IH]; intros acc rc Hnodup Hin.
  - apply elem_of_nil in Hin. destruct Hin.
  - rewrite fmap_cons in Hnodup. apply NoDup_cons in Hnodup as [Hhead Hrest].
    cbn [foldl]. apply elem_of_cons in Hin as [->|Hin].
    + rewrite foldl_replaceCell_notin by exact Hhead.
      pose proof (foldl_replaceCell_snd_le rs old g rest (replaceCell rs old g acc x))
        as Hle.
      remember (replaceCell rs old g acc x) as acc' eqn:Hacc.
      unfold replaceCell, createCell in Hacc. fold (keyOf x) in Hacc.
      destruct (old !! keyOf x) as [existing|].
      * destruct (bool_decide (keyOf x ∈ rs)); subst acc'; cbn [fst snd] in *.
        -- exists acc.2. split; [lia|]. apply lookup_insert_eq.
        -- apply lookup_insert_eq.
      * subst acc'. cbn [fst snd] in *. exists acc.2. split; [lia|].
        apply lookup_insert_eq.
    + specialize (IH (replaceCell rs old g acc x) rc Hrest Hin).
      pose proof (replaceCell_snd_le rs old g acc x) as Hle.
      destruct (old !! keyOf rc) as [existing|].
      * destruct (bool_decide (keyOf rc ∈ rs)); [|exact IH].
        destruct IH as (id & Hid & Hlook). exists id. split; [lia|exact Hlook].
      * destruct IH as (id & Hid & Hlook). exists id. split; [lia|exact Hlook].
Qed.

Lemma elem_of_removeSetOf st (r c : Z) :
  (r, c) ∈ removeSetOf st ↔ mkCell r c ∈ removeCells st.
Proof.
  unfold removeSetOf. rewrite elem_of_list_to_set, list_elem_of_fmap. split.
  - intros ([r' c'] & Heq & Hin). unfold cellKey in Heq. cbn in Heq.
    injection Heq as -> ->. exact Hin.
  - intros Hin. exists (mkCell r c). split; [reflexivity|exact Hin].
Qed.

(** X3.  A step applied in the fill mode [replace]: a position outside
    the board has no container; inside the board, a position that has a
    container and is not removed keeps that container; a position that is
    removed or has none gets a new container, with a fresh identity, that
    shows the symbol of the step's [gridAfter] (of the current grid when
    the step has none). *)
Theorem replace_step_keeps_or_recreates :
  ∀ (env : Env) (st : CascadeStep) (i n : nat) (k : Continuation) (s : Scene)
    (current : Grid) (r c : Z),
    grid s = Some current → getFillMode env = Some replace →
    (¬ (0 ≤ r < rows (boardSize s) ∧ 0 ≤ c < cols (boardSize s)) →
     cellMap (applyStep env st i n k s) !! (r, c) = None)
    ∧ (0 ≤ r < rows (boardSize s) → 0 ≤ c < cols (boardSize s) →
       ∀ existing, cellMap s !! (r, c) = Some existing →
                   mkCell r c ∉ removeCells st →
                   cellMap (applyStep env st i n k s) !! (r, c) = Some existing)
    ∧ (0 ≤ r < rows (boardSize s) → 0 ≤ c < cols (boardSize s) →
       cellMap s !! (r, c) = None ∨ mkCell r c ∈ removeCells st →
       ∃ id, (nextHandle s ≤ id < nextHandle (applyStep env st i n k s))%nat
             ∧ cellMap (applyStep env st i n k s) !! (r, c)
               = Some (mkHandle id
                         (cellAt (default current (gridAfter st))
                                 (Z.to_nat r) (Z.to_nat c)))).
Proof.
  intros env st i n k s current r c Hgrid Hmode.
  set (R := Z.to_nat (rows (boardSize s))).
  set (C := Z.to_nat (cols (boardSize s))).
  set (g := normalizeGrid (default current (gridAfter st)) R C).
  assert (Hmap : cellMap (applyStep env st i n k s)
                 = (replaceCells (removeSetOf st) (cellMap s) (nextHandle s) g R C).1).
  { unfold applyStep. rewrite Hgrid, Hmode. destruct s. reflexivity. }
  assert (Hnext : nextHandle (applyStep env st i n k s)
                  = (replaceCells (removeSetOf st) (cellMap s) (nextHandle s) g R C).2).
  { unfold applyStep. rewrite Hgrid, Hmode. destruct s. reflexivity. }
  rewrite Hmap, Hnext. unfold replaceCells.
  assert (Hin : 0 ≤ r < rows (boardSize s) → 0 ≤ c < cols (boardSize s) →
                (Z.to_nat r, Z.to_nat c) ∈ boardCells R C
                ∧ keyOf (Z.to_nat r, Z.to_nat c) = (r, c)
                ∧ cellAt g (Z.to_nat r) (Z.to_nat c)
                  = cellAt (default current (gridAfter st)) (Z.to_nat r) (Z.to_nat c)).
  { intros Hr Hc. split; [apply elem_of_boardCells; cbn; unfold R, C; lia|].
    split; [unfold keyOf; cbn; f_equal; lia|].
    apply normalizeGrid_cell; unfold R, C; lia. }
  split; [|split].
  - intros Hout. rewrite foldl_replaceCell_notin; [apply lookup_empty|].
    intros Hkey. apply elem_of_board_keys in Hkey. apply Hout. unfold R, C in Hkey. lia.
  - intros Hr Hc existing Hold Hkeep.
    destruct (Hin Hr Hc) as (Hcell & Hkey & _).
    pose proof (foldl_replaceCell_in (removeSetOf st) (cellMap s) g (boardCells R C)
                  (∅, nextHandle s) _ (NoDup_board_keys R C) Hcell) as Hres.
    rewrite Hkey, Hold in Hres.
    rewrite bool_decide_eq_false_2 in Hres; [exact Hres|].
    rewrite elem_of_removeSetOf. exact Hkeep.
  - intros Hr Hc Hnew.
    destruct (Hin Hr Hc) as (Hcell & Hkey & Hsym).
    pose proof (foldl_replaceCell_in (removeSetOf st) (cellMap s) g (boardCells R C)
                  (∅, nextHandle s) _ (NoDup_board_keys R C) Hcell) as Hres.
    rewrite Hkey in Hres. cbn [fst snd] in Hres. rewrite Hsym in Hres.
    destruct (cellMap s !! (r, c)) as [existing|] eqn:Hold; [|exact Hres].
    destruct Hnew as [Hnone|Hrem]; [discriminate|].
    rewrite bool_decide_eq_true_2 in Hres; [exact Hres|].
    rewrite elem_of_removeSetOf. exact Hrem.
Qed.

(** The loop over the survivors of one column: [writeRow] goes up by one
    row for each container, and the containers sit on the rows it
    passed. *)
Lemma foldl_placeSurvivor col (l : list Handle) :
  ∀ acc,
    writeRow (foldl (placeSurvivor col) acc l) = writeRow acc - Z.of_nat (length l)
    ∧ fresh (foldl (placeSurvivor col) acc l) = fresh acc
    ∧ ∀ r c,
        newMap (foldl (placeSurvivor col) acc l) !! (r, c)
        = if bool_decide (c = col ∧ writeRow acc - Z.of_nat (length l) < r ≤ writeRow acc)
          then l !! Z.to_nat (writeRow acc - r)
          else newMap acc !! (r, c).
Proof.
  induction l as [|h rest IH]; intros acc.
  - cbn [foldl length]. split; [lia|]. split; [reflexivity|].
    intros r c. rewrite bool_decide_eq_false_2 by lia. reflexivity.
  - cbn [foldl]. destruct (IH (placeSurvivor col acc h)) as (Hw & Hf & Hm).
    rewrite Hw, Hf. cbn [placeSurvivor writeRow fresh length].
    split; [lia|]. split; [reflexivity|].
    intros r c. rewrite Hm. cbn [placeSurvivor writeRow newMap].
    destruct (decide (c = col ∧ r = writeRow acc)) as [[-> ->]|Hne].
    + rewrite bool_decide_eq_false_2 by lia.
      rewrite bool_decide_eq_true_2 by lia.
      rewrite lookup_insert_eq, Z.sub_diag. reflexivity.
    + rewrite lookup_insert_ne by (intros Heq; injection Heq as H1 H2; apply Hne; split; congruence).
      destruct (decide (c = col ∧ writeRow acc - 1 - Z.of_nat (length rest) < r
                        ≤ writeRow acc - 1)) as [Hin|Hout].
      * rewrite bool_decide_eq_true_2 by exact Hin.
        rewrite bool_decide_eq_true_2 by lia.
        replace (Z.to_nat (writeRow acc - r))
          with (S (Z.to_nat (writeRow acc - 1 - r))) by lia.
        reflexivity.
      * rewrite bool_decide_eq_false_2 by exact Hout.
        rewrite bool_decide_eq_false_2 by lia. reflexivity.
Qed.

Lemma foldl_placeDrop col (l : list string) :
  ∀ acc,
    writeRow (foldl (placeDrop col) acc l) = writeRow acc - Z.of_nat (length l)
    ∧ fresh (foldl (placeDrop col) acc l) = (fresh acc + length l)%nat
    ∧ ∀ r c,
        newMap (foldl (placeDrop col) acc l) !! (r, c)
        = if bool_decide (c = col ∧ writeRow acc - Z.of_nat (length l) < r ≤ writeRow acc)
          then mkHandle (fresh acc + Z.to_nat (writeRow acc - r))
               <$> l !! Z.to_nat (writeRow acc - r)
          else newMap acc !! (r, c).
Proof.
  induction l as [|h rest IH]; intros acc.
  - cbn [foldl length]. split; [lia|]. split; [lia|].
    intros r c. rewrite bool_decide_eq_false_2 by lia. reflexivity.
  - cbn [foldl]. destruct (IH (placeDrop col acc h)) as (Hw & Hf & Hm).
    rewrite Hw, Hf. cbn [placeDrop writeRow fresh length].
    split; [lia|]. split; [lia|].
    intros r c. rewrite Hm. cbn [placeDrop writeRow newMap fresh].
    destruct (decide (c = col ∧ r = writeRow acc)) as [[-> ->]|Hne].
    + rewrite bool_decide_eq_false_2 by lia.
      rewrite bool_decide_eq_true_2 by lia.
      rewrite lookup_insert_eq, Z.sub_diag.
      change (Z.to_nat 0) with 0%nat. rewrite Nat.add_0_r. reflexivity.
    + rewrite lookup_insert_ne by (intros Heq; injection Heq as H1 H2; apply Hne; split; congruence).
      destruct (decide (c = col ∧ writeRow acc - 1 - Z.of_nat (length rest) < r
                        ≤ writeRow acc - 1)) as [Hin|Hout].
      * rewrite bool_decide_eq_true_2 by exact Hin.
        rewrite bool_decide_eq_true_2 by lia.
        replace (Z.to_nat (writeRow acc - r))
          with (S (Z.to_nat (writeRow acc - 1 - r))) by lia.
        cbn [lookup list_lookup]. 
        replace (S (fresh acc) + Z.to_nat (writeRow acc - 1 - r))%nat
          with (fresh acc + S (Z.to_nat (writeRow acc - 1 - r)))%nat by lia.
        reflexivity.
      * rewrite bool_decide_eq_false_2 by exact Hout.
        rewrite bool_decide_eq_false_2 by lia. reflexivity.
Qed.

Lemma rev_lookup_lt {A : Type} (l : list A) (i : nat) :
  (i < length l)%nat → rev l !! i = l !! (length l - S i)%nat.
Proof. intros Hi. rewrite rev_alt. apply (reverse_lookup l i Hi). Qed.

Lemma fillColumn_snd step rs old rows acc c :
  (fillColumn step rs old rows acc c).2
  = (acc.2 + length (dropSymbolsFor step (Z.of_nat c)))%nat.
Proof.
  unfold fillColumn. cbv zeta. cbn [snd].
  destruct (foldl_placeDrop (Z.of_nat c) (rev (dropSymbolsFor step (Z.of_nat c)))
              (foldl (placeSurvivor (Z.of_nat c)) (mkFill acc.1 acc.2 (Z.of_nat rows - 1))
                 (survivors rs old rows (Z.of_nat c)))) as (_ & Hf & _).
  rewrite Hf.
  destruct (foldl_placeSurvivor (Z.of_nat c) (survivors rs old rows (Z.of_nat c))
              (mkFill acc.1 acc.2 (Z.of_nat rows - 1))) as (_ & Hf' & _).
  rewrite Hf'. cbn [fresh]. rewrite length_rev. reflexivity.
Qed.

(** One column of the gravity drop, read from the bottom row up: the
    survivors, then new containers for the drop symbols, the last symbol
    lowest. *)
Lemma fillColumn_lookup step rs old rows acc c (r c' : Z) :
  (fillColumn step rs old rows acc c).1 !! (r, c')
  = let surv := survivors rs old rows (Z.of_nat c) in
    let drops := dropSymbolsFor step (Z.of_nat c) in
    let bottom := Z.of_nat rows - 1 in
    let k := Z.of_nat (length surv) in
    let d := Z.of_nat (length drops) in
    if bool_decide (c' = Z.of_nat c ∧ bottom - k < r ≤ bottom)
    then surv !! Z.to_nat (bottom - r)
    else if bool_decide (c' = Z.of_nat c ∧ bottom - k - d < r ≤ bottom - k)
    then mkHandle (acc.2 + Z.to_nat (bottom - k - r))
         <$> drops !! Z.to_nat (r - (bottom - k - d + 1))
    else acc.1 !! (r, c').
Proof.
  cbv zeta. unfold fillColumn. cbv zeta. cbn [fst].
  set (surv := survivors rs old rows (Z.of_nat c)).
  set (drops := dropSymbolsFor step (Z.of_nat c)).
  set (start := mkFill acc.1 acc.2 (Z.of_nat rows - 1)).
  destruct (foldl_placeSurvivor (Z.of_nat c) surv start) as (Hw & Hf & Hm).
  destruct (foldl_placeDrop (Z.of_nat c) (rev drops)
              (foldl (placeSurvivor (Z.of_nat c)) start surv)) as (_ & _ & Hm').
  rewrite Hm', Hw, Hf, Hm. unfold start. cbn [writeRow fresh newMap].
  rewrite length_rev.
  repeat case_bool_decide; try (exfalso; lia); try reflexivity.
  f_equal. rewrite rev_lookup_lt by lia. f_equal. lia.
Qed.

Lemma foldl_fillColumn_snd_le step rs old rows cs :
  ∀ acc, (acc.2 ≤ (foldl (fillColumn step rs old rows) acc cs).2)%nat.
Proof.
  induction cs as [|x rest IH]; intros acc; cbn [foldl]; [lia|].
  etransitivity; [|apply IH]. rewrite fillColumn_snd. lia.
Qed.

Lemma foldl_fillColumn_other step rs old rows cs :
  ∀ acc (r c' : Z), c' ∉ Z.of_nat <$> cs →
    (foldl (fillColumn step rs old rows) acc cs).1 !! (r, c') = acc.1 !! (r, c').
Proof.
  induction cs as [|x rest IH]; intros acc r c' Hnotin; [reflexivity|].
  cbn [foldl]. rewrite IH.
  - rewrite fillColumn_lookup. cbv zeta.
    assert (c' ≠ Z.of_nat x).
    { intros ->. apply Hnotin. rewrite fmap_cons. apply list_elem_of_here. }
    repeat case_bool_decide; try (exfalso; lia); reflexivity.
  - intros Hin. apply Hnotin. rewrite fmap_cons. apply list_elem_of_further, Hin.
Qed.

(** The gravity drop on a column it fills once. *)
Lemma foldl_fillColumn_in step rs old rows cs :
  ∀ acc c, NoDup cs → c ∈ cs →
    ∃ base,
      (acc.2 ≤ base)%nat
      ∧ (base + length (dropSymbolsFor step (Z.of_nat c))
         ≤ (foldl (fillColumn step rs old rows) acc cs).2)%nat
      ∧ ∀ r,
          (foldl (fillColumn step rs old rows) acc cs).1 !! (r, Z.of_nat c)
          = let surv := survivors rs old rows (Z.of_nat c) in
            let drops := dropSymbolsFor step (Z.of_nat c) in
            let bottom := Z.of_nat rows - 1 in
            let k := Z.of_nat (length surv) in
            let d := Z.of_nat (length drops) in
            if bool_decide (bottom - k < r ≤ bottom)
            then surv !! Z.to_nat (bottom - r)
            else if bool_decide (bottom - k - d < r ≤ bottom - k)
            then mkHandle (base + Z.to_nat (bottom - k - r))
                 <$> drops !! Z.to_nat (r - (bottom - k - d + 1))
            else acc.1 !! (r, Z.of_nat c).
Proof.
  induction cs as [|x rest IH]; intros acc c Hnodup Hin.
  - apply elem_of_nil in Hin. destruct Hin.
  - apply NoDup_cons in Hnodup as [Hhead Hrest]. cbn [foldl].
    apply elem_of_cons in Hin as [->|Hin].
    + exists acc.2. split; [lia|]. split.
      * etransitivity; [|apply foldl_fillColumn_snd_le]. rewrite fillColumn_snd. lia.
      * intros r. rewrite foldl_fillColumn_other.
        -- rewrite fillColumn_lookup. cbv zeta.
           repeat case_bool_decide; try (exfalso; lia); reflexivity.
        -- intros Hx. apply list_elem_of_fmap in Hx as (y & Heq & Hy).
           apply Nat2Z.inj in Heq. subst y. exact (Hhead Hy).
    + destruct (IH (fillColumn step rs old rows acc x) c Hrest Hin)
        as (base & Hbase & Htop & Hlook).
      exists base. split; [rewrite fillColumn_snd in Hbase; lia|].
      split; [exact Htop|].
      intros r. rewrite Hlook. cbv zeta.
      assert (Hne : c ≠ x) by (intros ->; exact (Hhead Hin)).
      rewrite fillColumn_lookup. cbv zeta.
      repeat case_bool_decide; try (exfalso; lia); reflexivity.
Qed.

Lemma drop_step_column :
  ∀ (env : Env) (st : CascadeStep) (i n : nat) (k : Continuation) (s : Scene)
    (current : Grid) (r c : Z),
    grid s = Some current → getFillMode env ≠ Some replace →
    1 ≤ rows (boardSize s) → 0 ≤ c < cols (boardSize s) →
    let surv :=
      survivors (removeSetOf st) (cellMap s) (Z.to_nat (rows (boardSize s))) c in
    let drops := dropSymbolsFor st c in
    let top := rows (boardSize s) - Z.of_nat (length surv) - Z.of_nat (length drops) in
    (rows (boardSize s) - Z.of_nat (length surv) ≤ r < rows (boardSize s) →
     cellMap (applyStep env st i n k s) !! (r, c)
     = surv !! Z.to_nat (rows (boardSize s) - 1 - r)
     ∧ is_Some (surv !! Z.to_nat (rows (boardSize s) - 1 - r)))
    ∧ (top ≤ r < rows (boardSize s) - Z.of_nat (length surv) →
       ∃ id symbol,
         (nextHandle s ≤ id < nextHandle (applyStep env st i n k s))%nat
         ∧ drops !! Z.to_nat (r - top) = Some symbol
         ∧ cellMap (applyStep env st i n k s) !! (r, c) = Some (mkHandle id symbol))
    ∧ (r < top ∨ rows (boardSize s) ≤ r →
       cellMap (applyStep env st i n k s) !! (r, c) = None).
Proof.
  intros env st i n k s current r c Hgrid Hmode Hrows Hc surv drops top.
  set (R := Z.to_nat (rows (boardSize s))) in *.
  set (C := Z.to_nat (cols (boardSize s))).
  assert (Hmap : cellMap (applyStep env st i n k s)
                 = (dropCells st (removeSetOf st) (cellMap s) (nextHandle s) R C).1).
  { unfold applyStep. rewrite Hgrid.
    destruct (getFillMode env) as [[| |]|]; try congruence; destruct s; reflexivity. }
  assert (Hnext : nextHandle (applyStep env st i n k s)
                  = (dropCells st (removeSetOf st) (cellMap s) (nextHandle s) R C).2).
  { unfold applyStep. rewrite Hgrid.
    destruct (getFillMode env) as [[| |]|]; try congruence; destruct s; reflexivity. }
  rewrite Hmap, Hnext. unfold dropCells.
  destruct (foldl_fillColumn_in st (removeSetOf st) (cellMap s) R (seq 0 C)
              (∅, nextHandle s) (Z.to_nat c) (NoDup_seq 0 C))
    as (base & Hbase & Htop & Hlook).
  { apply elem_of_seq. unfold C. lia. }
  rewrite Z2Nat.id in Hlook, Htop by lia. fold surv drops in Hlook, Htop.
  cbn [fst snd] in Hbase, Hlook.
  assert (HR : Z.of_nat R = rows (boardSize s)) by (unfold R; lia).
  split; [|split].
  - intros Hr. specialize (Hlook r). cbv zeta in Hlook.
    rewrite bool_decide_eq_true_2 in Hlook by lia.
    rewrite Hlook. replace (Z.of_nat R - 1 - r) with (rows (boardSize s) - 1 - r) by lia.
    split; [reflexivity|]. apply lookup_lt_is_Some. lia.
  - intros Hr. specialize (Hlook r). cbv zeta in Hlook.
    rewrite bool_decide_eq_false_2 in Hlook by lia.
    rewrite bool_decide_eq_true_2 in Hlook by lia.
    replace (r - (Z.of_nat R - 1 - Z.of_nat (length surv) - Z.of_nat (length drops) + 1))
      with (r - top) in Hlook by (unfold top; lia).
    destruct (lookup_lt_is_Some_2 drops (Z.to_nat (r - top))) as [symbol Hsym];
      [unfold top; lia|].
    exists (base + Z.to_nat (Z.of_nat R - 1 - Z.of_nat (length surv) - r))%nat, symbol.
    split; [|split; [exact Hsym|]].
    + unfold top in Hr. lia.
    + rewrite Hlook, Hsym. reflexivity.
  - intros Hr. specialize (Hlook r). cbv zeta in Hlook.
    rewrite bool_decide_eq_false_2 in Hlook by (unfold top in Hr; lia).
    rewrite bool_decide_eq_false_2 in Hlook by (unfold top in Hr; lia).
    rewrite Hlook. apply lookup_empty.
Qed.

Lemma replace_step_keeps_or_recreates_witness :
  grid drawnScene = Some sampleGrid
  ∧ getFillMode (sampleEnv (Some replace)) = Some replace
  ∧ cellMap drawnScene !! (1, 1) = Some (mkHandle 6 "N")
  ∧ cellMap (applyStep (sampleEnv (Some replace)) firstStep 0 2
               (AfterStep samplePlay 0) drawnScene) !! (1, 1)
    = Some (mkHandle 6 "N")
  ∧ ∃ id, cellMap (applyStep (sampleEnv (Some replace)) firstStep 0 2
                     (AfterStep samplePlay 0) drawnScene) !! (1, 0)
          = Some (mkHandle id "Y").
Proof.
  split; [reflexivity|]. split; [reflexivity|]. split; [reflexivity|].
  split.
  - destruct (replace_step_keeps_or_recreates (sampleEnv (Some replace)) firstStep
                0 2 (AfterStep samplePlay 0) drawnScene sampleGrid 1 1
                eq_refl eq_refl) as (_ & Hkept & _).
    apply Hkept; [vm_compute; split; congruence|vm_compute; split; congruence
                 |reflexivity|].
    intros Hin. vm_compute in Hin.
    repeat (apply elem_of_cons in Hin as [Hin|Hin]; [discriminate|]).
    apply elem_of_nil in Hin. exact Hin.
  - destruct (replace_step_keeps_or_recreates (sampleEnv (Some replace)) firstStep
                0 2 (AfterStep samplePlay 0) drawnScene sampleGrid 1 0
                eq_refl eq_refl) as (_ & _ & Hnew).
    destruct Hnew as (id & _ & Hid);
      [vm_compute; split; congruence|vm_compute; split; congruence| |].
    + right. vm_compute. apply list_elem_of_further, list_elem_of_here.
    + exists id. exact Hid.
Defined.

(** X4.  A step applied in a fill mode other than [replace], for a
    column of the board read from its bottom row up: first the containers
    that survive, in the order they had; above them new containers for the
    [dropIn] symbols of the column, with fresh identities, the symbols top
    down in the order [dropIn] lists them; and no container on any other
    row.  A column with more survivors and drop symbols than rows gets
    containers on negative rows. *)
Theorem drop_step_stacks_survivors_then_drops :
  ∀ (env : Env) (st : CascadeStep) (i n : nat) (k : Continuation) (s : Scene)
    (current : Grid) (r c : Z),
    grid s = Some current → getFillMode env ≠ Some replace →
    1 ≤ rows (boardSize s) → 0 ≤ c < cols (boardSize s) →
    let surv :=
      survivors (removeSetOf st) (cellMap s) (Z.to_nat (rows (boardSize s))) c in
    let drops := dropSymbolsFor st c in
    let top := rows (boardSize s) - Z.of_nat (length surv) - Z.of_nat (length drops) in
    (rows (boardSize s) - Z.of_nat (length surv) ≤ r < rows (boardSize s) →
     cellMap (applyStep env st i n k s) !! (r, c)
     = surv !! Z.to_nat (rows (boardSize s) - 1 - r)
     ∧ is_Some (surv !! Z.to_nat (rows (boardSize s) - 1 - r)))
    ∧ (top ≤ r < rows (boardSize s) - Z.of_nat (length surv) →
       ∃ id symbol,
         (nextHandle s ≤ id < nextHandle (applyStep env st i n k s))%nat
         ∧ drops !! Z.to_nat (r - top) = Some symbol
         ∧ cellMap (applyStep env st i n k s) !! (r, c) = Some (mkHandle id symbol))
    ∧ (r < top ∨ rows (boardSize s) ≤ r →
       cellMap (applyStep env st i n k s) !! (r, c) = None).
Proof. exact drop_step_column. Qed.

Lemma drop_step_stacks_survivors_then_drops_witness :
  grid drawnScene = Some sampleGrid
  ∧ getFillMode (sampleEnv (Some cascade)) ≠ Some replace
  ∧ 1 ≤ rows (boardSize drawnScene) ∧ 0 ≤ 0 < cols (boardSize drawnScene)
  ∧ survivors (removeSetOf firstStep) (cellMap drawnScene) 3 0 = []
  ∧ dropSymbolsFor firstStep 0 = ["X"; "Y"; "Z"]%string
  ∧ ∃ id, cellMap (applyStep (sampleEnv (Some cascade)) firstStep 0 2
                     (AfterStep samplePlay 0) drawnScene) !! (2, 0)
          = Some (mkHandle id "Z").
Proof.
  assert (Hmode : getFillMode (sampleEnv (Some cascade)) ≠ Some replace)
    by discriminate.
  split; [reflexivity|]. split; [exact Hmode|].
  split; [vm_compute; congruence|]. split; [vm_compute; split; congruence|].
  split; [reflexivity|]. split; [reflexivity|].
  destruct (drop_step_stacks_survivors_then_drops (sampleEnv (Some cascade)) firstStep
              0 2 (AfterStep samplePlay 0) drawnScene sampleGrid 2 0
              eq_refl Hmode) as (_ & Hdrop & _).
  - vm_compute. congruence.
  - vm_compute. split; congruence.
  - destruct Hdrop as (id & symbol & _ & Hsym & Hid).
    + vm_compute. split; congruence.
    + exists id. vm_compute in Hsym. injection Hsym as <-. exact Hid.
Defined.

Lemma length_omap_filter {A B : Type} (f : A → option B) (P : A → Prop)
    `{∀ x, Decision (P x)} (l : list A) :
  (∀ x, f x = None ↔ P x) →
  (length (omap f l) + length (filter P l) = length l)%nat.
Proof.
  intros Hf. induction l as [|x l IH]; [reflexivity|].
  cbn [omap list_omap length]. destruct (f x) as [y|] eqn:Hx.
  - rewrite filter_cons_False by (rewrite <- Hf; congruence). cbn [length]. lia.
  - rewrite filter_cons_True by (apply Hf; exact Hx). cbn [length]. lia.
Qed.

Lemma length_omap_rev {A B : Type} (f : A → option B) (l : list A) :
  length (omap f (rev l)) = length (omap f l).
Proof.
  induction l as [|x l IH]; [reflexivity|].
  cbn [rev]. rewrite omap_app, length_app, IH.
  cbn [omap list_omap]. destruct (f x); cbn [length]; lia.
Qed.

Lemma survivors_position rs old rows r0 col h :
  (r0 < rows)%nat → old !! (Z.of_nat r0, col) = Some h → (Z.of_nat r0, col) ∉ rs →
  (vacatedBelow rs old rows r0 col ≤ rows - 1 - r0)%nat
  ∧ survivors rs old rows col !! (rows - 1 - r0 - vacatedBelow rs old rows r0 col)%nat
    = Some h.
Proof.
  intros Hr Hold Hkeep. unfold survivors, vacatedBelow.
  set (f := fun r : nat => if bool_decide ((Z.of_nat r, col) ∈ rs) then None
                           else old !! (Z.of_nat r, col)).
  set (P := fun r : nat => (Z.of_nat r, col) ∈ rs ∨ old !! (Z.of_nat r, col) = None).
  set (upper := seq (S r0) (rows - S r0)).
  assert (Hf : ∀ x, f x = None ↔ P x).
  { intros x. unfold f, P. case_bool_decide; [tauto|].
    split; [intros Hn; right; exact Hn|intros [Hin|Hn]; [contradiction|exact Hn]]. }
  pose proof (length_omap_filter f P upper Hf) as Hcount.
  assert (Hupper : length upper = (rows - S r0)%nat) by (unfold upper; apply length_seq).
  assert (Hsplit : seq 0 rows = seq 0 r0 ++ r0 :: upper).
  { unfold upper. replace rows with (r0 + S (rows - S r0))%nat at 1 by lia.
    rewrite seq_app. cbn [seq plus]. reflexivity. }
  rewrite Hsplit, rev_app_distr. cbn [rev]. rewrite <- app_assoc.
  rewrite omap_app. cbn [app omap list_omap]. fold (omap f (rev (seq 0 r0))).
  assert (Hf0 : f r0 = Some h).
  { unfold f. rewrite bool_decide_eq_false_2 by exact Hkeep. exact Hold. }
  rewrite Hf0. split; [lia|].
  rewrite lookup_app_r by (rewrite length_omap_rev; lia).
  rewrite length_omap_rev.
  replace (rows - 1 - r0 - length (filter P upper) - length (omap f upper))%nat
    with 0%nat by lia.
  reflexivity.
Qed.

(** X5.  Gravity: in a fill mode other than [replace], a container of
    the board that the step does not remove ends up in its column as many
    rows lower as there are vacated cells (removed or without container)
    below it. *)
Theorem drop_step_survivor_falls_by_vacated_cells :
  ∀ (env : Env) (st : CascadeStep) (i n : nat) (k : Continuation) (s : Scene)
    (current : Grid) (r c : Z) (h : Handle),
    grid s = Some current → getFillMode env ≠ Some replace →
    0 ≤ r < rows (boardSize s) → 0 ≤ c < cols (boardSize s) →
    cellMap s !! (r, c) = Some h → mkCell r c ∉ removeCells st →
    cellMap (applyStep env st i n k s)
    !! (r + Z.of_nat (vacatedBelow (removeSetOf st) (cellMap s)
                        (Z.to_nat (rows (boardSize s))) (Z.to_nat r) c), c)
    = Some h.
Proof.
  intros env st i n k s current r c h Hgrid Hmode Hr Hc Hold Hkeep.
  set (R := Z.to_nat (rows (boardSize s))).
  set (v := vacatedBelow (removeSetOf st) (cellMap s) R (Z.to_nat r) c).
  destruct (survivors_position (removeSetOf st) (cellMap s) R (Z.to_nat r) c h)
    as [Hv Hpos].
  { unfold R. lia. }
  { rewrite Z2Nat.id by lia. exact Hold. }
  { rewrite Z2Nat.id by lia. rewrite elem_of_removeSetOf. exact Hkeep. }
  fold v in Hv, Hpos.
  pose proof (lookup_lt_Some _ _ _ Hpos) as Hlt. fold R in Hlt.
  destruct (drop_step_column env st i n k s current (r + Z.of_nat v) c Hgrid Hmode
              ltac:(lia) Hc) as (Hsurv & _ & _).
  destruct Hsurv as [Hlook _].
  { fold R. unfold R in *. lia. }
  rewrite Hlook. fold R.
  replace (Z.to_nat (rows (boardSize s) - 1 - (r + Z.of_nat v)))
    with (R - 1 - Z.to_nat r - v)%nat by (unfold R in *; lia).
  exact Hpos.
Qed.

(** *** Double arithmetic *)

Lemma pow2_pos e : (0 < Double.pow2 e)%Q.
Proof.
  unfold Double.pow2. destruct (0 <=? e) eqn:E.
  - apply Z.leb_le in E. rewrite <- (Zlt_Qlt 0). apply Z.pow_pos_nonneg; lia.
  - apply Z.leb_gt in E. apply Qinv_lt_0_compat. rewrite <- (Zlt_Qlt 0).
    apply Z.pow_pos_nonneg; lia.
Qed.

Lemma pow2_succ e : (Double.pow2 (e + 1) == 2 * Double.pow2 e)%Q.
Proof.
  unfold Double.pow2.
  destruct (Z.leb_spec 0 e) as [He|He]; destruct (Z.leb_spec 0 (e + 1)) as [He'|He'];
    try lia.
  - rewrite Z.pow_add_r by lia. rewrite inject_Z_mult. change (inject_Z (2 ^ 1)) with 2%Q.
    ring.
  - assert (e = -1) by lia. subst e. reflexivity.
  - replace (- e) with (- (e + 1) + 1) by lia. rewrite Z.pow_add_r by lia.
    rewrite inject_Z_mult. change (inject_Z (2 ^ 1)) with 2%Q.
    assert (Hp : (0 < inject_Z (2 ^ (- (e + 1))))%Q).
    { rewrite <- (Zlt_Qlt 0). apply Z.pow_pos_nonneg; lia. }
    field. lra.
Qed.

Lemma pow2_add a b : (Double.pow2 (a + b) == Double.pow2 a * Double.pow2 b)%Q.
Proof.
  assert (Hnat : ∀ n : nat, ∀ a, (Double.pow2 (a + Z.of_nat n)
                                 == Double.pow2 a * Double.pow2 (Z.of_nat n))%Q).
  { induction n as [|n IH]; intros a'.
    - rewrite Z.add_0_r. change (Double.pow2 (Z.of_nat 0)) with 1%Q. ring.
    - rewrite Nat2Z.inj_succ. unfold Z.succ. rewrite Z.add_assoc.
      rewrite !pow2_succ, IH. ring. }
  destruct (Z_le_gt_dec 0 b) as [Hb|Hb].
  - rewrite <- (Z2Nat.id b Hb). apply Hnat.
  - pose proof (Hnat (Z.to_nat (- b)) (a + b)) as H1.
    pose proof (Hnat (Z.to_nat (- b)) b) as H2.
    rewrite Z2Nat.id in H1, H2 by lia.
    replace (a + b + - b) with a in H1 by lia.
    replace (b + - b) with 0 in H2 by lia.
    change (Double.pow2 0) with 1%Q in H2.
    pose proof (pow2_pos (- b)) as Hp. pose proof (pow2_pos b) as Hq.
    rewrite H1.
    assert (Hinv : (Double.pow2 b * Double.pow2 (- b) == 1)%Q) by (rewrite <- H2; reflexivity).
    transitivity (Double.pow2 (a + b) * (Double.pow2 b * Double.pow2 (- b)))%Q.
    + rewrite Hinv. ring.
    + ring.
Qed.

Lemma pow2_le a b : a ≤ b → (Double.pow2 a <= Double.pow2 b)%Q.
Proof.
  intros Hab. replace b with (a + Z.of_nat (Z.to_nat (b - a))) by lia.
  generalize (Z.to_nat (b - a)) as n. induction n as [|n IH].
  - rewrite Z.add_0_r. lra.
  - rewrite Nat2Z.inj_succ. unfold Z.succ. rewrite Z.add_assoc, pow2_succ.
    pose proof (pow2_pos (a + Z.of_nat n)). lra.
Qed.

Lemma pow2_lt a b : a < b → (Double.pow2 a < Double.pow2 b)%Q.
Proof.
  intros Hab. pose proof (pow2_le (a + 1) b ltac:(lia)) as Hle.
  rewrite pow2_succ in Hle. pose proof (pow2_pos a). lra.
Qed.

Lemma pow2_Z e : 0 ≤ e → Double.pow2 e = inject_Z (2 ^ e).
Proof. intros He. unfold Double.pow2. apply Z.leb_le in He. rewrite He. reflexivity. Qed.

Lemma exponent_spec x :
  (0 < x)%Q →
  (Double.pow2 (Double.exponent x) <= x < Double.pow2 (Double.exponent x + 1))%Q.
Proof.
  intros Hx. unfold Double.exponent.
  set (n := Qnum x). set (d := Zpos (Qden x)).
  assert (Hn : 0 < n) by (unfold n; unfold Qlt in Hx; cbn in Hx; lia).
  assert (Hd : 0 < d) by (unfold d; lia).
  set (a := Z.log2 n). set (b := Z.log2 d).
  destruct (Z.log2_spec n Hn) as [Ha1 Ha2]. fold a in Ha1, Ha2.
  destruct (Z.log2_spec d Hd) as [Hb1 Hb2]. fold b in Hb1, Hb2.
  assert (Ha0 : 0 ≤ a) by apply Z.log2_nonneg.
  assert (Hb0 : 0 ≤ b) by apply Z.log2_nonneg.
  assert (Hxd : (x * inject_Z d == inject_Z n)%Q).
  { unfold n, d. destruct x as [xn xd]. unfold Qeq, Qmult, inject_Z. cbn. lia. }
  assert (HdQ : (0 < inject_Z d)%Q) by (rewrite <- (Zlt_Qlt 0); exact Hd).
  assert (Hna : (Double.pow2 a <= inject_Z n)%Q)
    by (rewrite pow2_Z by lia; rewrite <- Zle_Qle; exact Ha1).
  assert (Hna' : (inject_Z n < Double.pow2 (a + 1))%Q).
  { rewrite pow2_Z by lia. rewrite <- Zlt_Qlt. replace (a + 1) with (Z.succ a) by lia.
    exact Ha2. }
  assert (Hdb : (Double.pow2 b <= inject_Z d)%Q)
    by (rewrite pow2_Z by lia; rewrite <- Zle_Qle; exact Hb1).
  assert (Hdb' : (inject_Z d < Double.pow2 (b + 1))%Q).
  { rewrite pow2_Z by lia. rewrite <- Zlt_Qlt. replace (b + 1) with (Z.succ b) by lia.
    exact Hb2. }
  set (k := a - b).
  assert (Hlow : (Double.pow2 (k - 1) < x)%Q).
  { pose proof (pow2_add (k - 1) (b + 1)) as Hadd.
    replace (k - 1 + (b + 1)) with a in Hadd by (unfold k; lia).
    pose proof (pow2_pos (k - 1)). pose proof (pow2_pos (b + 1)).
    apply Qnot_le_lt. intros Hle.
    assert ((x * inject_Z d < Double.pow2 (k - 1) * Double.pow2 (b + 1))%Q); [|lra].
    apply Qle_lt_trans with (Double.pow2 (k - 1) * inject_Z d)%Q.
    - apply Qmult_le_compat_r; lra.
    - apply Qmult_lt_l; lra. }
  assert (Hhigh : (x < Double.pow2 (k + 1))%Q).
  { pose proof (pow2_add (k + 1) b) as Hadd.
    replace (k + 1 + b) with (a + 1) in Hadd by (unfold k; lia).
    pose proof (pow2_pos (k + 1)). pose proof (pow2_pos b).
    apply Qnot_le_lt. intros Hle.
    assert ((Double.pow2 (k + 1) * Double.pow2 b <= x * inject_Z d)%Q); [|lra].
    apply Qle_trans with (Double.pow2 (k + 1) * inject_Z d)%Q.
    - apply Qmult_le_l; lra.
    - apply Qmult_le_compat_r; lra. }
  destruct (Qle_bool (Double.pow2 k) x) eqn:E.
  - apply Qle_bool_iff in E. split; [exact E|exact Hhigh].
  - split; [lra|]. replace (k - 1 + 1) with k by lia.
    apply Qnot_le_lt. intros Hle. apply Qle_bool_iff in Hle. congruence.
Qed.

Lemma exponent_unique x e :
  (Double.pow2 e <= x < Double.pow2 (e + 1))%Q → Double.exponent x = e.
Proof.
  intros [H1 H2]. pose proof (pow2_pos e) as Hp.
  destruct (exponent_spec x ltac:(lra)) as [H3 H4].
  destruct (Z.lt_trichotomy (Double.exponent x) e) as [Hlt|[Heq|Hgt]]; [|exact Heq|].
  - pose proof (pow2_le (Double.exponent x + 1) e ltac:(lia)). lra.
  - pose proof (pow2_le (e + 1) (Double.exponent x) ltac:(lia)). lra.
Qed.

Lemma exponent_le x y : (0 < x)%Q → (x <= y)%Q → Double.exponent x ≤ Double.exponent y.
Proof.
  intros Hx Hxy. destruct (exponent_spec x Hx) as [H1 H2].
  destruct (exponent_spec y ltac:(lra)) as [H3 H4].
  destruct (Z_le_gt_dec (Double.exponent x) (Double.exponent y)) as [H|H]; [exact H|].
  pose proof (pow2_le (Double.exponent y + 1) (Double.exponent x) ltac:(lia)). lra.
Qed.

Lemma roundEven_bounds x :
  (inject_Z (Double.roundEven x) - (1 # 2) <= x <= inject_Z (Double.roundEven x) + (1 # 2))%Q.
Proof.
  unfold Double.roundEven.
  pose proof (Qfloor_le x) as Hlo. pose proof (Qlt_floor x) as Hhi.
  rewrite inject_Z_plus in Hhi. change (inject_Z 1) with 1%Q in Hhi.
  destruct (Qcompare_spec (x - inject_Z (Qfloor x)) (1 # 2)) as [E|E|E].
  - destruct (Z.even (Qfloor x)); [lra|].
    rewrite inject_Z_plus. change (inject_Z 1) with 1%Q. lra.
  - lra.
  - rewrite inject_Z_plus. change (inject_Z 1) with 1%Q. lra.
Qed.

Lemma roundEven_Z x n : (x == inject_Z n)%Q → Double.roundEven x = n.
Proof.
  intros Hx. unfold Double.roundEven.
  assert (Hf : Qfloor x = n) by (rewrite Hx; apply Qfloor_Z).
  rewrite Hf.
  destruct (Qcompare_spec (x - inject_Z n) (1 # 2)) as [E|E|E];
    [exfalso; lra|reflexivity|exfalso; lra].
Qed.

Lemma roundEven_le x y : (x <= y)%Q → Double.roundEven x ≤ Double.roundEven y.
Proof.
  intros Hxy.
  pose proof (Qfloor_resp_le _ _ Hxy) as Hfloor.
  pose proof (Qfloor_le x) as Hxlo. pose proof (Qlt_floor x) as Hxhi.
  pose proof (Qfloor_le y) as Hylo. pose proof (Qlt_floor y) as Hyhi.
  rewrite inject_Z_plus in Hxhi, Hyhi. change (inject_Z 1) with 1%Q in Hxhi, Hyhi.
  unfold Double.roundEven.
  destruct (Z.eq_dec (Qfloor x) (Qfloor y)) as [Heq|Hne].
  - rewrite <- Heq.
    destruct (Qcompare_spec (x - inject_Z (Qfloor x)) (1 # 2)) as [Ex|Ex|Ex];
      destruct (Qcompare_spec (y - inject_Z (Qfloor x)) (1 # 2)) as [Ey|Ey|Ey];
      try (exfalso; lra); try (destruct (Z.even (Qfloor x))); lia.
  - assert (Hlt : Qfloor x + 1 ≤ Qfloor y) by lia.
    destruct (Qcompare_spec (x - inject_Z (Qfloor x)) (1 # 2));
      destruct (Qcompare_spec (y - inject_Z (Qfloor y)) (1 # 2));
      try destruct (Z.even (Qfloor x)); try destruct (Z.even (Qfloor y)); lia.
Qed.

Lemma nearest_le x y : (0 < x)%Q → (x <= y)%Q → (Double.nearest x <= Double.nearest y)%Q.
Proof.
  intros Hx Hxy. assert (Hy : (0 < y)%Q) by lra.
  pose proof (exponent_le x y Hx Hxy) as He.
  destruct (exponent_spec x Hx) as [Hx1 Hx2]. destruct (exponent_spec y Hy) as [Hy1 Hy2].
  unfold Double.nearest.
  set (ex := Double.exponent x) in *. set (ey := Double.exponent y) in *.
  set (kx := Z.max ex (-1022) - 52). set (ky := Z.max ey (-1022) - 52).
  pose proof (pow2_pos kx) as Hqx. pose proof (pow2_pos ky) as Hqy.
  destruct (Z.eq_dec kx ky) as [Heq|Hne].
  - rewrite <- Heq. apply Qmult_le_compat_r; [|lra].
    rewrite <- Zle_Qle. apply roundEven_le.
    apply Qmult_le_compat_r; [exact Hxy|]. apply Qlt_le_weak, Qinv_lt_0_compat, Hqx.
  - assert (Hk : kx < ky) by (unfold kx, ky in *; lia).
    assert (Hey : -1022 < ey ∧ ex < ey) by (unfold kx, ky in *; lia).
    destruct Hey as [Hey1 Hey2].
    assert (Hky : ky = ey - 52) by (unfold ky; lia).
    (* the upper side: y is at least 2 ^ ey, a multiple of its quantum *)
    assert (Hupper : (Double.pow2 ey <= inject_Z (Double.roundEven (y / Double.pow2 ky))
                                        * Double.pow2 ky)%Q).
    { pose proof (pow2_add 52 ky) as Hadd. replace (52 + ky) with ey in Hadd by lia.
      rewrite Hadd. apply Qmult_le_compat_r; [|lra].
      rewrite (pow2_Z 52) by lia. rewrite <- Zle_Qle.
      apply Z.le_trans with (Double.roundEven (inject_Z (2 ^ 52)));
        [rewrite (roundEven_Z _ (2 ^ 52)) by reflexivity; lia|].
      apply roundEven_le. apply Qle_shift_div_l; [exact Hqy|].
      rewrite <- (pow2_Z 52) by lia. rewrite <- Hadd. exact Hy1. }
    (* the lower side: x is below 2 ^ m, a multiple of its quantum, m <= ey *)
    set (m := Z.max (ex + 1) kx).
    assert (Hm : m ≤ ey) by (unfold m; lia).
    assert (Hlower : (inject_Z (Double.roundEven (x / Double.pow2 kx)) * Double.pow2 kx
                      <= Double.pow2 m)%Q).
    { pose proof (pow2_add (m - kx) kx) as Hadd. replace (m - kx + kx) with m in Hadd by lia.
      rewrite Hadd. apply Qmult_le_compat_r; [|lra].
      rewrite (pow2_Z (m - kx)) by (unfold m; lia). rewrite <- Zle_Qle.
      apply Z.le_trans with (Double.roundEven (inject_Z (2 ^ (m - kx))));
        [|rewrite (roundEven_Z _ (2 ^ (m - kx))) by reflexivity; lia].
      apply roundEven_le. apply Qle_shift_div_r; [exact Hqx|].
      rewrite <- (pow2_Z (m - kx)) by (unfold m; lia). rewrite <- Hadd.
      pose proof (pow2_le (ex + 1) m ltac:(unfold m; lia)). lra. }
    pose proof (pow2_le m ey Hm). lra.
Qed.

Lemma nearest_nonneg x : (0 < x)%Q → (0 <= Double.nearest x)%Q.
Proof.
  intros Hx. unfold Double.nearest.
  set (q := Double.pow2 _). assert (Hq : (0 < q)%Q) by apply pow2_pos.
  apply Qmult_le_0_compat; [|lra]. rewrite <- (Zle_Qle 0).
  apply Z.le_trans with (Double.roundEven (inject_Z 0));
    [rewrite (roundEven_Z _ 0) by reflexivity; lia|].
  apply roundEven_le. apply Qle_shift_div_l; [exact Hq|]. change (inject_Z 0) with 0%Q. lra.
Qed.

Lemma Qnum_sign x :
  match Qnum x with
  | Z0 => (x == 0)%Q
  | Zpos _ => (0 < x)%Q
  | Zneg _ => (x < 0)%Q
  end.
Proof. destruct x as [[|p|p] d]; unfold Qeq, Qlt; cbn; lia. Qed.

Lemma Qnum_opp_neg x : (x < 0)%Q → (0 < - x)%Q.
Proof. intros H. lra. Qed.

Lemma roundFinite_le x y : (x <= y)%Q → (Double.roundFinite x <= Double.roundFinite y)%Q.
Proof.
  intros Hxy. unfold Double.roundFinite.
  pose proof (Qnum_sign x) as Hx. pose proof (Qnum_sign y) as Hy.
  destruct (Qnum x) eqn:Ex; destruct (Qnum y) eqn:Ey;
    try lra; try (exfalso; lra);
    try (pose proof (nearest_nonneg y Hy));
    try (pose proof (nearest_nonneg (- x) ltac:(lra)));
    try lra.
  - apply nearest_le; assumption.
  - assert ((Double.nearest (- y) <= Double.nearest (- x))%Q); [|lra].
    apply nearest_le; lra.
Qed.

Lemma round_roundFinite x :
  Double.round x
  = if Qle_bool (Double.pow2 1024) (Double.roundFinite x) then Double.pow2 1024
    else if Qle_bool (Double.roundFinite x) (- Double.pow2 1024) then (- Double.pow2 1024)%Q
    else Double.roundFinite x.
Proof. reflexivity. Qed.

Lemma round_le x y : (x <= y)%Q → (Double.round x <= Double.round y)%Q.
Proof.
  intros Hxy. pose proof (roundFinite_le x y Hxy) as Hle.
  rewrite !round_roundFinite. pose proof (pow2_pos 1024) as Hp.
  destruct (Qle_bool (Double.pow2 1024) (Double.roundFinite x)) eqn:E1;
    destruct (Qle_bool (Double.pow2 1024) (Double.roundFinite y)) eqn:E2;
    destruct (Qle_bool (Double.roundFinite x) (- Double.pow2 1024)) eqn:E3;
    destruct (Qle_bool (Double.roundFinite y) (- Double.pow2 1024)) eqn:E4;
    repeat match goal with
           | H : Qle_bool _ _ = true |- _ => apply Qle_bool_iff in H
           | H : Qle_bool ?a ?b = false |- _ =>
               assert (b < a)%Q
                 by (apply Qnot_le_lt; intros Hc; apply Qle_bool_iff in Hc; congruence);
               clear H
           end; lra.
Qed.

Lemma round_comp x y : (x == y)%Q → (Double.round x == Double.round y)%Q.
Proof.
  intros Hxy. apply Qle_antisym; apply round_le; lra.
Qed.

Lemma round_Z n : Z.abs n ≤ 2 ^ 53 → (Double.round (inject_Z n) == inject_Z n)%Q.
Proof.
  intros Hn.
  assert (Hpos : ∀ m, 0 < m ≤ 2 ^ 53 → (Double.nearest (inject_Z m) == inject_Z m)%Q).
  { intros m Hm.
    destruct (Z.log2_spec m ltac:(lia)) as [H1 H2].
    set (e := Z.log2 m) in *. assert (He0 : 0 ≤ e) by apply Z.log2_nonneg.
    assert (He53 : e ≤ 53).
    { destruct (Z_le_gt_dec e 53) as [H|H]; [exact H|].
      pose proof (Z.pow_le_mono_r 2 54 e ltac:(lia) ltac:(lia)). lia. }
    assert (Hexp : Double.exponent (inject_Z m) = e).
    { apply exponent_unique. rewrite !pow2_Z by lia. rewrite <- Zle_Qle, <- Zlt_Qlt.
      replace (e + 1) with (Z.succ e) by lia. split; assumption. }
    unfold Double.nearest. rewrite Hexp.
    replace (Z.max e (-1022) - 52) with (e - 52) by lia.
    pose proof (pow2_pos (e - 52)) as Hq.
    assert (Hint : ∃ k, (inject_Z m / Double.pow2 (e - 52) == inject_Z k)%Q).
    { destruct (Z.eq_dec e 53) as [->|Hne].
      - assert (m = 2 ^ 53) by lia. subst m. exists (2 ^ 52). reflexivity.
      - exists (m * 2 ^ (52 - e)). rewrite inject_Z_mult, <- pow2_Z by lia.
        pose proof (pow2_add (e - 52) (52 - e)) as Hadd.
        replace (e - 52 + (52 - e)) with 0 in Hadd by lia.
        change (Double.pow2 0) with 1%Q in Hadd.
        pose proof (pow2_pos (52 - e)) as Hq'.
        apply Qmult_inj_r with (Double.pow2 (e - 52)); [lra|].
        transitivity (inject_Z m); [field; lra|].
        transitivity (inject_Z m * (Double.pow2 (e - 52) * Double.pow2 (52 - e)))%Q;
          [rewrite <- Hadd; ring|ring]. }
    destruct Hint as [k Hk]. rewrite (roundEven_Z _ k Hk), <- Hk. field. lra. }
  assert (Hfin : (Double.roundFinite (inject_Z n) == inject_Z n)%Q).
  { unfold Double.roundFinite. destruct n as [|p|p]; cbn [Qnum inject_Z].
    - reflexivity.
    - apply (Hpos (Z.pos p)). lia.
    - change (- inject_Z (Z.neg p))%Q with (inject_Z (Z.pos p)).
      rewrite (Hpos (Z.pos p)) by lia. reflexivity. }
  rewrite round_roundFinite.
  assert (Hbound : (- inject_Z (2 ^ 53) <= Double.roundFinite (inject_Z n) <= inject_Z (2 ^ 53))%Q).
  { rewrite Hfin. rewrite <- inject_Z_opp, <- !Zle_Qle. lia. }
  assert (Hbig : (inject_Z (2 ^ 53) < Double.pow2 1024)%Q).
  { rewrite <- pow2_Z by lia. apply pow2_lt. lia. }
  destruct (Qle_bool (Double.pow2 1024) (Double.roundFinite (inject_Z n))) eqn:E1.
  { apply Qle_bool_iff in E1. lra. }
  destruct (Qle_bool (Double.roundFinite (inject_Z n)) (- Double.pow2 1024)) eqn:E2.
  { apply Qle_bool_iff in E2. lra. }
  exact Hfin.
Qed.

Lemma round_eq_Z x n : Z.abs n ≤ 2 ^ 53 → (x == inject_Z n)%Q → (Double.round x == inject_Z n)%Q.
Proof. intros Hn Hx. rewrite (round_comp _ _ Hx). apply round_Z, Hn. Qed.

Lemma integer_exact z : Z.abs z ≤ 2 ^ 53 → Double.integer z = z.
Proof.
  intros Hz. unfold Double.integer. rewrite (round_Z z Hz). apply Qfloor_Z.
Qed.

Lemma exists_min_row (cells : list CellRef) :
  cells ≠ [] → ∃ m, m ∈ cells ∧ ∀ x, x ∈ cells → row m ≤ row x.
Proof.
  induction cells as [|a rest IH]; [congruence|]. intros _.
  destruct rest as [|b rest'].
  - exists a. split; [apply list_elem_of_here|].
    intros x Hx. apply list_elem_of_singleton in Hx. subst x. lia.
  - destruct IH as (m & Hm & Hmin); [congruence|].
    destruct (Z_le_gt_dec (row a) (row m)) as [Hle|Hgt].
    + exists a. split; [apply list_elem_of_here|].
      intros x Hx. apply elem_of_cons in Hx as [->|Hx]; [lia|].
      specialize (Hmin x Hx). lia.
    + exists m. split; [apply list_elem_of_further, Hm|].
      intros x Hx. apply elem_of_cons in Hx as [->|Hx]; [lia|].
      apply Hmin, Hx.
Qed.

Lemma sum_list_elem_le (l : list nat) (x : nat) : x ∈ l → (x ≤ sum_list l)%nat.
Proof.
  induction l as [|y l IH]; intros Hin; [apply elem_of_nil in Hin; destruct Hin|].
  cbn [sum_list sum_list_with]. unfold id.
  apply elem_of_cons in Hin as [->|Hin]; [lia|].
  specialize (IH Hin). apply (Nat.le_trans _ _ _ IH). apply Nat.le_add_l.
Qed.

Lemma contourSegments_positive (cells : list CellRef) :
  Forall (fun cell => - 2 ^ 53 < row cell < 2 ^ 53) cells →
  cells ≠ [] → (0 < contourSegments cells)%nat.
Proof.
  intros Hsafe Hne. destruct (exists_min_row cells Hne) as (m & Hm & Hmin).
  unfold contourSegments. cbv zeta.
  set (term := fun cell : CellRef => _).
  assert (Hterm : (1 ≤ term m)%nat).
  { unfold term.
    rewrite Forall_forall in Hsafe. pose proof (Hsafe m Hm) as Hrange.
    rewrite (integer_exact (row m - 1)) by lia.
    rewrite (bool_decide_eq_false_2 ((row m - 1, col m) ∈ cellKey <$> cells)).
    - lia.
    - intros Hin. apply list_elem_of_fmap in Hin as (x & Heq & Hx).
      unfold cellKey in Heq. injection Heq as Hrow _.
      specialize (Hmin x Hx). lia. }
  assert (Hin : term m ∈ term <$> cells)
    by (apply list_elem_of_fmap; exists m; split; [reflexivity|exact Hm]).
  apply sum_list_elem_le in Hin. lia.
Qed.

Lemma playMatchContour_nonempty (cells : list CellRef) :
  Forall (fun cell => - 2 ^ 53 < row cell < 2 ^ 53) cells →
  playMatchContour cells = if bool_decide (cells = []) then 0 else MATCH_CONTOUR_DURATION.
Proof.
  intros Hsafe.
  unfold playMatchContour. destruct cells as [|a rest]; [reflexivity|].
  rewrite bool_decide_eq_false_2 by congruence.
  pose proof (contourSegments_positive (a :: rest) Hsafe ltac:(congruence)) as Hpos.
  destruct (Nat.eqb_spec (contourSegments (a :: rest)) 0); [lia|reflexivity].
Qed.

Lemma drop_step_survivor_falls_by_vacated_cells_witness :
  grid drawnScene = Some sampleGrid
  ∧ getFillMode (sampleEnv (Some cascade)) ≠ Some replace
  ∧ cellMap drawnScene !! (0, 1) = Some (mkHandle 1 "B")
  ∧ vacatedBelow (removeSetOf gravityStep) (cellMap drawnScene) 3 0 1 = 1%nat
  ∧ cellMap (applyStep (sampleEnv (Some cascade)) gravityStep 0 1
               (AfterStep samplePlay 0) drawnScene) !! (1, 1)
    = Some (mkHandle 1 "B").
Proof.
  assert (Hmode : getFillMode (sampleEnv (Some cascade)) ≠ Some replace)
    by discriminate.
  split; [reflexivity|]. split; [exact Hmode|]. split; [reflexivity|].
  split; [reflexivity|].
  refine (drop_step_survivor_falls_by_vacated_cells (sampleEnv (Some cascade))
            gravityStep 0 1 (AfterStep samplePlay 0) drawnScene sampleGrid 0 1
            (mkHandle 1 "B") eq_refl Hmode _ _ eq_refl _).
  - vm_compute. split; congruence.
  - vm_compute. split; congruence.
  - intros Hin. vm_compute in Hin.
    repeat (apply elem_of_cons in Hin as [Hin|Hin]; [discriminate|]).
    apply elem_of_nil in Hin. exact Hin.
Defined.

(** From [2 ^ 53] on a cell can be its own neighbour on every side: the
    contour of such a cell has no segment. *)
Example contour_of_a_far_cell :
  playMatchContour [mkCell (2 ^ 54) (2 ^ 54)] = 0
  ∧ playMatchContour [mkCell 0 0] = MATCH_CONTOUR_DURATION.
Proof. split; vm_compute; reflexivity. Qed.

(** X6.  For cells whose rows are safe integers (below [2 ^ 53] in
    magnitude), the contour of a match is never empty: [playMatchContour]
    returns 0 only for an empty list of cells.  So a step that is not a
    bonus step and removes at least one such cell puts the start of the
    removal on the clock, [MATCH_CONTOUR_DURATION] later, and neither adds
    a win nor emits one until then; a step that removes nothing starts
    the removal at once and has its grid applied 680 ms later. *)
Theorem match_step_contour_delays_removal :
  ∀ (env : Env) (st : CascadeStep) (i n : nat) (k : Continuation) (s : Scene)
    (g : Grid),
    grid s = Some g → bonus st ≠ Some true →
    Forall (fun cell => - 2 ^ 53 < row cell < 2 ^ 53) (removeCells st) →
    playMatchContour (removeCells st)
    = (if bool_decide (removeCells st = []) then 0 else MATCH_CONTOUR_DURATION)
    ∧ (if bool_decide (removeCells st = [])
       then (time s + 680, ApplyStep st i n k)
       else (time s + MATCH_CONTOUR_DURATION, StartRemoval st i n k))
      ∈ clock (animateStep env st i n k s)
    ∧ (removeCells st ≠ [] →
       accumulatedWin (animateStep env st i n k s) = accumulatedWin s
       ∧ ∀ pid amount,
           WinIncrement pid amount ∈ emitted (animateStep env st i n k s) →
           WinIncrement pid amount ∈ emitted s).
Proof.
  intros env st i n k s g Hgrid Hbonus Hsafe.
  pose proof (playMatchContour_nonempty (removeCells st) Hsafe) as Hcontour.
  split; [exact Hcontour|].
  unfold animateStep. rewrite Hgrid, Hcontour.
  set (s1 := match activePlayId s with
             | Some pid => emit (CascadeStepEvent pid (i + 1) n) s
             | None => s
             end).
  assert (Hs1 : clock s1 = clock s ∧ time s1 = time s
                ∧ accumulatedWin s1 = accumulatedWin s
                ∧ ∀ pid amount, WinIncrement pid amount ∈ emitted s1 →
                                WinIncrement pid amount ∈ emitted s).
  { unfold s1. destruct (activePlayId s) as [id|]; [|tauto].
    repeat split; try (destruct s; reflexivity).
    intros pid amount Hin. unfold emit in Hin. cbn [emitted] in Hin.
    apply elem_of_app in Hin as [Hin|Hin]; [exact Hin|].
    apply list_elem_of_singleton in Hin. discriminate. }
  destruct Hs1 as (Hclock & Htime & Hwin & Hemitted).
  assert (Hgoal :
    let s2 :=
      if 0 <? (if bool_decide (removeCells st = []) then 0 else MATCH_CONTOUR_DURATION)
      then delayedCall
             (if bool_decide (removeCells st = []) then 0 else MATCH_CONTOUR_DURATION)
             (StartRemoval st i n k) s1
      else startRemoval env st i n k s1 in
    (if bool_decide (removeCells st = [])
     then (time s + 680, ApplyStep st i n k)
     else (time s + MATCH_CONTOUR_DURATION, StartRemoval st i n k)) ∈ clock s2
    ∧ (removeCells st ≠ [] →
       accumulatedWin s2 = accumulatedWin s
       ∧ ∀ pid amount, WinIncrement pid amount ∈ emitted s2 →
                       WinIncrement pid amount ∈ emitted s)).
  { cbv zeta. case_bool_decide as Hcells.
    - change (0 <? 0) with false. cbv iota. split; [|congruence].
      unfold startRemoval. rewrite Hcells. cbn [foldl]. cbv zeta.
      rewrite <- Htime.
      destruct (activePlayId s1); [destruct (0 <? winStep st)|];
        (apply elem_of_app; right; apply list_elem_of_singleton);
        destruct s1; reflexivity.
    - change (0 <? MATCH_CONTOUR_DURATION) with true. cbv iota. split.
      + rewrite <- Htime. unfold delayedCall. cbn [clock setClock].
        apply elem_of_app. right. apply list_elem_of_singleton. reflexivity.
      + intros _. split.
        * rewrite <- Hwin. destruct s1; reflexivity.
        * intros pid amount Hin. apply Hemitted.
          destruct s1; exact Hin. }
  destruct (bonus st) as [[|]|]; [congruence|exact Hgoal|exact Hgoal].
Qed.

Lemma match_step_contour_delays_removal_witness :
  grid sampleScene = Some sampleGrid
  ∧ bonus firstStep ≠ Some true
  ∧ Forall (fun cell => - 2 ^ 53 < row cell < 2 ^ 53) (removeCells firstStep)
  ∧ playMatchContour (removeCells firstStep) = MATCH_CONTOUR_DURATION
  ∧ (340, StartRemoval firstStep 0 2 (AfterStep samplePlay 0))
    ∈ clock (animateStep (sampleEnv None) firstStep 0 2 (AfterStep samplePlay 0)
               sampleScene).
Proof.
  assert (Hbonus : bonus firstStep ≠ Some true) by discriminate.
  assert (Hsafe : Forall (fun cell => - 2 ^ 53 < row cell < 2 ^ 53)
                         (removeCells firstStep))
    by (repeat constructor; cbn; lia).
  split; [reflexivity|]. split; [exact Hbonus|]. split; [exact Hsafe|].
  destruct (match_step_contour_delays_removal (sampleEnv None) firstStep 0 2
              (AfterStep samplePlay 0) sampleScene sampleGrid eq_refl Hbonus Hsafe)
    as (Hcontour & Hclock & _).
  split; [exact Hcontour|exact Hclock].
Defined.

Lemma explicitTargets_sound g size :
  ∀ cells seen cell,
    cell ∈ explicitTargets g size seen cells →
    (0 ≤ row cell < rows size ∧ 0 ≤ col cell < cols size
     ∧ gridCell g (row cell) (col cell) = Some BONUS_TRIGGER_SYMBOL)
    ∧ cellKey cell ∉ seen.
Proof.
  induction cells as [|[r c] rest IH]; intros seen cell Hin.
  - apply elem_of_nil in Hin. destruct Hin.
  - cbn [explicitTargets row col] in Hin.
    destruct ((r <? 0) || (c <? 0))%bool eqn:Hneg; [apply IH, Hin|].
    destruct ((rows size <=? r) || (cols size <=? c))%bool eqn:Hbig; [apply IH, Hin|].
    destruct (bool_decide (gridCell g r c = Some BONUS_TRIGGER_SYMBOL)) eqn:Hsym;
      cbn [negb] in Hin; [|apply IH, Hin].
    destruct (bool_decide (cellKey (mkCell r c) ∈ seen)) eqn:Hseen; [apply IH, Hin|].
    apply elem_of_cons in Hin as [->|Hin].
    + cbn [row col]. apply bool_decide_eq_true in Hsym.
      apply bool_decide_eq_false in Hseen.
      apply orb_false_iff in Hneg as [H1 H2]. apply orb_false_iff in Hbig as [H3 H4].
      repeat split; try lia; assumption.
    + destruct (IH _ _ Hin) as [Hok Hnotin]. split; [exact Hok|].
      intros Hs. apply Hnotin. apply list_elem_of_further, Hs.
Qed.

Lemma explicitTargets_NoDup g size :
  ∀ cells seen, NoDup (explicitTargets g size seen cells).
Proof.
  induction cells as [|[r c] rest IH]; intros seen; [apply NoDup_nil_2|].
  cbn [explicitTargets row col].
  destruct ((r <? 0) || (c <? 0))%bool; [apply IH|].
  destruct ((rows size <=? r) || (cols size <=? c))%bool; [apply IH|].
  destruct (bool_decide (gridCell g r c = Some BONUS_TRIGGER_SYMBOL));
    cbn [negb]; [|apply IH].
  destruct (bool_decide (cellKey (mkCell r c) ∈ seen)); [apply IH|].
  apply NoDup_cons. split; [|apply IH].
  intros Hin. apply explicitTargets_sound in Hin as [_ Hnotin].
  apply Hnotin. apply list_elem_of_here.
Qed.

Lemma fallbackTargets_sound g size cell :
  cell ∈ fallbackTargets g size →
  0 ≤ row cell < rows size ∧ 0 ≤ col cell < cols size
  ∧ gridCell g (row cell) (col cell) = Some BONUS_TRIGGER_SYMBOL.
Proof.
  unfold fallbackTargets. intros Hin.
  apply list_elem_of_fmap in Hin as ([r c] & -> & Hin).
  apply list_elem_of_filter in Hin as [Hsym Hin].
  apply elem_of_boardCells in Hin as [Hr Hc]. cbn [fst snd row col] in *.
  split; [lia|]. split; [lia|].
  unfold gridCell.
  replace ((Z.of_nat r <? 0) || (Z.of_nat c <? 0))%bool with false
    by (symmetry; apply orb_false_iff; split; apply Z.ltb_ge; lia).
  rewrite !Nat2Z.id. exact Hsym.
Qed.

Lemma fallbackTargets_NoDup g size : NoDup (fallbackTargets g size).
Proof.
  unfold fallbackTargets. apply NoDup_fmap_2.
  - intros [r1 c1] [r2 c2] Heq. cbn in Heq. injection Heq as H1 H2. f_equal; lia.
  - apply NoDup_filter, NoDup_boardCells.
Qed.

(** X7.  The cells the bonus highlight selects, whatever the trigger
    count and the listed cells are: every one lies inside the board and
    shows the trigger symbol, no cell is selected twice, and there are at
    most three. *)
Theorem highlightTargets_valid_distinct_at_most_three :
  ∀ (g : Grid) (size : GridSize) (count : Z) (cells : option (list CellRef)),
    Forall (fun cell =>
              0 ≤ row cell < rows size ∧ 0 ≤ col cell < cols size
              ∧ gridCell g (row cell) (col cell) = Some BONUS_TRIGGER_SYMBOL)
           (highlightTargets g size count cells)
    ∧ NoDup (highlightTargets g size count cells)
    ∧ (length (highlightTargets g size count cells) ≤ 3)%nat.
Proof.
  intros g size count cells. unfold highlightTargets. cbv zeta.
  set (requested := Z.to_nat (requestedCount count)).
  assert (Hreq : (requested ≤ 3)%nat).
  { unfold requested, requestedCount, BONUS_HIGHLIGHT_LIMIT. lia. }
  set (explicit := explicitTargets g size [] (default [] cells)).
  destruct (take requested explicit) as [|t ts] eqn:Htake.
  - set (fallback := fallbackTargets g size).
    split; [|split].
    + apply Forall_forall. intros cell Hin.
      apply (fallbackTargets_sound g size cell).
      apply (subseteq_take _ _ _ Hin).
    + eapply sublist_NoDup; [apply fallbackTargets_NoDup|apply sublist_take].
    + rewrite length_take. lia.
  - rewrite <- Htake. split; [|split].
    + apply Forall_forall. intros cell Hin.
      assert (Hin' : cell ∈ explicit).
      { apply (subseteq_take _ _ _ Hin). }
      apply explicitTargets_sound in Hin' as [Hok _]. exact Hok.
    + eapply sublist_NoDup; [apply explicitTargets_NoDup|apply sublist_take].
    + rewrite length_take. lia.
Qed.

(** ** Colours *)

Lemma wrapInt32_small z : - 2 ^ 31 ≤ z < 2 ^ 31 → Color.wrapInt32 z = z.
Proof.
  intros Hz. unfold Color.wrapInt32. cbv zeta.
  destruct (Z.leb_spec (2 ^ 31) (z mod 2 ^ 32)) as [Hle|Hlt].
  - assert (z < 0).
    { destruct (Z_lt_le_dec z 0) as [Hn|Hp]; [exact Hn|].
      rewrite Z.mod_small in Hle by lia. lia. }
    replace (z mod 2 ^ 32) with ((z + 2 ^ 32) mod 2 ^ 32).
    + rewrite Z.mod_small by lia. lia.
    + replace (z + 2 ^ 32) with (z + 1 * 2 ^ 32) by lia. apply Z.mod_add. lia.
  - destruct (Z_lt_le_dec z 0) as [Hn|Hp].
    + exfalso. replace (z mod 2 ^ 32) with ((z + 2 ^ 32) mod 2 ^ 32) in Hlt.
      * rewrite Z.mod_small in Hlt by lia. lia.
      * replace (z + 2 ^ 32) with (z + 1 * 2 ^ 32) by lia. apply Z.mod_add. lia.
    + apply Z.mod_small. lia.
Qed.

Lemma testbit_above z k m :
  0 ≤ z < 2 ^ k → 0 ≤ k ≤ m → Z.testbit z m = false.
Proof.
  intros Hz Hk. destruct (Z.eq_dec z 0) as [->|Hne]; [apply Z.bits_0|].
  apply Z.bits_above_log2; [lia|].
  assert (Z.log2 z < k) by (apply Z.log2_lt_pow2; lia). lia.
Qed.

Lemma lor_shiftl_add hi lo k :
  0 ≤ hi → 0 ≤ k → 0 ≤ lo < 2 ^ k →
  Z.lor (Z.shiftl hi k) lo = hi * 2 ^ k + lo.
Proof.
  intros Hhi Hk Hlo.
  assert (Hland : Z.land (Z.shiftl hi k) lo = 0).
  { apply Z.bits_inj'. intros n Hn. rewrite Z.land_spec, Z.bits_0.
    destruct (Z_lt_le_dec n k) as [Hlt|Hge].
    - rewrite Z.shiftl_spec_low by exact Hlt. reflexivity.
    - rewrite (testbit_above lo k n) by lia. apply andb_false_r. }
  rewrite <- Z.lxor_lor by exact Hland.
  rewrite <- Z.add_nocarry_lxor by exact Hland.
  rewrite Z.shiftl_mul_pow2 by exact Hk. reflexivity.
Qed.

Lemma clampChannel_range x : 0 ≤ Color.clampChannel x ≤ 255.
Proof. unfold Color.clampChannel. lia. Qed.

(** Packing three channels. *)
Lemma pack_channels cr cg cb :
  0 ≤ cr ≤ 255 → 0 ≤ cg ≤ 255 → 0 ≤ cb ≤ 255 →
  Color.bor (Color.bor (Color.shl cr 16) (Color.shl cg 8)) cb
  = cr * 65536 + cg * 256 + cb.
Proof.
  intros Hr Hg Hb. unfold Color.bor, Color.shl.
  change (16 mod 32) with 16. change (8 mod 32) with 8.
  rewrite (wrapInt32_small cr) by lia. rewrite (wrapInt32_small cg) by lia.
  rewrite (wrapInt32_small cb) by lia.
  rewrite !Z.shiftl_mul_pow2 by lia.
  change (2 ^ 16) with 65536. change (2 ^ 8) with 256.
  rewrite !(wrapInt32_small (cr * 65536)) by lia.
  rewrite !(wrapInt32_small (cg * 256)) by lia.
  assert (H1 : Z.lor (cr * 65536) (cg * 256) = cr * 65536 + cg * 256).
  { change 65536 with (2 ^ 16). rewrite <- Z.shiftl_mul_pow2 by lia.
    rewrite (lor_shiftl_add cr (cg * 256) 16) by lia.
    rewrite Z.shiftl_mul_pow2 by lia. reflexivity. }
  rewrite H1. rewrite (wrapInt32_small (cr * 65536 + cg * 256)) by lia.
  replace (cr * 65536 + cg * 256) with (Z.shiftl (cr * 256 + cg) 8)
    by (rewrite Z.shiftl_mul_pow2 by lia; lia).
  rewrite (lor_shiftl_add (cr * 256 + cg) cb 8) by lia.
  rewrite Z.shiftl_mul_pow2 by lia. reflexivity.
Qed.

Lemma unpack_channels cr cg cb :
  0 ≤ cr ≤ 255 → 0 ≤ cg ≤ 255 → 0 ≤ cb ≤ 255 →
  Color.band (Color.shr (cr * 65536 + cg * 256 + cb) 16) 255 = cr
  ∧ Color.band (Color.shr (cr * 65536 + cg * 256 + cb) 8) 255 = cg
  ∧ Color.band (cr * 65536 + cg * 256 + cb) 255 = cb.
Proof.
  intros Hr Hg Hb. unfold Color.band, Color.shr.
  change (16 mod 32) with 16. change (8 mod 32) with 8.
  rewrite (wrapInt32_small 255) by lia.
  rewrite (wrapInt32_small (cr * 65536 + cg * 256 + cb)) by lia.
  rewrite !Z.shiftr_div_pow2 by lia.
  change (2 ^ 16) with 65536. change (2 ^ 8) with 256.
  assert (H16 : (cr * 65536 + cg * 256 + cb) / 65536 = cr)
    by (symmetry; apply (Z.div_unique _ _ _ (cg * 256 + cb)); lia).
  assert (H8 : (cr * 65536 + cg * 256 + cb) / 256 = cr * 256 + cg)
    by (symmetry; apply (Z.div_unique _ _ _ cb); lia).
  rewrite H16, H8.
  rewrite (wrapInt32_small cr) by lia.
  rewrite (wrapInt32_small (cr * 256 + cg)) by lia.
  change 255 with (Z.ones 8). rewrite !Z.land_ones by lia.
  change (2 ^ 8) with 256.
  split; [apply Z.mod_small; lia|]. split.
  - symmetry. apply (Z.mod_unique _ _ cr); lia.
  - symmetry. apply (Z.mod_unique _ _ (cr * 256 + cg)); lia.
Qed.

(** X10.  For any channels and any amount, [darkenColor] and
    [lightenColor] return a colour of 24 bits: the red channel in bits 16
    to 23, the green one in bits 8 to 15 and the blue one in bits 0 to 7,
    each the channel scaled in double arithmetic and then rounded and
    clamped to the range from 0 to 255 by [clampChannel].  Shifting and
    masking the colour, as [hexToRgb] does, gives the three channels
    back. *)
Theorem darken_lighten_pack_clamped_channels :
  ∀ (rgb : Color.Rgb) (amount : Q),
    let factor := Double.round (1 - Double.round amount) in
    let darken (c : Q) :=
      Color.clampChannel (Double.round (Double.round c * factor)) in
    let lighten (c : Q) :=
      Color.clampChannel
        (Double.round
           (Double.round c
            + Double.round (Double.round (255 - Double.round c)
                            * Double.round amount))) in
    let dr := darken (Color.r rgb) in
    let dg := darken (Color.g rgb) in
    let db := darken (Color.b rgb) in
    let lr := lighten (Color.r rgb) in
    let lg := lighten (Color.g rgb) in
    let lb := lighten (Color.b rgb) in
    Color.darkenColor rgb amount = dr * 65536 + dg * 256 + db
    ∧ Color.lightenColor rgb amount = lr * 65536 + lg * 256 + lb
    ∧ 0 ≤ Color.darkenColor rgb amount ≤ 16777215
    ∧ 0 ≤ Color.lightenColor rgb amount ≤ 16777215
    ∧ Color.band (Color.shr (Color.darkenColor rgb amount) 16) 255 = dr
    ∧ Color.band (Color.shr (Color.darkenColor rgb amount) 8) 255 = dg
    ∧ Color.band (Color.darkenColor rgb amount) 255 = db
    ∧ Color.band (Color.shr (Color.lightenColor rgb amount) 16) 255 = lr
    ∧ Color.band (Color.shr (Color.lightenColor rgb amount) 8) 255 = lg
    ∧ Color.band (Color.lightenColor rgb amount) 255 = lb.
Proof.
  intros rgb amount factor darken lighten dr dg db lr lg lb.
  assert (Hdr : 0 ≤ dr ≤ 255) by apply clampChannel_range.
  assert (Hdg : 0 ≤ dg ≤ 255) by apply clampChannel_range.
  assert (Hdb : 0 ≤ db ≤ 255) by apply clampChannel_range.
  assert (Hlr : 0 ≤ lr ≤ 255) by apply clampChannel_range.
  assert (Hlg : 0 ≤ lg ≤ 255) by apply clampChannel_range.
  assert (Hlb : 0 ≤ lb ≤ 255) by apply clampChannel_range.
  assert (Hd : Color.darkenColor rgb amount = dr * 65536 + dg * 256 + db)
    by (apply pack_channels; assumption).
  assert (Hl : Color.lightenColor rgb amount = lr * 65536 + lg * 256 + lb)
    by (apply pack_channels; assumption).
  destruct (unpack_channels dr dg db Hdr Hdg Hdb) as (Hd1 & Hd2 & Hd3).
  destruct (unpack_channels lr lg lb Hlr Hlg Hlb) as (Hl1 & Hl2 & Hl3).
  rewrite Hd, Hl. repeat split; try assumption; lia.
Qed.

(** The colours of the scene for the symbol colour [#3296fa]: the shade
    of a cell, darkened by 0.55, and a channel lightened by 0.7. *)
Example darkenColor_sample :
  Color.darkenColor (Color.mkRgb 50 150 250) (55 # 100) = 1459312
  ∧ Color.darkenColor (Color.mkRgb 50 150 250) (Double.round (55 # 100)) = 1459312
  ∧ Color.clampChannel (Color.lightenChannel 0 (7 # 10)) = 179.
Proof. repeat split; vm_compute; reflexivity. Qed.

Lemma Math_round_le x y : (x <= y)%Q → Math_round x ≤ Math_round y.
Proof. intros Hxy. unfold Math_round. apply Qfloor_resp_le. lra. Qed.

Lemma Math_round_Z z : Math_round (inject_Z z) = z.
Proof.
  unfold Math_round.
  pose proof (Qfloor_le (inject_Z z + (1 # 2))) as Hlo.
  pose proof (Qlt_floor (inject_Z z + (1 # 2))) as Hhi.
  set (f := Qfloor (inject_Z z + (1 # 2))) in *.
  assert (H1 : (inject_Z f < inject_Z (z + 1))%Q).
  { rewrite inject_Z_plus. change (inject_Z 1) with 1%Q. lra. }
  assert (H2 : (inject_Z z < inject_Z (f + 1))%Q) by lra.
  rewrite <- Zlt_Qlt in H1, H2. lia.
Qed.

Lemma inject_Z_between z lo hi :
  lo ≤ z ≤ hi → (inject_Z lo <= inject_Z z <= inject_Z hi)%Q.
Proof. intros [H1 H2]. split; rewrite <- Zle_Qle; assumption. Qed.

Lemma inject_Z_sub a b : (inject_Z (a - b) == inject_Z a - inject_Z b)%Q.
Proof.
  unfold Z.sub, Qminus. rewrite inject_Z_plus, inject_Z_opp. reflexivity.
Qed.

(** A rounded value stays between two small integers its argument is
    between. *)
Lemma round_between x lo hi :
  Z.abs lo ≤ 2 ^ 53 → Z.abs hi ≤ 2 ^ 53 →
  (inject_Z lo <= x <= inject_Z hi)%Q →
  (inject_Z lo <= Double.round x <= inject_Z hi)%Q.
Proof.
  intros Hlo Hhi [H1 H2]. split.
  - rewrite <- (round_Z lo Hlo). apply round_le, H1.
  - rewrite <- (round_Z hi Hhi). apply round_le, H2.
Qed.

Lemma round_amount amount :
  (0 <= amount <= 1)%Q → (0 <= Double.round amount <= 1)%Q.
Proof.
  intros Ha. apply (round_between _ 0 1); [lia|lia|].
  change (inject_Z 0) with 0%Q. change (inject_Z 1) with 1%Q. exact Ha.
Qed.

Lemma darken_factor amount :
  (0 <= amount <= 1)%Q → (0 <= Double.round (1 - Double.round amount) <= 1)%Q.
Proof.
  intros Ha. pose proof (round_amount amount Ha) as Hr.
  apply (round_between _ 0 1); [lia|lia|].
  change (inject_Z 0) with 0%Q. change (inject_Z 1) with 1%Q. lra.
Qed.

Lemma darken_channel z amount :
  0 ≤ z ≤ 255 → (0 <= amount <= 1)%Q →
  0 ≤ Color.clampChannel
        (Double.round (Double.round (inject_Z z)
                       * Double.round (1 - Double.round amount))) ≤ z.
Proof.
  intros Hz Ha. pose proof (inject_Z_between z 0 255 Hz) as Hq.
  change (inject_Z 0) with 0%Q in Hq. change (inject_Z 255) with 255%Q in Hq.
  pose proof (darken_factor amount Ha) as Hf.
  set (factor := Double.round (1 - Double.round amount)) in *.
  pose proof (round_Z z ltac:(lia)) as Hc.
  assert (Hround : (inject_Z 0
                    <= Double.round (Double.round (inject_Z z) * factor)
                    <= inject_Z z)%Q).
  { apply round_between; [lia|lia|]. rewrite Hc. change (inject_Z 0) with 0%Q. nra. }
  assert (Hlo : Math_round (inject_Z 0)
                ≤ Math_round (Double.round (Double.round (inject_Z z) * factor)))
    by (apply Math_round_le; lra).
  assert (Hhi : Math_round (Double.round (Double.round (inject_Z z) * factor))
                ≤ Math_round (inject_Z z))
    by (apply Math_round_le; lra).
  rewrite Math_round_Z in Hlo, Hhi.
  unfold Color.clampChannel. lia.
Qed.

Lemma lighten_channel z amount :
  0 ≤ z ≤ 255 → (0 <= amount <= 1)%Q →
  z ≤ Color.clampChannel (Color.lightenChannel (inject_Z z) amount) ≤ 255.
Proof.
  intros Hz Ha. pose proof (inject_Z_between z 0 255 Hz) as Hq.
  change (inject_Z 0) with 0%Q in Hq. change (inject_Z 255) with 255%Q in Hq.
  pose proof (round_amount amount Ha) as Hamount.
  unfold Color.lightenChannel. cbv zeta.
  pose proof (round_Z z ltac:(lia)) as Hc.
  set (c := Double.round (inject_Z z)) in *.
  set (a := Double.round amount) in *.
  assert (Hrest : (Double.round (255 - c) == inject_Z (255 - z))%Q).
  { apply round_eq_Z; [lia|]. rewrite Hc, inject_Z_sub. reflexivity. }
  assert (Hadd : (inject_Z 0 <= Double.round (Double.round (255 - c) * a)
                  <= inject_Z (255 - z))%Q).
  { apply round_between; [lia|lia|]. rewrite Hrest.
    pose proof (inject_Z_between (255 - z) 0 255 ltac:(lia)) as Hq'.
    change (inject_Z 0) with 0%Q in *. nra. }
  assert (Hsum : (inject_Z z
                  <= Double.round (c + Double.round (Double.round (255 - c) * a))
                  <= inject_Z 255)%Q).
  { apply round_between; [lia|lia|]. rewrite inject_Z_sub in Hadd.
    change (inject_Z 0) with 0%Q in Hadd. change (inject_Z 255) with 255%Q in *. lra. }
  destruct Hsum as [Hlo Hhi]. apply Math_round_le in Hlo.
  rewrite Math_round_Z in Hlo.
  unfold Color.clampChannel. lia.
Qed.

Lemma clampChannel_Z z : 0 ≤ z ≤ 255 → ∀ x, (x == inject_Z z)%Q → Color.clampChannel x = z.
Proof.
  intros Hz x Hx. unfold Color.clampChannel.
  assert (Math_round x = z).
  { apply Z.le_antisymm.
    - rewrite <- (Math_round_Z z). apply Math_round_le. lra.
    - rewrite <- (Math_round_Z z) at 1. apply Math_round_le. lra. }
  lia.
Qed.

(** The scaled channel at the ends of the range of the amount. *)
Lemma darken_channel_ends z :
  0 ≤ z ≤ 255 →
  (Double.round (Double.round (inject_Z z) * Double.round (1 - Double.round 0))
   == inject_Z z)%Q
  ∧ (Double.round (Double.round (inject_Z z) * Double.round (1 - Double.round 1))
     == inject_Z 0)%Q.
Proof.
  intros Hz. pose proof (round_Z z ltac:(lia)) as Hc.
  assert (H1 : (Double.round (1 - Double.round 0) == 1)%Q)
    by (apply (round_eq_Z _ 1); [lia|rewrite (round_Z 0) by lia; reflexivity]).
  assert (H0 : (Double.round (1 - Double.round 1) == 0)%Q)
    by (apply (round_eq_Z _ 0); [lia|rewrite (round_Z 1) by lia; reflexivity]).
  split; (apply round_eq_Z; [lia|]).
  - rewrite H1, Hc. ring.
  - rewrite H0. change (inject_Z 0) with 0%Q. ring.
Qed.

Lemma lighten_channel_ends z :
  0 ≤ z ≤ 255 →
  (Color.lightenChannel (inject_Z z) 0 == inject_Z z)%Q
  ∧ (Color.lightenChannel (inject_Z z) 1 == inject_Z 255)%Q.
Proof.
  intros Hz. unfold Color.lightenChannel. cbv zeta.
  pose proof (round_Z z ltac:(lia)) as Hc.
  pose proof (round_Z 0 ltac:(lia)) as Hzero. change (inject_Z 0) with 0%Q in Hzero.
  pose proof (round_Z 1 ltac:(lia)) as Hone. change (inject_Z 1) with 1%Q in Hone.
  set (c := Double.round (inject_Z z)) in *.
  assert (Hrest : (Double.round (255 - c) == inject_Z (255 - z))%Q).
  { apply round_eq_Z; [lia|]. rewrite Hc, inject_Z_sub. reflexivity. }
  assert (H0 : (Double.round (Double.round (255 - c) * Double.round 0) == 0)%Q)
    by (apply (round_eq_Z _ 0); [lia|rewrite Hzero; ring]).
  assert (H1 : (Double.round (Double.round (255 - c) * Double.round 1)
                == inject_Z (255 - z))%Q).
  { apply round_eq_Z; [lia|]. rewrite Hrest, Hone. ring. }
  split; (apply round_eq_Z; [lia|]).
  - rewrite H0, Hc. ring.
  - rewrite H1, Hc, inject_Z_sub. ring.
Qed.

(** X11.  For channels from 0 to 255 and an amount from 0 to 1: no
    channel of the darkened colour is above the channel it comes from, and
    no channel of the lightened colour is below it.  The amount 0 gives the
    colour itself, darkening by 1 gives black and lightening by 1 gives
    white. *)
Theorem darken_lowers_lighten_raises_channels :
  ∀ (cr cg cb : Z) (amount : Q),
    0 ≤ cr ≤ 255 → 0 ≤ cg ≤ 255 → 0 ≤ cb ≤ 255 → (0 <= amount <= 1)%Q →
    let rgb := Color.mkRgb (inject_Z cr) (inject_Z cg) (inject_Z cb) in
    (Color.band (Color.shr (Color.darkenColor rgb amount) 16) 255 ≤ cr
     ∧ Color.band (Color.shr (Color.darkenColor rgb amount) 8) 255 ≤ cg
     ∧ Color.band (Color.darkenColor rgb amount) 255 ≤ cb)
    ∧ (cr ≤ Color.band (Color.shr (Color.lightenColor rgb amount) 16) 255
       ∧ cg ≤ Color.band (Color.shr (Color.lightenColor rgb amount) 8) 255
       ∧ cb ≤ Color.band (Color.lightenColor rgb amount) 255)
    ∧ Color.darkenColor rgb 0 = cr * 65536 + cg * 256 + cb
    ∧ Color.lightenColor rgb 0 = cr * 65536 + cg * 256 + cb
    ∧ Color.darkenColor rgb 1 = 0
    ∧ Color.lightenColor rgb 1 = 16777215.
Proof.
  intros cr cg cb amount Hr Hg Hb Ha rgb.
  pose proof (darken_channel cr amount Hr Ha) as Hdr.
  pose proof (darken_channel cg amount Hg Ha) as Hdg.
  pose proof (darken_channel cb amount Hb Ha) as Hdb.
  pose proof (lighten_channel cr amount Hr Ha) as Hlr.
  pose proof (lighten_channel cg amount Hg Ha) as Hlg.
  pose proof (lighten_channel cb amount Hb Ha) as Hlb.
  set (dr := Color.clampChannel
               (Double.round (Double.round (inject_Z cr)
                              * Double.round (1 - Double.round amount)))) in *.
  set (dg := Color.clampChannel
               (Double.round (Double.round (inject_Z cg)
                              * Double.round (1 - Double.round amount)))) in *.
  set (db := Color.clampChannel
               (Double.round (Double.round (inject_Z cb)
                              * Double.round (1 - Double.round amount)))) in *.
  assert (Hd : Color.darkenColor rgb amount = dr * 65536 + dg * 256 + db)
    by (apply pack_channels; lia).
  assert (Hl : Color.lightenColor rgb amount
               = Color.clampChannel (Color.lightenChannel (inject_Z cr) amount) * 65536
                 + Color.clampChannel (Color.lightenChannel (inject_Z cg) amount) * 256
                 + Color.clampChannel (Color.lightenChannel (inject_Z cb) amount))
    by (apply pack_channels; lia).
  destruct (darken_channel_ends cr Hr) as [Hr0 Hr1].
  destruct (darken_channel_ends cg Hg) as [Hg0 Hg1].
  destruct (darken_channel_ends cb Hb) as [Hb0 Hb1].
  destruct (lighten_channel_ends cr Hr) as [Lr0 Lr1].
  destruct (lighten_channel_ends cg Hg) as [Lg0 Lg1].
  destruct (lighten_channel_ends cb Hb) as [Lb0 Lb1].
  split; [|split; [|split; [|split; [|split]]]].
  - rewrite Hd.
    destruct (unpack_channels dr dg db) as (-> & -> & ->); lia.
  - rewrite Hl.
    set (lr := Color.clampChannel (Color.lightenChannel (inject_Z cr) amount)) in *.
    set (lg := Color.clampChannel (Color.lightenChannel (inject_Z cg) amount)) in *.
    set (lb := Color.clampChannel (Color.lightenChannel (inject_Z cb) amount)) in *.
    destruct (unpack_channels lr lg lb) as (-> & -> & ->); lia.
  - unfold Color.darkenColor. cbv zeta. cbn [Color.r Color.g Color.b rgb].
    rewrite pack_channels by apply clampChannel_range.
    rewrite (clampChannel_Z cr Hr _ Hr0), (clampChannel_Z cg Hg _ Hg0),
      (clampChannel_Z cb Hb _ Hb0).
    reflexivity.
  - unfold Color.lightenColor. cbn [Color.r Color.g Color.b rgb].
    rewrite pack_channels by apply clampChannel_range.
    rewrite (clampChannel_Z cr Hr _ Lr0), (clampChannel_Z cg Hg _ Lg0),
      (clampChannel_Z cb Hb _ Lb0).
    reflexivity.
  - unfold Color.darkenColor. cbv zeta. cbn [Color.r Color.g Color.b rgb].
    rewrite pack_channels by apply clampChannel_range.
    rewrite (clampChannel_Z 0 ltac:(lia) _ Hr1), (clampChannel_Z 0 ltac:(lia) _ Hg1),
      (clampChannel_Z 0 ltac:(lia) _ Hb1).
    reflexivity.
  - unfold Color.lightenColor. cbn [Color.r Color.g Color.b rgb].
    rewrite pack_channels by apply clampChannel_range.
    rewrite (clampChannel_Z 255 ltac:(lia) _ Lr1), (clampChannel_Z 255 ltac:(lia) _ Lg1),
      (clampChannel_Z 255 ltac:(lia) _ Lb1).
    reflexivity.
Qed.

Lemma darken_lowers_lighten_raises_channels_witness :
  let rgb := Color.mkRgb 226 232 240 in
  Color.band (Color.shr (Color.darkenColor rgb (35 # 100)) 16) 255 ≤ 226
  ∧ 226 ≤ Color.band (Color.shr (Color.lightenColor rgb (35 # 100)) 16) 255
  ∧ Color.darkenColor rgb 1 = 0
  ∧ Color.lightenColor rgb 1 = 16777215.
Proof.
  destruct (darken_lowers_lighten_raises_channels 226 232 240 (35 # 100))
    as ((Hd & _) & (Hl & _) & _ & _ & Hblack & Hwhite);
    [lia|lia|lia|split; discriminate|].
  cbv zeta. split; [exact Hd|]. split; [exact Hl|]. split; [exact Hblack|exact Hwhite].
Defined.

Lemma digitValue_ordinary c v :
  Color.digitValue c = Some v →
  0 ≤ v ≤ 15
  ∧ Color.isWhiteSpace c = false
  ∧ Ascii.eqb c "-" = false ∧ Ascii.eqb c "+" = false
  ∧ Ascii.eqb c "x" = false ∧ Ascii.eqb c "X" = false
  ∧ Ascii.eqb c "#" = false.
Proof.
  destruct c as [[] [] [] [] [] [] [] []]; vm_compute; intros Hv;
    try discriminate; injection Hv as <-; repeat split; congruence.
Qed.

Lemma toNumber_exact negative n :
  0 ≤ n < 2 ^ 53 →
  Color.toNumber negative n = Color.Finite (if negative then - n else n).
Proof.
  intros Hn. unfold Color.toNumber. cbv zeta.
  assert (Hbits : ((if n =? 0 then 0 else Z.log2 n + 1) <=? 53) = true).
  { apply Z.leb_le. destruct (Z.eqb_spec n 0); [lia|].
    assert (Z.log2 n < 53) by (apply Z.log2_lt_pow2; lia). lia. }
  rewrite Hbits.
  assert (Hfin : (2 ^ 1024 <=? n) = false).
  { apply Z.leb_gt. apply Z.lt_le_trans with (2 ^ 53); [lia|].
    apply Z.pow_le_mono_r; lia. }
  rewrite Hfin. reflexivity.
Qed.

(** Six hexadecimal digits, read by [parseInt] and split into channels. *)
Lemma channels_of_six_digits d1 d2 d3 d4 d5 d6 v1 v2 v3 v4 v5 v6 :
  Color.digitValue d1 = Some v1 → Color.digitValue d2 = Some v2 →
  Color.digitValue d3 = Some v3 → Color.digitValue d4 = Some v4 →
  Color.digitValue d5 = Some v5 → Color.digitValue d6 = Some v6 →
  let num := Color.ToInt32 (Color.parseInt16 [d1; d2; d3; d4; d5; d6]) in
  Color.band (Color.shr num 16) 255 = 16 * v1 + v2
  ∧ Color.band (Color.shr num 8) 255 = 16 * v3 + v4
  ∧ Color.band num 255 = 16 * v5 + v6.
Proof.
  intros H1 H2 H3 H4 H5 H6.
  destruct (digitValue_ordinary _ _ H1) as (R1 & W1 & M1 & P1 & _).
  destruct (digitValue_ordinary _ _ H2) as (R2 & _ & _ & _ & X2 & X2' & _).
  destruct (digitValue_ordinary _ _ H3) as (R3 & _).
  destruct (digitValue_ordinary _ _ H4) as (R4 & _).
  destruct (digitValue_ordinary _ _ H5) as (R5 & _).
  destruct (digitValue_ordinary _ _ H6) as (R6 & _).
  unfold Color.parseInt16. cbn [Color.trimStart]. rewrite W1. cbv zeta.
  rewrite M1, P1. cbn [orb]. rewrite X2, X2'. cbn [orb]. rewrite andb_false_r.
  cbn [Color.leadingDigits]. rewrite H1, H2, H3, H4, H5, H6.
  cbn [Color.mathInt foldl].
  set (N := (((((0 * 16 + v1) * 16 + v2) * 16 + v3) * 16 + v4) * 16 + v5) * 16 + v6).
  assert (HN : N = (16 * v1 + v2) * 65536 + (16 * v3 + v4) * 256 + (16 * v5 + v6))
    by (unfold N; lia).
  rewrite toNumber_exact by (rewrite HN; lia).
  cbn [Color.ToInt32]. rewrite wrapInt32_small by (rewrite HN; lia).
  rewrite HN. apply unpack_channels; lia.
Qed.

(** X8.  [hexToRgb] on a colour of six hexadecimal digits: each channel
    is the value of its two digits, and the leading [#] may be left out.
    On a colour of three digits after the [#] every digit is doubled, so a
    channel is 17 times the value of its digit. *)
Theorem hexToRgb_reads_hex_digits :
  ∀ (d1 d2 d3 d4 d5 d6 : ascii) (v1 v2 v3 v4 v5 v6 : Z),
    Color.digitValue d1 = Some v1 → Color.digitValue d2 = Some v2 →
    Color.digitValue d3 = Some v3 → Color.digitValue d4 = Some v4 →
    Color.digitValue d5 = Some v5 → Color.digitValue d6 = Some v6 →
    Color.hexToRgb (String "#" (string_of_list_ascii [d1; d2; d3; d4; d5; d6]))
    = Color.mkRgb (inject_Z (16 * v1 + v2)) (inject_Z (16 * v3 + v4))
                  (inject_Z (16 * v5 + v6))
    ∧ Color.hexToRgb (string_of_list_ascii [d1; d2; d3; d4; d5; d6])
      = Color.hexToRgb (String "#" (string_of_list_ascii [d1; d2; d3; d4; d5; d6]))
    ∧ Color.hexToRgb (String "#" (string_of_list_ascii [d1; d3; d5]))
      = Color.mkRgb (inject_Z (17 * v1)) (inject_Z (17 * v3)) (inject_Z (17 * v5)).
Proof.
  intros d1 d2 d3 d4 d5 d6 v1 v2 v3 v4 v5 v6 H1 H2 H3 H4 H5 H6.
  destruct (digitValue_ordinary _ _ H1) as (_ & _ & _ & _ & _ & _ & N1).
  destruct (digitValue_ordinary _ _ H2) as (_ & _ & _ & _ & _ & _ & N2).
  destruct (digitValue_ordinary _ _ H3) as (_ & _ & _ & _ & _ & _ & N3).
  destruct (digitValue_ordinary _ _ H4) as (_ & _ & _ & _ & _ & _ & N4).
  destruct (digitValue_ordinary _ _ H5) as (_ & _ & _ & _ & _ & _ & N5).
  destruct (digitValue_ordinary _ _ H6) as (_ & _ & _ & _ & _ & _ & N6).
  assert (Hsix : Color.hexToRgb (String "#" (string_of_list_ascii [d1; d2; d3; d4; d5; d6]))
                 = Color.mkRgb (inject_Z (16 * v1 + v2)) (inject_Z (16 * v3 + v4))
                               (inject_Z (16 * v5 + v6))).
  { unfold Color.hexToRgb. cbn [string_of_list_ascii list_ascii_of_string].
    cbn [Color.removeFirstHash]. change (Ascii.eqb "#" "#") with true. cbv iota.
    cbn [length Nat.eqb]. unfold Color.padEnd. cbn [length Nat.sub replicate app].
    destruct (channels_of_six_digits d1 d2 d3 d4 d5 d6 v1 v2 v3 v4 v5 v6
                H1 H2 H3 H4 H5 H6) as (-> & -> & ->).
    reflexivity. }
  split; [exact Hsix|]. split.
  - rewrite Hsix. unfold Color.hexToRgb.
    cbn [string_of_list_ascii list_ascii_of_string].
    cbn [Color.removeFirstHash]. rewrite N1, N2, N3, N4, N5, N6.
    cbn [length Nat.eqb]. unfold Color.padEnd. cbn [length Nat.sub replicate app].
    destruct (channels_of_six_digits d1 d2 d3 d4 d5 d6 v1 v2 v3 v4 v5 v6
                H1 H2 H3 H4 H5 H6) as (-> & -> & ->).
    reflexivity.
  - unfold Color.hexToRgb. cbn [string_of_list_ascii list_ascii_of_string].
    cbn [Color.removeFirstHash]. change (Ascii.eqb "#" "#") with true. cbv iota.
    cbn [length Nat.eqb]. unfold Color.doubleEach.
    cbn [mbind list_bind app].
    destruct (channels_of_six_digits d1 d1 d3 d3 d5 d5 v1 v1 v3 v3 v5 v5
                H1 H1 H3 H3 H5 H5) as (-> & -> & ->).
    f_equal; f_equal; lia.
Qed.

Lemma hexToRgb_reads_hex_digits_witness :
  Color.hexToRgb "#e2e8f0" = Color.mkRgb 226 232 240
  ∧ Color.hexToRgb "#fa0" = Color.mkRgb 255 170 0.
Proof.
  destruct (hexToRgb_reads_hex_digits "e" "2" "e" "8" "f" "0" 14 2 14 8 15 0
              eq_refl eq_refl eq_refl eq_refl eq_refl eq_refl) as (Hsix & _ & _).
  destruct (hexToRgb_reads_hex_digits "f" "f" "a" "a" "0" "0" 15 15 10 10 0 0
              eq_refl eq_refl eq_refl eq_refl eq_refl eq_refl) as (_ & _ & Hthree).
  split; [exact Hsix|exact Hthree].
Defined.

Lemma parseInt16_no_digit c tail :
  Color.digitValue c = None → Color.isWhiteSpace c = false →
  c ≠ "-"%char → c ≠ "+"%char →
  Color.parseInt16 (c :: tail) = Color.NaN.
Proof.
  intros Hd Hw Hm Hp. unfold Color.parseInt16. cbn [Color.trimStart]. rewrite Hw.
  cbv zeta. apply Ascii.eqb_neq in Hm, Hp. rewrite Hm, Hp. cbn [orb].
  assert (H0 : Ascii.eqb c "0" = false).
  { apply Ascii.eqb_neq. intros ->. vm_compute in Hd. discriminate. }
  destruct tail as [|cx rest].
  - cbn [Color.leadingDigits]. rewrite Hd. reflexivity.
  - rewrite H0. cbn [andb]. cbn [Color.leadingDigits]. rewrite Hd. reflexivity.
Qed.

(** X9.  [hexToRgb] gives channels for every string: three integers
    from 0 to 255.  A string whose first code unit is not a hexadecimal
    digit, white space, a sign or [#] gives black, since [parseInt] returns
    [NaN] and the bit operators read [NaN] as 0. *)
Theorem hexToRgb_channels_are_bytes :
  ∀ hex : string,
    (∃ cr cg cb : Z,
       Color.hexToRgb hex = Color.mkRgb (inject_Z cr) (inject_Z cg) (inject_Z cb)
       ∧ 0 ≤ cr ≤ 255 ∧ 0 ≤ cg ≤ 255 ∧ 0 ≤ cb ≤ 255)
    ∧ (∀ (c : ascii) (rest : string),
         hex = String c rest →
         Color.digitValue c = None → Color.isWhiteSpace c = false →
         c ≠ "-"%char → c ≠ "+"%char → c ≠ "#"%char →
         Color.hexToRgb hex = Color.mkRgb 0 0 0).
Proof.
  intros hex. split.
  - unfold Color.hexToRgb. cbv zeta.
    assert (Hbyte : ∀ x, 0 ≤ Color.band x 255 ≤ 255).
    { intros x. unfold Color.band. rewrite (wrapInt32_small 255) by lia.
      change 255 with (Z.ones 8). rewrite Z.land_ones by lia.
      change (Z.ones 8) with 255.
      pose proof (Z.mod_pos_bound (Color.wrapInt32 x) (2 ^ 8)). lia. }
    eexists _, _, _. split; [reflexivity|]. repeat split; apply Hbyte.
  - intros c rest -> Hd Hw Hm Hp Hh. unfold Color.hexToRgb.
    cbn [list_ascii_of_string Color.removeFirstHash].
    apply Ascii.eqb_neq in Hh. rewrite Hh. cbv zeta.
    set (tail := Color.removeFirstHash (list_ascii_of_string rest)).
    assert (Hnum : Color.ToInt32
                     (Color.parseInt16
                        (if (length (c :: tail) =? 3)%nat
                         then Color.doubleEach (c :: tail)
                         else Color.padEnd (c :: tail) 6 "0")) = 0).
    { destruct (length (c :: tail) =? 3)%nat.
      - unfold Color.doubleEach. cbn [mbind list_bind app].
        rewrite parseInt16_no_digit by assumption. reflexivity.
      - unfold Color.padEnd. cbn [app].
        rewrite parseInt16_no_digit by assumption. reflexivity. }
    rewrite Hnum. reflexivity.
Qed.

Lemma String_eqb_empty s : String.eqb s "" = bool_decide (s = ""%string).
Proof.
  destruct (String.eqb_spec s "") as [->|Hne].
  - rewrite bool_decide_eq_true_2 by reflexivity. reflexivity.
  - rewrite bool_decide_eq_false_2 by exact Hne. reflexivity.
Qed.

(** X12.  The colour of a symbol is the colour of the last entry of the
    paytable for that symbol, among the entries whose symbol and colour are
    both non-empty; when there is none, or no paytable, it is the default
    [#e2e8f0]. *)
Theorem getSymbolColor_last_valid_entry :
  ∀ (symbolPaytable : option (list Color.SymbolPaytableEntry)) (s : string),
    Color.getSymbolColor (Color.symbolColorMap symbolPaytable) s
    = match last (filter (fun entry =>
                            Color.symbol entry = s
                            ∧ Color.symbol entry ≠ ""%string
                            ∧ Color.color entry ≠ ""%string)
                         (default [] symbolPaytable)) with
      | Some entry => Color.color entry
      | None => "#e2e8f0"%string
      end.
Proof.
  intros symbolPaytable s. unfold Color.getSymbolColor, Color.symbolColorMap.
  set (step := fun (map : gmap string string) entry => _).
  set (valid := fun entry : Color.SymbolPaytableEntry => _).
  assert (Hmap : ∀ l,
             foldl step ∅ l !! s = Color.color <$> last (filter valid l)).
  { induction l as [|e l IH] using rev_ind; [reflexivity|].
    rewrite foldl_app. cbn [foldl]. rewrite filter_app. unfold step at 1.
    rewrite !String_eqb_empty.
    destruct (decide (Color.symbol e = ""%string)) as [He|He].
    - rewrite (bool_decide_eq_true_2 _ He). cbn [negb andb].
      rewrite filter_cons_False by (unfold valid; tauto).
      rewrite filter_nil, app_nil_r. exact IH.
    - rewrite (bool_decide_eq_false_2 _ He). cbn [negb andb].
      destruct (decide (Color.color e = ""%string)) as [Hc|Hc].
      + rewrite (bool_decide_eq_true_2 _ Hc). cbn [negb].
        rewrite filter_cons_False by (unfold valid; tauto).
        rewrite filter_nil, app_nil_r. exact IH.
      + rewrite (bool_decide_eq_false_2 _ Hc). cbn [negb].
        destruct (decide (Color.symbol e = s)) as [Hs|Hs].
        * rewrite filter_cons_True by (unfold valid; tauto).
          rewrite filter_nil, last_snoc. rewrite Hs, lookup_insert_eq. reflexivity.
        * rewrite filter_cons_False by (unfold valid; tauto).
          rewrite filter_nil, app_nil_r.
          rewrite lookup_insert_ne by exact Hs. exact IH. }
  rewrite Hmap. destruct (last (filter valid (default [] symbolPaytable))); reflexivity.
Qed.


(** ** The event bus *)

Section BusProperties.

Context {Handler Payload : Type} `{EqDecision Handler}.

Implicit Types (handlers : gmap string (list Handler)) (h handler : Handler)
  (payload : Payload) (event e : string).

Lemma emit_handlersOf event payload handlers :
  EventBus.emit event payload handlers
  = (fun handler => (handler, payload)) <$> EventBus.handlersOf event handlers.
Proof.
  unfold EventBus.emit, EventBus.handlersOf.
  destruct (handlers !! event); reflexivity.
Qed.

Lemma handlersOf_on e' e h handlers :
  EventBus.handlersOf e' (EventBus.on e h handlers)
  = if decide (e' = e)
    then EventBus.setAdd h (EventBus.handlersOf e handlers)
    else EventBus.handlersOf e' handlers.
Proof.
  unfold EventBus.on, EventBus.handlersOf. cbv zeta.
  destruct (handlers !! e) as [set|] eqn:He.
  - rewrite He. cbv beta iota. destruct (decide (e' = e)) as [->|Hne].
    + rewrite lookup_insert_eq. reflexivity.
    + rewrite lookup_insert_ne by congruence. reflexivity.
  - rewrite lookup_insert_eq. cbv beta iota.
    destruct (decide (e' = e)) as [->|Hne].
    + rewrite lookup_insert_eq. reflexivity.
    + rewrite !lookup_insert_ne by congruence. reflexivity.
Qed.

Lemma handlersOf_unsubscribe e' e h handlers :
  EventBus.handlersOf e' (EventBus.unsubscribe e h handlers)
  = if decide (e' = e)
    then EventBus.setDelete h (EventBus.handlersOf e handlers)
    else EventBus.handlersOf e' handlers.
Proof.
  unfold EventBus.unsubscribe, EventBus.handlersOf.
  destruct (handlers !! e) as [set|] eqn:He.
  - destruct (decide (e' = e)) as [->|Hne].
    + rewrite lookup_insert_eq. reflexivity.
    + rewrite lookup_insert_ne by congruence. reflexivity.
  - destruct (decide (e' = e)) as [->|Hne]; [rewrite He|]; reflexivity.
Qed.

Lemma elem_of_setAdd h h' (set : list Handler) :
  h ∈ EventBus.setAdd h' set ↔ h = h' ∨ h ∈ set.
Proof.
  unfold EventBus.setAdd. destruct (decide (h' ∈ set)) as [Hin|Hnotin].
  - split; [tauto|]. intros [->|Hh]; assumption.
  - rewrite elem_of_app, list_elem_of_singleton. tauto.
Qed.

Lemma elem_of_setDelete h h' (set : list Handler) :
  h ∈ EventBus.setDelete h' set ↔ h ≠ h' ∧ h ∈ set.
Proof. unfold EventBus.setDelete. rewrite list_elem_of_filter. tauto. Qed.

Lemma NoDup_setAdd h (set : list Handler) :
  NoDup set → NoDup (EventBus.setAdd h set).
Proof.
  intros Hnd. unfold EventBus.setAdd. destruct (decide (h ∈ set)); [exact Hnd|].
  apply NoDup_app. split; [exact Hnd|]. split; [|apply NoDup_singleton].
  intros x Hx Hx'. apply list_elem_of_singleton in Hx'. subst x. contradiction.
Qed.

Lemma setDelete_setAdd h (set : list Handler) :
  EventBus.setDelete h (EventBus.setAdd h set) = EventBus.setDelete h set.
Proof.
  unfold EventBus.setAdd, EventBus.setDelete.
  destruct (decide (h ∈ set)); [reflexivity|].
  rewrite filter_app, filter_cons_False by (intros Hne; apply Hne; reflexivity).
  rewrite filter_nil. apply app_nil_r.
Qed.

Lemma setDelete_notin h (set : list Handler) :
  h ∉ set → EventBus.setDelete h set = set.
Proof.
  intros Hnotin. unfold EventBus.setDelete.
  induction set as [|x set IH]; [reflexivity|].
  rewrite filter_cons_True.
  - f_equal. apply IH. intros Hin. apply Hnotin, list_elem_of_further, Hin.
  - intros ->. apply Hnotin, list_elem_of_here.
Qed.

Lemma after_snoc (history : list (@EventBus.Use Handler)) u :
  EventBus.after (history ++ [u]) = EventBus.use (EventBus.after history) u.
Proof. unfold EventBus.after. rewrite foldl_app. reflexivity. Qed.

Lemma NoDup_handlersOf (history : list (@EventBus.Use Handler)) event :
  NoDup (EventBus.handlersOf event (EventBus.after history)).
Proof.
  induction history as [|u history IH] using rev_ind.
  - apply NoDup_nil_2.
  - rewrite after_snoc. destruct u as [e h|e h|]; cbn [EventBus.use].
    + rewrite handlersOf_on. destruct (decide (event = e)) as [->|_]; [|exact IH].
      apply NoDup_setAdd, IH.
    + rewrite handlersOf_unsubscribe.
      destruct (decide (event = e)) as [->|_]; [|exact IH].
      apply NoDup_filter, IH.
    + apply NoDup_nil_2.
Qed.

Lemma subscribed_snoc event handler (history : list (@EventBus.Use Handler)) u :
  EventBus.subscribed event handler (history ++ [u])
  ↔ if decide (EventBus.concerns event handler u)
    then u = EventBus.On event handler
    else EventBus.subscribed event handler history.
Proof.
  unfold EventBus.subscribed. rewrite filter_app.
  destruct (decide (EventBus.concerns event handler u)) as [Hc|Hc].
  - rewrite filter_cons_True by exact Hc. rewrite filter_nil, last_snoc.
    split; congruence.
  - rewrite filter_cons_False by exact Hc. rewrite filter_nil, app_nil_r. tauto.
Qed.

Lemma elem_of_handlersOf_after (history : list (@EventBus.Use Handler)) event handler :
  handler ∈ EventBus.handlersOf event (EventBus.after history)
  ↔ EventBus.subscribed event handler history.
Proof.
  induction history as [|u history IH] using rev_ind.
  - unfold EventBus.subscribed. cbn. split; [intros Hin|discriminate].
    apply elem_of_nil in Hin. destruct Hin.
  - rewrite after_snoc, subscribed_snoc.
    destruct u as [e h|e h|]; cbn [EventBus.use].
    + rewrite handlersOf_on.
      destruct (decide (EventBus.concerns event handler (EventBus.On e h)))
        as [Hc|Hc].
      * destruct Hc as [Heq|[Heq|Heq]]; try discriminate.
        injection Heq as -> ->. rewrite decide_True by reflexivity.
        rewrite elem_of_setAdd. tauto.
      * destruct (decide (event = e)) as [->|Hne]; [|exact IH].
        rewrite elem_of_setAdd, IH. split; [|tauto].
        intros [->|Hs]; [|exact Hs]. exfalso. apply Hc. left. reflexivity.
    + rewrite handlersOf_unsubscribe.
      destruct (decide (EventBus.concerns event handler (EventBus.Unsubscribe e h)))
        as [Hc|Hc].
      * destruct Hc as [Heq|[Heq|Heq]]; try discriminate.
        injection Heq as -> ->. rewrite decide_True by reflexivity.
        rewrite elem_of_setDelete. split; [tauto|discriminate].
      * destruct (decide (event = e)) as [->|Hne]; [|exact IH].
        rewrite elem_of_setDelete, IH. split; [tauto|].
        intros Hs. split; [|exact Hs]. intros ->. apply Hc. right. left. reflexivity.
    + rewrite decide_True by (right; right; reflexivity).
      unfold EventBus.clear, EventBus.handlersOf. rewrite lookup_empty. cbn.
      split; [intros Hin; apply elem_of_nil in Hin; destruct Hin|discriminate].
Qed.

(** X13.  After any history of [on], unsubscribe and [clear] on a new
    bus, [emit] calls no handler twice, calls every handler with the
    payload emitted, and calls exactly the handlers subscribed to the
    event: those for which the last use that concerns them (an [on] or an
    unsubscribe of that handler for that event, or a [clear]) is an
    [on]. *)
Theorem emit_calls_the_subscribed_handlers_once :
  ∀ (history : list (@EventBus.Use Handler)) (event : string) (payload : Payload),
    NoDup (EventBus.emit event payload (EventBus.after history))
    ∧ (∀ (handler : Handler) (p : Payload),
         (handler, p) ∈ EventBus.emit event payload (EventBus.after history)
         ↔ p = payload ∧ EventBus.subscribed event handler history).
Proof.
  intros history event payload. rewrite emit_handlersOf. split.
  - apply NoDup_fmap_2; [|apply NoDup_handlersOf].
    intros h1 h2 Heq. congruence.
  - intros handler p. rewrite list_elem_of_fmap. split.
    + intros (h & Heq & Hin). injection Heq as -> ->.
      split; [reflexivity|]. apply elem_of_handlersOf_after, Hin.
    + intros [-> Hs]. exists handler. split; [reflexivity|].
      apply elem_of_handlersOf_after, Hs.
Qed.

Lemma handlersOf_on_fresh (hs : list Handler) event :
  NoDup hs →
  EventBus.handlersOf event
    (foldl (fun bus h => EventBus.on event h bus) EventBus.createEventBus hs)
  = hs.
Proof.
  induction hs as [|h hs IH] using rev_ind; intros Hnd; [reflexivity|].
  rewrite foldl_app. cbn [foldl]. rewrite handlersOf_on.
  rewrite decide_True by reflexivity.
  apply NoDup_app in Hnd as (Hnd & Hdisj & _). rewrite IH by exact Hnd.
  unfold EventBus.setAdd. rewrite decide_False; [reflexivity|].
  intros Hin. apply (Hdisj h Hin). apply list_elem_of_here.
Qed.

(** X14.  Handlers subscribed one after the other to one event of a new
    bus, each once, are called by [emit] in the order they subscribed, each
    with the payload; an [emit] of another event calls none of them. *)
Theorem emit_calls_in_subscription_order :
  ∀ (hs : list Handler) (event other : string) (payload : Payload),
    NoDup hs → other ≠ event →
    EventBus.emit event payload
      (foldl (fun bus h => EventBus.on event h bus) EventBus.createEventBus hs)
    = (fun h => (h, payload)) <$> hs
    ∧ EventBus.emit other payload
        (foldl (fun bus h => EventBus.on event h bus) EventBus.createEventBus hs)
      = [].
Proof.
  intros hs event other payload Hnd Hother. rewrite !emit_handlersOf. split.
  - rewrite handlersOf_on_fresh by exact Hnd. reflexivity.
  - assert (Hnone : EventBus.handlersOf other
                      (foldl (fun bus h => EventBus.on event h bus)
                             EventBus.createEventBus hs) = []).
    { clear Hnd. induction hs as [|h hs IH] using rev_ind; [reflexivity|].
      rewrite foldl_app. cbn [foldl]. rewrite handlersOf_on.
      rewrite decide_False by exact Hother. exact IH. }
    rewrite Hnone. reflexivity.
Qed.

(** X15.  On any bus, subscribing a handler to an event and then
    unsubscribing it leaves the calls of [emit] for that event as they
    were, without the calls of that handler (so a handler that was
    subscribed before is unsubscribed too), and leaves the other events
    alone.  Unsubscribing twice is unsubscribing once, and unsubscribing
    after [clear] leaves the bus without handlers. *)
Theorem unsubscribe_after_on_leaves_handler_out :
  ∀ (handlers : gmap string (list Handler)) (event e' : string) (handler : Handler)
    (payload : Payload),
    EventBus.emit e' payload
      (EventBus.unsubscribe event handler (EventBus.on event handler handlers))
    = (if decide (e' = event)
       then filter (fun call => call.1 ≠ handler) (EventBus.emit event payload handlers)
       else EventBus.emit e' payload handlers)
    ∧ EventBus.emit e' payload
        (EventBus.unsubscribe event handler
           (EventBus.unsubscribe event handler handlers))
      = EventBus.emit e' payload (EventBus.unsubscribe event handler handlers)
    ∧ EventBus.emit e' payload
        (EventBus.unsubscribe event handler (EventBus.clear handlers))
      = [].
Proof.
  intros handlers event e' handler payload. rewrite !emit_handlersOf.
  split; [|split].
  - rewrite handlersOf_unsubscribe, handlersOf_on.
    destruct (decide (e' = event)) as [->|Hne].
    + rewrite decide_True by reflexivity. rewrite setDelete_setAdd.
      unfold EventBus.setDelete.
      induction (EventBus.handlersOf event handlers) as [|x l IH]; [reflexivity|].
      cbn [fmap list_fmap]. destruct (decide (x = handler)) as [->|Hx].
      * rewrite !filter_cons_False by (cbn; intros Hn; apply Hn; reflexivity).
        exact IH.
      * rewrite !filter_cons_True by (cbn; exact Hx).
        cbn [fmap list_fmap]. f_equal. exact IH.
    + rewrite handlersOf_on, decide_False by exact Hne. reflexivity.
  - rewrite !handlersOf_unsubscribe.
    destruct (decide (e' = event)) as [->|Hne]; [|reflexivity].
    rewrite decide_True by reflexivity. f_equal.
    apply setDelete_notin. rewrite elem_of_setDelete. tauto.
  - rewrite handlersOf_unsubscribe.
    unfold EventBus.clear, EventBus.handlersOf. rewrite lookup_empty.
    destruct (decide (e' = event)); reflexivity.
Qed.

End BusProperties.

Lemma emit_calls_in_subscription_order_witness :
  EventBus.emit "win" 40
    (foldl (fun bus h => EventBus.on "win" h bus) EventBus.createEventBus
           [2%nat; 0%nat; 1%nat])
  = [(2%nat, 40); (0%nat, 40); (1%nat, 40)]
  ∧ EventBus.emit "bonus" 40
      (foldl (fun bus h => EventBus.on "win" h bus) EventBus.createEventBus
             [2%nat; 0%nat; 1%nat])
    = [].
Proof.
  apply (emit_calls_in_subscription_order (Handler := nat) (Payload := Z)
           [2%nat; 0%nat; 1%nat] "win" "bonus" 40).
  - apply (bool_decide_unpack (NoDup [2%nat; 0%nat; 1%nat])). vm_compute. exact I.
  - discriminate.
Defined.


(** ** Money *)

Lemma isDigit_word c : Money.isDigit c = true → Money.isWordChar c = true.
Proof. unfold Money.isWordChar. intros ->. reflexivity. Qed.

Lemma isDigit_not_special c :
  Money.isDigit c = true →
  Ascii.eqb c "." = false ∧ Ascii.eqb c "-" = false.
Proof.
  destruct c as [[] [] [] [] [] [] [] []]; vm_compute; intros Hd;
    try discriminate; split; reflexivity.
Qed.

Lemma string_of_uint_digits d :
  Forall (fun c => Money.isDigit c = true)
         (list_ascii_of_string (NilEmpty.string_of_uint d)).
Proof.
  induction d; cbn [NilEmpty.string_of_uint list_ascii_of_string];
    [apply Forall_nil; exact I|..]; apply Forall_cons; split; try exact IHd; reflexivity.
Qed.

Lemma digitsOf_digits n :
  Forall (fun c => Money.isDigit c = true) (Money.digitsOf n)
  ∧ (0 < length (Money.digitsOf n))%nat.
Proof.
  split; [apply string_of_uint_digits|].
  unfold Money.digitsOf. destruct (Z.to_N n) as [|p]; [cbn; lia|].
  cbn [N.to_uint]. pose proof (Unsigned.to_uint_nonnil p) as Hne.
  destruct (Pos.to_uint p); [congruence|..]; cbn; lia.
Qed.

Lemma digitsOf_zero : Money.digitsOf 0 = ["0"%char].
Proof. reflexivity. Qed.

Lemma digitRun_all ds :
  Forall (fun c => Money.isDigit c = true) ds → Money.digitRun ds = length ds.
Proof.
  induction 1 as [|c ds Hc _ IH]; [reflexivity|].
  cbn [Money.digitRun length]. rewrite Hc, IH. reflexivity.
Qed.

Lemma getSubstitution_plain before after capture sep :
  Forall (fun c => c ≠ "$"%char) sep →
  Money.getSubstitution before after capture sep = sep.
Proof.
  induction 1 as [|c sep Hc _ IH]; [reflexivity|].
  cbn [Money.getSubstitution]. apply Ascii.eqb_neq in Hc. rewrite Hc. cbn [negb].
  rewrite IH. reflexivity.
Qed.

(** After a digit, the scan puts the separator before every run of
    digits whose length is a multiple of three. *)
Lemma replaceFrom_after_digit sep ds :
  Forall (fun c => c ≠ "$"%char) sep →
  Forall (fun c => Money.isDigit c = true) ds →
  ∀ before p,
    last before = Some p → Money.isDigit p = true →
    Money.replaceFrom sep before ds = groupedTail sep ds.
Proof.
  intros Hsep Hds. induction Hds as [|d ds Hd Hrest IH]; intros before p Hlast Hp.
  - cbn [Money.replaceFrom groupedTail]. unfold Money.matchesAt. cbn [Money.digitRun].
    rewrite andb_false_r. reflexivity.
  - cbn [Money.replaceFrom groupedTail]. unfold Money.matchesAt. rewrite Hlast.
    rewrite (isDigit_word _ Hp), (isDigit_word _ Hd). cbn [Bool.eqb andb].
    rewrite (digitRun_all (d :: ds)) by (apply Forall_cons; split; assumption).
    cbn [length]. change (0 <? S (length ds))%nat with true. cbn [andb].
    rewrite (IH (before ++ [d]) d) by (try apply last_snoc; assumption).
    destruct (S (length ds) mod 3 =? 0)%nat; [|reflexivity].
    rewrite getSubstitution_plain by exact Hsep. reflexivity.
Qed.

Lemma replaceFrom_minus sep rest :
  Money.replaceFrom sep [] ("-"%char :: rest)
  = "-"%char :: Money.replaceFrom sep ["-"%char] rest.
Proof. reflexivity. Qed.

(** The integer part of a fixed number: an optional minus sign and
    digits. *)
Lemma replaceThousands_digits sep (negative : bool) d ds :
  Forall (fun c => c ≠ "$"%char) sep →
  Money.isDigit d = true → Forall (fun c => Money.isDigit c = true) ds →
  Money.replaceThousands ((if negative then ["-"%char] else []) ++ d :: ds) sep
  = (if negative then ["-"%char] else []) ++ d :: groupedTail sep ds.
Proof.
  intros Hsep Hd Hds. unfold Money.replaceThousands.
  assert (Hfirst : ∀ before,
             match last before with
             | Some p => Money.isWordChar p = false
             | None => True
             end →
             Money.replaceFrom sep before (d :: ds) = d :: groupedTail sep ds).
  { intros before Hbefore. cbn [Money.replaceFrom]. unfold Money.matchesAt.
    rewrite (isDigit_word _ Hd).
    replace (match last before with
             | Some c => Money.isWordChar c
             | None => false
             end) with false
      by (destruct (last before); [symmetry; exact Hbefore|reflexivity]).
    cbn [Bool.eqb andb app].
    rewrite (replaceFrom_after_digit sep ds Hsep Hds (before ++ [d]) d)
      by (try apply last_snoc; assumption).
    reflexivity. }
  destruct negative; cbn [app].
  - rewrite replaceFrom_minus. f_equal. apply Hfirst. reflexivity.
  - apply Hfirst. exact I.
Qed.

Lemma mod3_succ (n : nat) :
  (if (S n mod 3 =? 0)%nat then (n mod 3 = 2)%nat
   else (S n mod 3 = S (n mod 3))%nat).
Proof.
  pose proof (Nat.mod_upper_bound n 3 ltac:(lia)) as H1.
  pose proof (Nat.mod_upper_bound (S n) 3 ltac:(lia)) as H2.
  pose proof (Nat.div_mod_eq n 3) as H3.
  pose proof (Nat.div_mod_eq (S n) 3) as H4.
  destruct (Nat.eqb_spec (S n mod 3) 0) as [Hz|Hnz];
    revert H1 H2 H3 H4; try revert Hz; try revert Hnz;
    generalize (n / 3)%nat, (S n / 3)%nat, (n mod 3)%nat, (S n mod 3)%nat;
    intros; lia.
Qed.

(** The grouped digits are the digits in groups of three, counted from
    the right, each group after a separator. *)
Lemma groupedTail_groups sep ds :
  ∃ head groups,
    ds = head ++ concat groups
    ∧ (length head < 3)%nat
    ∧ length head = (length ds mod 3)%nat
    ∧ Forall (fun group => length group = 3%nat) groups
    ∧ groupedTail sep ds = head ++ concat ((fun group => sep ++ group) <$> groups).
Proof.
  induction ds as [|d ds IH].
  - exists [], []. split; [reflexivity|]. split; [cbn; lia|].
    split; [reflexivity|]. split; [apply Forall_nil; exact I|reflexivity].
  - destruct IH as (head & groups & Hds & Hlt & Hlen & Hgroups & Htail).
    cbn [groupedTail]. rewrite Htail.
    pose proof (mod3_succ (length ds)) as Hmod. cbn [length].
    destruct (S (length ds) mod 3 =? 0)%nat eqn:Hz.
    + exists [], ((d :: head) :: groups).
      split; [cbn [concat app]; rewrite Hds at 1; reflexivity|].
      split; [cbn; lia|].
      split; [apply Nat.eqb_eq in Hz; rewrite Hz; reflexivity|].
      split; [apply Forall_cons; split; [cbn [length]; lia|exact Hgroups]|].
      cbn [fmap list_fmap concat app]. rewrite <- app_assoc. reflexivity.
    + exists (d :: head), groups.
      split; [cbn [app]; rewrite Hds at 1; reflexivity|].
      pose proof (Nat.mod_upper_bound (S (length ds)) 3 ltac:(lia)) as Hup.
      split; [cbn [length]; lia|].
      split; [cbn [length]; lia|].
      split; [exact Hgroups|]. reflexivity.
Qed.

Lemma split_no_sep sep s :
  Forall (fun c => Ascii.eqb c sep = false) s → Money.split sep s = [s].
Proof.
  induction 1 as [|c s Hc _ IH]; [reflexivity|].
  cbn [Money.split]. rewrite Hc, IH. reflexivity.
Qed.

Lemma split_at_sep sep a b :
  Forall (fun c => Ascii.eqb c sep = false) a →
  Money.split sep (a ++ sep :: b) = a :: Money.split sep b.
Proof.
  induction 1 as [|c a Hc _ IH].
  - cbn [app Money.split]. rewrite Ascii.eqb_refl. reflexivity.
  - cbn [app Money.split]. rewrite Hc, IH. reflexivity.
Qed.

Lemma digits_no_dot ds :
  Forall (fun c => Money.isDigit c = true) ds →
  Forall (fun c => Ascii.eqb c "." = false) ds.
Proof.
  intros Hds. eapply Forall_impl; [exact Hds|].
  intros c Hc. apply (isDigit_not_special c Hc).
Qed.

Lemma sign_no_dot (negative : bool) :
  Forall (fun c => Ascii.eqb c "." = false) (if negative then ["-"%char] else []).
Proof. destruct negative; repeat constructor. Qed.

(** The integer digits and the fraction digits [toFixed] prints for the
    scaled and rounded magnitude [n]. *)
Lemma fixed_digits (n : Z) (f : nat) :
  let m := Money.digitsOf n in
  let padded := replicate (S f - length m) "0"%char ++ m in
  Forall (fun c => Money.isDigit c = true) padded
  ∧ (f < length padded)%nat
  ∧ length (drop (length padded - f) padded) = f
  ∧ (0 < length (take (length padded - f) padded))%nat.
Proof.
  intros m padded. destruct (digitsOf_digits n) as [Hdigits Hlen]. fold m in Hdigits, Hlen.
  assert (Hpadded : length padded = (S f - length m + length m)%nat)
    by (unfold padded; rewrite length_app, length_replicate; reflexivity).
  split.
  { unfold padded. apply Forall_app. split; [|exact Hdigits].
    apply Forall_replicate. reflexivity. }
  split; [lia|]. split; [rewrite length_drop; lia|rewrite length_take; lia].
Qed.

(** X16.  [formatMoney], for a number of decimals from 0 to 100, an
    amount below [10 ^ 21] in magnitude and a thousands separator without
    [$]: the digits are those of the magnitude of the amount times
    [10 ^ decimals] rounded to the nearest integer (a half upwards), padded
    with zeros to at least [decimals + 1] digits.  The last [decimals] of
    them are the fraction; the others are split into a first group of one
    to three digits and groups of three, with the separator before each
    group of three.  The result is the currency, a space, a minus sign for
    an amount below zero (also when it rounds to zero), the grouped digits
    and, unless [decimals] is 0, the decimal separator and the fraction. *)
Theorem formatMoney_groups_thousands :
  ∀ (Number_toString : Q → list ascii) (amount : Q) (format : Money.MoneyFormat),
    0 ≤ Money.decimals format ≤ 100 →
    (- inject_Z (10 ^ 21) < amount < inject_Z (10 ^ 21))%Q →
    Forall (fun c => c ≠ "$"%char)
           (list_ascii_of_string (Money.thousandSeparator format)) →
    let f := Z.to_nat (Money.decimals format) in
    let magnitude := if Qlt_le_dec amount 0 then (- amount)%Q else amount in
    let n := Qfloor (magnitude * inject_Z (10 ^ Money.decimals format) + (1 # 2))%Q in
    let sign := if Qlt_le_dec amount 0 then ["-"%char] else [] in
    let sep := list_ascii_of_string (Money.thousandSeparator format) in
    ∃ first groups fraction : _,
      first ++ concat groups ++ fraction
      = replicate (S f - length (Money.digitsOf n)) "0"%char ++ Money.digitsOf n
      ∧ (1 ≤ length first ≤ 3)%nat
      ∧ Forall (fun group => length group = 3%nat) groups
      ∧ length fraction = f
      ∧ Money.formatMoney Number_toString amount format
        = Some (Money.currency format
                +:+ " "
                +:+ string_of_list_ascii
                      (sign ++ first ++ concat ((fun group => sep ++ group) <$> groups))
                +:+ (if (f =? 0)%nat then ""%string
                     else Money.decimalSeparator format
                          +:+ string_of_list_ascii fraction)).
Proof.
  intros Number_toString amount format Hdec Hrange Hsep f magnitude n sign sep.
  set (m := Money.digitsOf n).
  set (padded := replicate (S f - length m) "0"%char ++ m).
  destruct (fixed_digits n f) as (Hdigits & Hlen & Hfrac & Hint).
  fold m in Hdigits, Hlen, Hfrac, Hint. fold padded in Hdigits, Hlen, Hfrac, Hint.
  set (intDigits := take (length padded - f) padded) in *.
  set (fraction := drop (length padded - f) padded) in *.
  assert (Hsplit : intDigits ++ fraction = padded) by apply take_drop.
  assert (Hint_digits : Forall (fun c => Money.isDigit c = true) intDigits).
  { rewrite <- Hsplit in Hdigits. apply Forall_app in Hdigits. tauto. }
  assert (Hfrac_digits : Forall (fun c => Money.isDigit c = true) fraction).
  { rewrite <- Hsplit in Hdigits. apply Forall_app in Hdigits. tauto. }
  destruct intDigits as [|d ds] eqn:Hint_eq; [cbn in Hint; lia|].
  apply Forall_cons in Hint_digits as [Hd Hds].
  destruct (groupedTail_groups sep ds) as (head & groups & Hds_eq & Hlt & _ & Hgroups & Htail).
  exists (d :: head), groups, fraction.
  split.
  { fold m. fold padded. rewrite <- Hsplit. cbn [app]. rewrite Hds_eq at 1.
    rewrite <- app_assoc. reflexivity. }
  split; [cbn [length]; lia|]. split; [exact Hgroups|]. split; [exact Hfrac|].
  (* the fixed string *)
  assert (Hfixed :
    Money.toFixed Number_toString amount (Money.decimals format)
    = Some (sign ++ (d :: ds)
            ++ (if (f =? 0)%nat then [] else "."%char :: fraction))).
  { unfold Money.toFixed.
    replace ((Money.decimals format <? 0) || (100 <? Money.decimals format))%bool
      with false by (symmetry; apply orb_false_iff; split;
                     [apply Z.ltb_ge|apply Z.ltb_ge]; lia).
    cbv zeta. fold f. fold magnitude. fold sign.
    destruct (Qlt_le_dec magnitude (inject_Z (10 ^ 21))) as [_|Hbig].
    - fold n. fold m. f_equal. f_equal.
      destruct f as [|f'] eqn:Hf.
      + cbn [Nat.eqb]. rewrite app_nil_r.
        assert (Hpad : padded = m).
        { unfold padded. replace (1 - length m)%nat with 0%nat
            by (destruct (digitsOf_digits n) as [_ Hm]; fold m in Hm; lia).
          reflexivity. }
        rewrite <- Hint_eq. rewrite <- Hpad. unfold intDigits.
        rewrite Nat.sub_0_r. symmetry. apply take_ge. lia.
      + cbn [Nat.eqb]. fold padded. rewrite <- Hint_eq. reflexivity.
    - exfalso. unfold magnitude in Hbig. destruct (Qlt_le_dec amount 0); lra. }
  unfold Money.formatMoney. rewrite Hfixed. cbn [mbind option_bind]. cbv zeta.
  assert (Hsign : sign = (if (if Qlt_le_dec amount 0 then true else false) then ["-"%char] else [])).
  { unfold sign. destruct (Qlt_le_dec amount 0); reflexivity. }
  assert (Hint_nodot : Forall (fun c => Ascii.eqb c "." = false) (sign ++ d :: ds)).
  { apply Forall_app. split; [rewrite Hsign; apply sign_no_dot|].
    apply digits_no_dot. apply Forall_cons. split; assumption. }
  assert (Hthousands :
    Money.replaceThousands (sign ++ d :: ds) sep
    = sign ++ (d :: head) ++ concat ((fun group => sep ++ group) <$> groups)).
  { rewrite Hsign. rewrite replaceThousands_digits by assumption.
    rewrite Htail. reflexivity. }
  destruct (f =? 0)%nat eqn:Hf0.
  - rewrite app_nil_r. rewrite (split_no_sep _ _ Hint_nodot).
    cbn [lookup list_lookup default]. unfold id. fold sep. rewrite Hthousands.
    reflexivity.
  - rewrite app_assoc. rewrite (split_at_sep _ _ _ Hint_nodot).
    rewrite (split_no_sep _ _ (digits_no_dot _ Hfrac_digits)).
    cbn [lookup list_lookup default]. unfold id. fold sep. rewrite Hthousands.
    destruct fraction as [|x xs]; [apply Nat.eqb_neq in Hf0; cbn in Hfrac; lia|].
    reflexivity.
Qed.

Lemma formatMoney_groups_thousands_witness :
  ∃ first groups fraction : _,
    first ++ concat groups ++ fraction = list_ascii_of_string "123456789"
    ∧ (1 ≤ length first ≤ 3)%nat
    ∧ Forall (fun group => length group = 3%nat) groups
    ∧ length fraction = 2%nat
    ∧ Money.formatMoney (fun _ => []) (- (123456789 # 100))
        (Money.mkFormat "CLP" 2 "." ",")
      = Some ("CLP" +:+ " "
              +:+ string_of_list_ascii
                    (["-"%char] ++ first
                     ++ concat ((fun group => ["."%char] ++ group) <$> groups))
              +:+ ("," +:+ string_of_list_ascii fraction)).
Proof.
  apply (formatMoney_groups_thousands (fun _ => []) (- (123456789 # 100))
           (Money.mkFormat "CLP" 2 "." ",")).
  - cbn. lia.
  - split; reflexivity.
  - repeat constructor; discriminate.
Defined.


(** ** The page *)

(** X17.  The rules carousel, for a paytable with at least one page and
    an index that is not negative: next and previous keep the index within
    the pages and wrap around at the ends, each undoes the other for an
    index within the pages, and the page shown after next is the following
    one, the first after the last.  There is always an active page.  With
    no page at all the buttons leave the index as it is. *)
Theorem rules_carousel_wraps_around :
  ∀ (A : Type) (rulesPages : list A) (prev : Z),
    rulesPages ≠ [] → 0 ≤ prev →
    let total := Z.of_nat (length rulesPages) in
    0 ≤ Page.goNextRule total prev < total
    ∧ 0 ≤ Page.goPrevRule total prev < total
    ∧ Page.goPrevRule total (Page.goNextRule total prev) = prev mod total
    ∧ Page.goNextRule total (Page.goPrevRule total prev) = prev mod total
    ∧ Page.activeRule rulesPages (Page.goNextRule total prev)
      = rulesPages !! Z.to_nat ((prev + 1) mod total)
    ∧ is_Some (Page.activeRule rulesPages prev)
    ∧ Page.goNextRule 0 prev = prev ∧ Page.goPrevRule 0 prev = prev.
Proof.
  intros A rulesPages prev Hne Hprev total.
  assert (Htotal : 0 < total).
  { unfold total. destruct rulesPages; [congruence|cbn [length]; lia]. }
  assert (Hlength : total = Z.of_nat (length rulesPages)) by reflexivity.
  clearbody total.
  assert (Hnext : Page.goNextRule total prev = (prev + 1) mod total).
  { unfold Page.goNextRule. destruct (Z.eqb_spec total 0); [lia|].
    apply Z.rem_mod_nonneg; lia. }
  assert (Hback : Page.goPrevRule total prev = (prev - 1 + total) mod total).
  { unfold Page.goPrevRule. destruct (Z.eqb_spec total 0); [lia|].
    apply Z.rem_mod_nonneg; lia. }
  pose proof (Z.mod_pos_bound (prev + 1) total Htotal) as Hn.
  pose proof (Z.mod_pos_bound (prev - 1 + total) total Htotal) as Hp.
  pose proof (Z.mod_pos_bound prev total Htotal) as Hm.
  split; [rewrite Hnext; exact Hn|]. split; [rewrite Hback; exact Hp|].
  split.
  { rewrite Hnext. unfold Page.goPrevRule. destruct (Z.eqb_spec total 0); [lia|].
    rewrite Z.rem_mod_nonneg by lia.
    replace ((prev + 1) mod total - 1 + total)
      with ((prev + 1) mod total + (total - 1)) by lia.
    rewrite Zplus_mod_idemp_l. replace (prev + 1 + (total - 1)) with (prev + 1 * total) by lia.
    apply Z.mod_add. lia. }
  split.
  { rewrite Hback. unfold Page.goNextRule. destruct (Z.eqb_spec total 0); [lia|].
    rewrite Z.rem_mod_nonneg by lia.
    rewrite Zplus_mod_idemp_l. replace (prev - 1 + total + 1) with (prev + 1 * total) by lia.
    apply Z.mod_add. lia. }
  split.
  { rewrite Hnext. unfold Page.activeRule. cbv zeta. rewrite <- Hlength.
    destruct (Z.ltb_spec 0 total); [|lia].
    rewrite Z.rem_mod_nonneg by lia. rewrite Z.mod_mod by lia.
    destruct (Z.ltb_spec ((prev + 1) mod total) 0); [lia|reflexivity]. }
  split.
  { unfold Page.activeRule. cbv zeta. rewrite <- Hlength.
    destruct (Z.ltb_spec 0 total); [|lia].
    rewrite Z.rem_mod_nonneg by lia.
    destruct (Z.ltb_spec (prev mod total) 0); [lia|].
    apply lookup_lt_is_Some. lia. }
  split; reflexivity.
Qed.

Lemma rules_carousel_wraps_around_witness :
  Page.goNextRule 3 2 = 0 ∧ Page.goPrevRule 3 0 = 2
  ∧ Page.activeRule ["a"; "b"; "c"]%string (Page.goNextRule 3 2) = Some "a"%string.
Proof.
  destruct (rules_carousel_wraps_around string ["a"; "b"; "c"]%string 2
              ltac:(discriminate) ltac:(lia)) as (_ & _ & _ & _ & Hactive & _).
  split; [reflexivity|]. split; [reflexivity|]. exact Hactive.
Defined.

Lemma indexOf_spec x values :
  (Page.indexOf x values = -1 ∧ x ∉ values)
  ∨ (0 ≤ Page.indexOf x values < Z.of_nat (length values)
     ∧ values !! Z.to_nat (Page.indexOf x values) = Some x
     ∧ ∀ j, (j < Z.to_nat (Page.indexOf x values))%nat → values !! j ≠ Some x).
Proof.
  induction values as [|v rest IH].
  - left. split; [reflexivity|apply not_elem_of_nil].
  - cbn [Page.indexOf]. destruct (Z.eqb_spec v x) as [->|Hne].
    + right. split; [cbn [length]; lia|]. split; [reflexivity|].
      intros j Hj. cbn in Hj. lia.
    + destruct IH as [[Hminus Hnotin]|(Hrange & Hlook & Hfirst)].
      * left. rewrite Hminus. cbn. split; [reflexivity|].
        intros Hin. apply elem_of_cons in Hin as [->|Hin]; [congruence|contradiction].
      * right. destruct (Z.ltb_spec (Page.indexOf x rest) 0) as [Hneg|_]; [lia|].
        split; [cbn [length]; lia|].
        replace (Z.to_nat (Page.indexOf x rest + 1))
          with (S (Z.to_nat (Page.indexOf x rest))) by lia.
        split; [exact Hlook|].
        intros [|j] Hj; cbn; [congruence|]. apply Hfirst. lia.
Qed.

Lemma safeBetValues_nonempty betValues :
  (0 < length (Page.safeBetValues betValues))%nat.
Proof. destruct betValues; cbn; lia. Qed.

Lemma betIndex_range values bet :
  (0 < length values)%nat →
  0 ≤ Page.betIndex values bet < Z.of_nat (length values).
Proof.
  intros Hlen. unfold Page.betIndex.
  destruct (indexOf_spec bet values) as [[-> _]|(Hrange & _)]; lia.
Qed.

Lemma betIndex_of_member values i v :
  NoDup values → values !! i = Some v → Page.betIndex values v = Z.of_nat i.
Proof.
  intros Hnd Hi. unfold Page.betIndex.
  destruct (indexOf_spec v values) as [[_ Hnotin]|(Hrange & Hlook & _)].
  - exfalso. apply Hnotin. apply list_elem_of_lookup. exists i. exact Hi.
  - pose proof (NoDup_lookup _ _ _ _ Hnd Hlook Hi). lia.
Qed.

(** X18.  The bet selector.  The bet shown is always one of the bet
    values: the current bet if it is one, the first value otherwise (0
    when there are no values).  An enabled minus or plus button sets a bet
    that is one of the values; when no value is listed twice it is the
    value just before or just after the bet shown. *)
Theorem bet_buttons_move_within_the_values :
  ∀ (betValues : list Z) (bet : Z),
    let values := Page.safeBetValues betValues in
    (0 ≤ Page.betIndex values bet < Z.of_nat (length values)
     ∧ Page.betValue values bet ∈ values)
    ∧ (bet ∈ values → Page.betValue values bet = bet)
    ∧ (bet ∉ values → Page.betValue values bet = default 0 (head values))
    ∧ (Page.canDecreaseBet values bet = true →
       ∃ v, Page.decreaseBet values bet = Some v ∧ v ∈ values
            ∧ (NoDup values →
               Page.betIndex values v = Page.betIndex values bet - 1))
    ∧ (Page.canIncreaseBet values bet = true →
       ∃ v, Page.increaseBet values bet = Some v ∧ v ∈ values
            ∧ (NoDup values →
               Page.betIndex values v = Page.betIndex values bet + 1)).
Proof.
  intros betValues bet values.
  pose proof (safeBetValues_nonempty betValues) as Hlen. fold values in Hlen.
  pose proof (betIndex_range values bet Hlen) as Hrange.
  clearbody values.
  destruct (lookup_lt_is_Some_2 values (Z.to_nat (Page.betIndex values bet)))
    as [current Hcurrent]; [lia|].
  split; [|split; [|split; [|split]]].
  - split; [exact Hrange|]. unfold Page.betValue. rewrite Hcurrent.
    apply list_elem_of_lookup. eexists. exact Hcurrent.
  - intros Hin. unfold Page.betValue, Page.betIndex.
    destruct (indexOf_spec bet values) as [[_ Hnotin]|(Hr & Hlook & _)];
      [contradiction|].
    rewrite Z.max_r by lia. rewrite Hlook. reflexivity.
  - intros Hnotin. unfold Page.betValue, Page.betIndex.
    destruct (indexOf_spec bet values) as [[-> _]|(_ & Hlook & _)].
    + change (Z.to_nat (Z.max 0 (-1))) with 0%nat.
      destruct values; reflexivity.
    + exfalso. apply Hnotin. apply list_elem_of_lookup. eexists. exact Hlook.
  - unfold Page.canDecreaseBet, Page.decreaseBet. intros Hcan.
    apply Z.ltb_lt in Hcan. cbv zeta.
    destruct (Z.ltb_spec (Page.betIndex values bet - 1) 0) as [Hneg|_]; [lia|].
    destruct (lookup_lt_is_Some_2 values (Z.to_nat (Page.betIndex values bet - 1)))
      as [v Hv]; [lia|].
    exists v. split; [exact Hv|].
    split; [apply list_elem_of_lookup; eexists; exact Hv|].
    intros Hnd. rewrite (betIndex_of_member values _ v Hnd Hv). lia.
  - unfold Page.canIncreaseBet, Page.increaseBet. intros Hcan.
    apply Z.ltb_lt in Hcan.
    destruct (lookup_lt_is_Some_2 values (Z.to_nat (Page.betIndex values bet + 1)))
      as [v Hv]; [lia|].
    exists v. split; [exact Hv|].
    split; [apply list_elem_of_lookup; eexists; exact Hv|].
    intros Hnd. rewrite (betIndex_of_member values _ v Hnd Hv). lia.
Qed.

(** Values listed twice: the button that raises the bet can lead back. *)
Example bet_values_listed_twice :
  Page.increaseBet [1; 2; 1; 3] 2 = Some 1
  ∧ Page.betIndex [1; 2; 1; 3] 1 = 0.
Proof. split; reflexivity. Qed.

Lemma bestRevealed_snoc revealed ticket :
  Page.bestRevealed (revealed ++ [ticket])
  = match Page.bestRevealed revealed with
    | None => Some ticket
    | Some b =>
        if Page.totalWin b <? Page.totalWin ticket then Some ticket else Some b
    end.
Proof. unfold Page.bestRevealed. rewrite foldl_app. reflexivity. Qed.

Lemma bestRevealed_first_maximum revealed :
  match Page.bestRevealed revealed with
  | None => revealed = []
  | Some best =>
      ∃ before after,
        revealed = before ++ best :: after
        ∧ Forall (fun ticket => Page.totalWin ticket < Page.totalWin best) before
        ∧ Forall (fun ticket => Page.totalWin ticket ≤ Page.totalWin best) after
  end.
Proof.
  induction revealed as [|ticket revealed IH] using rev_ind; [reflexivity|].
  rewrite bestRevealed_snoc.
  destruct (Page.bestRevealed revealed) as [b|].
  - destruct IH as (before & after & -> & Hbefore & Hafter).
    destruct (Z.ltb_spec (Page.totalWin b) (Page.totalWin ticket)) as [Hlt|Hge].
    + exists (before ++ b :: after), []. split; [reflexivity|].
      split; [|apply Forall_nil; exact I].
      apply Forall_app. split.
      * eapply Forall_impl; [exact Hbefore|]. cbn. intros; lia.
      * apply Forall_cons. split; [exact Hlt|].
        eapply Forall_impl; [exact Hafter|]. cbn. intros; lia.
    + exists before, (after ++ [ticket]).
      split; [rewrite <- app_assoc; reflexivity|]. split; [exact Hbefore|].
      apply Forall_app. split; [exact Hafter|].
      apply Forall_cons. split; [lia|apply Forall_nil; exact I].
  - subst revealed. exists [], []. split; [reflexivity|].
    split; apply Forall_nil; exact I.
Qed.

Lemma revealedTotalWin_sum revealed :
  ∀ acc,
    foldl (fun acc ticket => acc + Page.totalWin ticket) acc revealed
    = acc + sumZ (Page.totalWin <$> revealed).
Proof.
  induction revealed as [|ticket revealed IH]; intros acc.
  - cbn. unfold sumZ. cbn. lia.
  - cbn [foldl fmap list_fmap]. rewrite IH.
    change (sumZ (?x :: ?l)) with (x + sumZ l). lia.
Qed.

(** X19.  The summary of a pack: the revealed tickets are the first
    [packRevealed] tickets of the pack (all of them when there are fewer),
    their total win is the sum of their wins, and the best ticket is the
    first revealed ticket of maximal win: every ticket before it wins
    less, none after it wins more.  There is no best ticket only when no
    ticket is revealed. *)
Theorem pack_summary_best_is_first_maximum :
  ∀ (plays : list Page.PackPlay) (packRevealed : nat),
    let revealed := Page.revealedPlays plays packRevealed in
    length revealed = Nat.min packRevealed (length plays)
    ∧ Page.revealedTotalWin revealed = sumZ (Page.totalWin <$> revealed)
    ∧ match Page.bestRevealed revealed with
      | None => packRevealed = 0%nat ∨ plays = []
      | Some best =>
          ∃ before after,
            revealed = before ++ best :: after
            ∧ Forall (fun ticket => Page.totalWin ticket < Page.totalWin best) before
            ∧ Forall (fun ticket => Page.totalWin ticket ≤ Page.totalWin best) after
      end.
Proof.
  intros plays packRevealed revealed.
  split; [apply length_take|].
  split; [unfold Page.revealedTotalWin; rewrite revealedTotalWin_sum; lia|].
  pose proof (bestRevealed_first_maximum revealed) as Hbest.
  destruct (Page.bestRevealed revealed); [exact Hbest|].
  unfold revealed, Page.revealedPlays in Hbest.
  apply take_nil_inv in Hbest. exact Hbest.
Qed.


(** ** The requests in flight *)

Lemma elem_of_mapDelete requestId entries entry :
  entry ∈ Client.mapDelete requestId entries ↔ entry ∈ entries ∧ entry.1 ≠ requestId.
Proof.
  unfold Client.mapDelete. rewrite list_elem_of_In, filter_In, <- list_elem_of_In.
  destruct (String.eqb_spec entry.1 requestId); cbn; split; intros [H1 H2];
    (split; [exact H1|]); congruence.
Qed.

Lemma NoDup_mapDelete requestId entries :
  NoDup entries.*1 → NoDup (Client.mapDelete requestId entries).*1.
Proof.
  unfold Client.mapDelete. induction entries as [|e entries IH]; [intros; exact H|].
  rewrite fmap_cons. intros Hnd. apply NoDup_cons in Hnd as [Hhead Hnd].
  cbn [List.filter]. destruct (negb (String.eqb e.1 requestId)); [|apply IH, Hnd].
  rewrite fmap_cons. apply NoDup_cons. split; [|apply IH, Hnd].
  intros Hin. apply Hhead. apply list_elem_of_fmap in Hin as (x & Heq & Hx).
  apply list_elem_of_fmap. exists x. split; [exact Heq|].
  apply list_elem_of_In in Hx. apply filter_In in Hx as [Hx _].
  apply list_elem_of_In. exact Hx.
Qed.

Lemma elem_of_timer_filter request (timers : list (nat * string)) t :
  t ∈ List.filter (fun t : nat * string => negb (t.1 =? request)%nat) timers
  ↔ t ∈ timers ∧ t.1 ≠ request.
Proof.
  rewrite list_elem_of_In, filter_In, <- list_elem_of_In.
  destruct (Nat.eqb_spec t.1 request); cbn; split; intros [H1 H2];
    (split; [exact H1|]); congruence.
Qed.

Lemma NoDup_timer_filter request (timers : list (nat * string)) :
  NoDup timers.*1 →
  NoDup (List.filter (fun t : nat * string => negb (t.1 =? request)%nat) timers).*1.
Proof.
  induction timers as [|t timers IH]; [intros; exact H|].
  rewrite fmap_cons. intros Hnd. apply NoDup_cons in Hnd as [Hhead Hnd].
  cbn [List.filter]. destruct (negb (t.1 =? request)%nat); [|apply IH, Hnd].
  rewrite fmap_cons. apply NoDup_cons. split; [|apply IH, Hnd].
  intros Hin. apply Hhead. apply list_elem_of_fmap in Hin as (x & Heq & Hx).
  apply list_elem_of_fmap. exists x. split; [exact Heq|].
  apply elem_of_timer_filter in Hx. tauto.
Qed.

Lemma settledIn_snoc log effect :
  settledIn (log ++ [effect])
  = settledIn log ++ match Client.settled effect with Some r => [r] | None => [] end.
Proof.
  unfold settledIn. rewrite omap_app. cbn [omap list_omap].
  destruct (Client.settled effect); reflexivity.
Qed.

Lemma timers_same_request (s : Client.State) request id1 id2 :
  NoDup (Client.timers s).*1 →
  (request, id1) ∈ Client.timers s → (request, id2) ∈ Client.timers s → id1 = id2.
Proof.
  intros Hnd H1 H2.
  apply list_elem_of_lookup in H1 as [i Hi]. apply list_elem_of_lookup in H2 as [j Hj].
  assert (Hi' : (Client.timers s).*1 !! i = Some request)
    by (rewrite list_lookup_fmap, Hi; reflexivity).
  assert (Hj' : (Client.timers s).*1 !! j = Some request)
    by (rewrite list_lookup_fmap, Hj; reflexivity).
  pose proof (NoDup_lookup _ _ _ _ Hnd Hi' Hj'). subst j. congruence.
Qed.

(** Settling a pending request keeps the invariant. *)
Lemma clientInvariant_settle s requestId request effect :
  clientInvariant s → (requestId, request) ∈ Client.pending s →
  Client.settled effect = Some request →
  clientInvariant (Client.settle requestId request effect s).
Proof.
  intros Hinv Hin Heffect. destruct Hinv as [Hpt Htu Htd Hso Hsm Hkd].
  pose proof (Hpt _ _ Hin) as Htimer.
  destruct (Htu _ _ Htimer) as [Hlt Hunsettled].
  unfold Client.settle, Client.clearTimeout. cbv zeta.
  constructor; cbn [Client.pending Client.timers Client.log Client.requests].
  - intros id r Hr. apply elem_of_mapDelete in Hr as [Hr Hne]. cbn in Hne.
    apply elem_of_timer_filter. split; [apply Hpt, Hr|]. cbn.
    intros ->. apply Hne. apply (timers_same_request s request); auto.
  - intros r id Hr. apply elem_of_timer_filter in Hr as [Hr Hne]. cbn in Hne.
    destruct (Htu _ _ Hr) as [Hrlt Hrun]. split; [exact Hrlt|].
    rewrite !settledIn_snoc. cbn [Client.settled]. rewrite Heffect, app_nil_r.
    rewrite elem_of_app, list_elem_of_singleton. tauto.
  - apply NoDup_timer_filter, Htd.
  - rewrite !settledIn_snoc. cbn [Client.settled]. rewrite Heffect, app_nil_r.
    apply NoDup_app. split; [exact Hso|]. split; [|apply NoDup_singleton].
    intros r Hr Hr'. apply list_elem_of_singleton in Hr'. subst r. contradiction.
  - intros r. rewrite !settledIn_snoc. cbn [Client.settled].
    rewrite Heffect, app_nil_r, elem_of_app, list_elem_of_singleton.
    intros [Hr| ->]; [apply Hsm, Hr|exact Hlt].
  - apply NoDup_mapDelete, Hkd.
Qed.

Lemma elem_of_mapSet requestId request entries entry :
  entry ∈ Client.mapSet requestId request entries →
  entry = (requestId, request) ∨ entry ∈ entries.
Proof.
  induction entries as [|e entries IH]; cbn [Client.mapSet].
  - rewrite list_elem_of_singleton. tauto.
  - destruct (String.eqb e.1 requestId); rewrite !elem_of_cons; tauto.
Qed.

Lemma mapSet_keys requestId request entries :
  (Client.mapSet requestId request entries).*1
  = if bool_decide (requestId ∈ entries.*1) then entries.*1
    else entries.*1 ++ [requestId].
Proof.
  induction entries as [|e entries IH]; cbn [Client.mapSet].
  - rewrite bool_decide_eq_false_2; [reflexivity|]. cbn. apply not_elem_of_nil.
  - destruct (String.eqb_spec e.1 requestId) as [Heq|Hne].
    + rewrite !fmap_cons. cbn [fst]. rewrite bool_decide_eq_true_2; [congruence|].
      apply elem_of_cons. left. congruence.
    + rewrite !fmap_cons, IH. case_bool_decide as Hin.
      * rewrite bool_decide_eq_true_2; [reflexivity|]. apply elem_of_cons. tauto.
      * rewrite bool_decide_eq_false_2; [reflexivity|].
        rewrite elem_of_cons. intros [Heq|Hin']; [congruence|contradiction].
Qed.

(** A new request keeps the invariant, whether its id is already pending
    or not. *)
Lemma clientInvariant_wsRequest s requestId :
  clientInvariant s → clientInvariant (Client.wsRequest requestId s).
Proof.
  intros [Hpt Htu Htd Hso Hsm Hkd]. unfold Client.wsRequest. cbv zeta.
  constructor; cbn [Client.pending Client.timers Client.log Client.requests].
  - intros id r Hr. apply elem_of_mapSet in Hr as [Heq|Hr].
    + injection Heq as -> ->. apply elem_of_app. right. apply list_elem_of_singleton.
      reflexivity.
    + apply elem_of_app. left. apply Hpt, Hr.
  - intros r id Hr. apply elem_of_app in Hr as [Hr|Hr].
    + destruct (Htu _ _ Hr). split; [lia|assumption].
    + apply list_elem_of_singleton in Hr. injection Hr as -> ->. split; [lia|].
      intros Hin. apply Hsm in Hin. lia.
  - rewrite fmap_app. apply NoDup_app. split; [exact Htd|].
    split; [|apply NoDup_singleton].
    intros r Hr Hr'. cbn in Hr'. apply list_elem_of_singleton in Hr'. subst r.
    apply list_elem_of_fmap in Hr as ([r id] & Heq & Hr). cbn in Heq. subst r.
    destruct (Htu _ _ Hr). lia.
  - exact Hso.
  - intros r Hr. apply Hsm in Hr. lia.
  - rewrite mapSet_keys. case_bool_decide as Hin; [exact Hkd|].
    apply NoDup_app. split; [exact Hkd|]. split; [|apply NoDup_singleton].
    intros k Hk Hk'. apply list_elem_of_singleton in Hk'. subst k. contradiction.
Qed.

(** A timer that fires keeps the invariant. *)
Lemma clientInvariant_timeout s request :
  clientInvariant s → clientInvariant (Client.timeout request s).
Proof.
  intros Hinv. unfold Client.timeout.
  destruct (find _ (Client.timers s)) as [[r requestId]|] eqn:Hfind; [|exact Hinv].
  apply find_some in Hfind as [Hin Heq]. cbn in Heq.
  apply Nat.eqb_eq in Heq. subst r. apply list_elem_of_In in Hin.
  destruct Hinv as [Hpt Htu Htd Hso Hsm Hkd].
  destruct (Htu _ _ Hin) as [Hlt Hunsettled].
  constructor; cbn [Client.pending Client.timers Client.log Client.requests].
  - intros id r Hr. apply elem_of_mapDelete in Hr as [Hr Hne]. cbn in Hne.
    apply elem_of_timer_filter. split; [apply Hpt, Hr|]. cbn.
    intros ->. apply Hne. apply (timers_same_request s request); auto.
  - intros r id Hr. apply elem_of_timer_filter in Hr as [Hr Hne]. cbn in Hne.
    destruct (Htu _ _ Hr) as [Hrlt Hrun]. split; [exact Hrlt|].
    rewrite settledIn_snoc. cbn [Client.settled].
    rewrite elem_of_app, list_elem_of_singleton. tauto.
  - apply NoDup_timer_filter, Htd.
  - rewrite settledIn_snoc. cbn [Client.settled].
    apply NoDup_app. split; [exact Hso|]. split; [|apply NoDup_singleton].
    intros r Hr Hr'. apply list_elem_of_singleton in Hr'. subst r. contradiction.
  - intros r. rewrite settledIn_snoc. cbn [Client.settled].
    rewrite elem_of_app, list_elem_of_singleton.
    intros [Hr| ->]; [apply Hsm, Hr|exact Hlt].
  - apply NoDup_mapDelete, Hkd.
Qed.

Lemma mapGet_Some requestId entries request :
  Client.mapGet requestId entries = Some request → (requestId, request) ∈ entries.
Proof.
  unfold Client.mapGet. destruct (find _ entries) as [[id r]|] eqn:Hfind; [|discriminate].
  cbn. intros [= ->]. apply find_some in Hfind as [Hin Heq]. cbn in Heq.
  apply String.eqb_eq in Heq. subst id. apply list_elem_of_In, Hin.
Qed.

Lemma mapGet_mapDelete requestId entries :
  Client.mapGet requestId (Client.mapDelete requestId entries) = None.
Proof.
  unfold Client.mapGet.
  destruct (find _ (Client.mapDelete requestId entries)) as [e|] eqn:Hfind;
    [|reflexivity].
  apply find_some in Hfind as [Hin Heq]. apply list_elem_of_In in Hin.
  apply elem_of_mapDelete in Hin as [_ Hne]. apply String.eqb_eq in Heq. contradiction.
Qed.

Section MessagesKept.

Variable JSON_parse : string → option Client.Json.

(** What [handleSocketMessage] does, case by case: nothing, or the
    settlement of the request pending for the id of the message. *)
Lemma handleSocketMessage_cases data s s' :
  Client.handleSocketMessage JSON_parse data s = Some s' →
  s' = s ∨
  ∃ payload requestId request effect,
    JSON_parse data = Some payload
    ∧ Client.property "type" payload = Some (Client.JString "response")
    ∧ Client.property "requestId" payload = Some (Client.JString requestId)
    ∧ requestId ≠ ""%string
    ∧ Client.mapGet requestId (Client.pending s) = Some request
    ∧ effect = (if Client.truthy (Client.property "ok" payload)
                then Client.Resolve request (Client.property "data" payload)
                else
                  let error :=
                    match Client.property "error" payload with
                    | None | Some Client.JNull =>
                        Client.JObject
                          [("message"%string, Client.JString "Unknown error")]
                    | Some e => e
                    end in
                  Client.Reject request (Client.property "message" error)
                                (Client.property "status" error))
    ∧ s' = Client.settle requestId request effect s.
Proof.
  unfold Client.handleSocketMessage.
  destruct (JSON_parse data) as [payload|] eqn:Hparse; [|intros [= <-]; tauto].
  assert (Hgoal :
    (if (negb (Client.isString "response" (Client.property "type" payload))
         || negb (Client.truthy (Client.property "requestId" payload)))%bool
     then Some s
     else
       match Client.property "requestId" payload with
       | Some (Client.JString requestId) =>
           match Client.mapGet requestId (Client.pending s) with
           | None => Some s
           | Some request =>
               if Client.truthy (Client.property "ok" payload)
               then Some (Client.settle requestId request
                            (Client.Resolve request (Client.property "data" payload)) s)
               else
                 let error :=
                   match Client.property "error" payload with
                   | None | Some Client.JNull =>
                       Client.JObject
                         [("message"%string, Client.JString "Unknown error")]
                   | Some e => e
                   end in
                 Some (Client.settle requestId request
                         (Client.Reject request (Client.property "message" error)
                                        (Client.property "status" error)) s)
           end
       | _ => Some s
       end) = Some s' →
    s' = s ∨
    ∃ payload0 requestId request effect,
      Some payload = Some payload0
      ∧ Client.property "type" payload0 = Some (Client.JString "response")
      ∧ Client.property "requestId" payload0 = Some (Client.JString requestId)
      ∧ requestId ≠ ""%string
      ∧ Client.mapGet requestId (Client.pending s) = Some request
      ∧ effect = (if Client.truthy (Client.property "ok" payload0)
                  then Client.Resolve request (Client.property "data" payload0)
                  else
                    let error :=
                      match Client.property "error" payload0 with
                      | None | Some Client.JNull =>
                          Client.JObject
                            [("message"%string, Client.JString "Unknown error")]
                      | Some e => e
                      end in
                    Client.Reject request (Client.property "message" error)
                                  (Client.property "status" error))
      ∧ s' = Client.settle requestId request effect s).
  { destruct (Client.isString "response" (Client.property "type" payload)) eqn:Htype;
      [|intros [= <-]; tauto].
    destruct (Client.truthy (Client.property "requestId" payload)) eqn:Htruthy;
      [|intros [= <-]; tauto].
    cbn [negb orb].
    destruct (Client.property "requestId" payload) as [[| | |requestId| |]|] eqn:Hid;
      try (intros [= <-]; tauto).
    destruct (Client.mapGet requestId (Client.pending s)) as [request|] eqn:Hget;
      [|intros [= <-]; tauto].
    intros Hs'. right. exists payload, requestId, request.
    eexists. split; [reflexivity|].
    split.
    { unfold Client.isString in Htype.
      destruct (Client.property "type" payload) as [[| | |t| |]|]; try discriminate.
      apply String.eqb_eq in Htype. congruence. }
    split; [exact Hid|].
    split.
    { cbn in Htruthy. intros ->. discriminate. }
    split; [exact Hget|]. split; [reflexivity|].
    destruct (Client.truthy (Client.property "ok" payload));
      injection Hs' as <-; reflexivity. }
  destruct payload; try exact Hgoal. discriminate.
Qed.

Lemma clientInvariant_handleSocketMessage data s s' :
  clientInvariant s → Client.handleSocketMessage JSON_parse data s = Some s' →
  clientInvariant s'.
Proof.
  intros Hinv Hs'. apply handleSocketMessage_cases in Hs' as [->|Hs']; [exact Hinv|].
  destruct Hs' as (payload & requestId & request & effect & _ & _ & _ & _ & Hget
                   & Heffect & ->).
  apply clientInvariant_settle; [exact Hinv|apply mapGet_Some, Hget|].
  subst effect. destruct (Client.truthy _); reflexivity.
Qed.

End MessagesKept.

(** What [rejectAllPending] does to the entries it has yet to visit. *)
Lemma clientInvariant_rejectAll reason entries s :
  clientInvariant s → NoDup entries.*1 → entries ⊆ Client.pending s →
  clientInvariant
    (foldl (fun acc (entry : string * nat) =>
              Client.settle entry.1 entry.2
                (Client.Reject entry.2 (Some (Client.JString reason)) None) acc)
           s entries).
Proof.
  revert s. induction entries as [|[id r] entries IH]; intros s Hinv Hnd Hsub;
    [exact Hinv|].
  cbn [foldl fst snd]. rewrite fmap_cons in Hnd. apply NoDup_cons in Hnd as [Hhead Hnd].
  apply IH; [|exact Hnd|].
  - apply clientInvariant_settle; [exact Hinv| |reflexivity].
    apply Hsub, elem_of_cons. left. reflexivity.
  - intros e He. unfold Client.settle, Client.clearTimeout. cbn [Client.pending].
    apply elem_of_mapDelete. split; [apply Hsub, elem_of_cons; tauto|].
    intros Heq. apply Hhead. cbn [fst]. rewrite <- Heq.
    apply list_elem_of_fmap. exists e. split; [reflexivity|exact He].
Qed.

Lemma clientInvariant_initial : clientInvariant Client.initial.
Proof.
  constructor; cbn; try apply NoDup_nil_2; intros *; rewrite ?elem_of_nil; tauto.
Qed.

Lemma clientInvariant_handle JSON_parse s event :
  clientInvariant s → clientInvariant (Client.handle JSON_parse s event).
Proof.
  intros Hinv. destruct event as [requestId|request|data|]; cbn [Client.handle].
  - apply clientInvariant_wsRequest, Hinv.
  - apply clientInvariant_timeout, Hinv.
  - destruct (Client.handleSocketMessage JSON_parse data s) as [s'|] eqn:Hs';
      [|exact Hinv].
    cbn. eapply clientInvariant_handleSocketMessage; eauto.
  - apply clientInvariant_rejectAll; [exact Hinv|apply Hinv|reflexivity].
Qed.

Lemma clientInvariant_run JSON_parse history :
  clientInvariant (foldl (Client.handle JSON_parse) Client.initial history).
Proof.
  induction history as [|event history IH] using rev_ind.
  - apply clientInvariant_initial.
  - rewrite foldl_app. cbn [foldl]. apply clientInvariant_handle, IH.
Qed.

Lemma elem_of_timer_filter_fst request (timers : list (nat * string)) r :
  r ∈ (List.filter (fun t : nat * string => negb (t.1 =? request)%nat) timers).*1
  ↔ r ∈ timers.*1 ∧ r ≠ request.
Proof.
  rewrite !list_elem_of_fmap. split.
  - intros (t & -> & Ht). apply elem_of_timer_filter in Ht as [Ht Hne].
    split; [exists t; tauto|exact Hne].
  - intros [(t & -> & Ht) Hne]. exists t. split; [reflexivity|].
    apply elem_of_timer_filter. tauto.
Qed.

Lemma accountedFor_settle s requestId request effect :
  accountedFor s → Client.settled effect = Some request →
  accountedFor (Client.settle requestId request effect s).
Proof.
  intros Hacc Heffect r. unfold Client.settle, Client.clearTimeout.
  cbn [Client.pending Client.timers Client.log Client.requests].
  intros Hr. rewrite !settledIn_snoc. cbn [Client.settled].
  rewrite Heffect, app_nil_r, elem_of_app, list_elem_of_singleton.
  rewrite elem_of_timer_filter_fst.
  destruct (Nat.eq_dec r request) as [->|Hne]; [tauto|].
  destruct (Hacc r Hr); tauto.
Qed.

Lemma accountedFor_handle JSON_parse s event :
  accountedFor s → accountedFor (Client.handle JSON_parse s event).
Proof.
  intros Hacc. destruct event as [requestId|request|data|]; cbn [Client.handle].
  - intros r. unfold Client.wsRequest.
    cbn [Client.pending Client.timers Client.log Client.requests].
    intros Hr. rewrite fmap_app, elem_of_app. cbn [fmap list_fmap fst].
    rewrite list_elem_of_singleton.
    destruct (Nat.eq_dec r (Client.requests s)) as [->|Hne]; [tauto|].
    destruct (Hacc r ltac:(lia)); tauto.
  - unfold Client.timeout.
    destruct (find _ (Client.timers s)) as [[r0 requestId]|] eqn:Hfind; [|exact Hacc].
    apply find_some in Hfind as [_ Heq]. cbn in Heq. apply Nat.eqb_eq in Heq. subst r0.
    intros r. cbn [Client.pending Client.timers Client.log Client.requests].
    intros Hr. rewrite settledIn_snoc. cbn [Client.settled].
    rewrite elem_of_app, list_elem_of_singleton, elem_of_timer_filter_fst.
    destruct (Nat.eq_dec r request) as [->|Hne]; [tauto|].
    destruct (Hacc r Hr); tauto.
  - destruct (Client.handleSocketMessage JSON_parse data s) as [s'|] eqn:Hs';
      [|exact Hacc].
    cbn. apply handleSocketMessage_cases in Hs' as [->|Hs']; [exact Hacc|].
    destruct Hs' as (payload & requestId & request & effect & _ & _ & _ & _ & _
                     & Heffect & ->).
    apply accountedFor_settle; [exact Hacc|].
    subst effect. destruct (Client.truthy _); reflexivity.
  - unfold Client.rejectAllPending. generalize (Client.pending s) as entries.
    intros entries. revert s Hacc.
    induction entries as [|e entries IH]; intros s Hacc; [exact Hacc|].
    cbn [foldl]. apply IH. apply accountedFor_settle; [exact Hacc|reflexivity].
Qed.

Lemma accountedFor_run JSON_parse history :
  accountedFor (foldl (Client.handle JSON_parse) Client.initial history).
Proof.
  induction history as [|event history IH] using rev_ind.
  - intros r. cbn. lia.
  - rewrite foldl_app. cbn [foldl]. apply accountedFor_handle, IH.
Qed.

(** What the loop of [rejectAllPending] has done after the entries it
    has visited. *)
Lemma rejectAll_fold reason entries s :
  let s' :=
    foldl (fun acc (entry : string * nat) =>
             Client.settle entry.1 entry.2
               (Client.Reject entry.2 (Some (Client.JString reason)) None) acc)
          s entries in
  Client.log s'
  = Client.log s
    ++ flat_map (fun entry : string * nat =>
                   [Client.ClearTimeout entry.2;
                    Client.Reject entry.2 (Some (Client.JString reason)) None])
                entries
  ∧ (∀ e, e ∈ Client.pending s' ↔ e ∈ Client.pending s ∧ e.1 ∉ entries.*1)
  ∧ (∀ t, t ∈ Client.timers s' ↔ t ∈ Client.timers s ∧ t.1 ∉ entries.*2)
  ∧ Client.requests s' = Client.requests s.
Proof.
  cbv zeta. revert s. induction entries as [|[id r] entries IH]; intros s.
  - cbn [foldl flat_map fmap list_fmap]. rewrite app_nil_r.
    repeat split; try tauto; intros; try apply not_elem_of_nil; tauto.
  - cbn [foldl fst snd].
    destruct (IH (Client.settle id r
                    (Client.Reject r (Some (Client.JString reason)) None) s))
      as (Hlog & Hpending & Htimers & Hrequests).
    rewrite Hlog, Hrequests. unfold Client.settle at 1 4, Client.clearTimeout.
    cbn [Client.pending Client.timers Client.log Client.requests flat_map fst snd].
    split; [rewrite <- !app_assoc; reflexivity|].
    split; [|split; [|reflexivity]].
    + intros e. rewrite Hpending. unfold Client.settle, Client.clearTimeout.
      cbn [Client.pending]. rewrite elem_of_mapDelete, fmap_cons, not_elem_of_cons.
      cbn [fst]. tauto.
    + intros t. rewrite Htimers. unfold Client.settle, Client.clearTimeout.
      cbn [Client.timers]. rewrite elem_of_timer_filter, fmap_cons, not_elem_of_cons.
      cbn [snd]. tauto.
Qed.

(** X20.  After any history of requests, timers firing, messages and
    closes of the socket: no request has been settled (resolved or
    rejected) twice; the requests made are exactly those that are settled
    or still have their timer set, so none is lost; a request with its
    timer set is not settled; and a request found in [pending] under an id
    has its timer set, for that id. *)
Theorem no_request_is_settled_twice_or_lost
    (JSON_parse : string → option Client.Json) (history : list Client.Event) :
  let s := foldl (Client.handle JSON_parse) Client.initial history in
  NoDup (settledIn (Client.log s))
  ∧ (∀ request,
       (request < Client.requests s)%nat ↔
       request ∈ settledIn (Client.log s) ∨ request ∈ (Client.timers s).*1)
  ∧ (∀ request, request ∈ (Client.timers s).*1 → request ∉ settledIn (Client.log s))
  ∧ (∀ requestId request,
       Client.mapGet requestId (Client.pending s) = Some request →
       (request, requestId) ∈ Client.timers s).
Proof.
  cbv zeta. pose proof (clientInvariant_run JSON_parse history) as Hinv.
  pose proof (accountedFor_run JSON_parse history) as Hacc.
  set (s := foldl _ _ _) in *. destruct Hinv as [Hpt Htu Htd Hso Hsm Hkd].
  split; [exact Hso|]. split; [|split].
  - intros r. split; [apply Hacc|]. intros [Hr|Hr]; [apply Hsm, Hr|].
    apply list_elem_of_fmap in Hr as ([r' id] & -> & Hr). apply (Htu _ _ Hr).
  - intros r Hr. apply list_elem_of_fmap in Hr as ([r' id] & -> & Hr). apply (Htu _ _ Hr).
  - intros id r Hget. apply Hpt, mapGet_Some, Hget.
Qed.

(** X21.  [handleSocketMessage] throws exactly when the message parses
    to [null].  Otherwise it changes something only for a message of type
    [response] whose [requestId] is a string with a pending request: then
    the request leaves [pending], its timer is cleared and it is resolved
    or rejected, once.  Handling the same message again changes
    nothing. *)
Theorem message_settles_the_pending_request_once
    (JSON_parse : string → option Client.Json) (data : string) (s : Client.State) :
  match Client.handleSocketMessage JSON_parse data s with
  | None => JSON_parse data = Some Client.JNull
  | Some s' =>
      JSON_parse data ≠ Some Client.JNull
      ∧ Client.handleSocketMessage JSON_parse data s' = Some s'
      ∧ (s' = s
         ∨ ∃ payload requestId request effect,
             JSON_parse data = Some payload
             ∧ Client.property "type" payload = Some (Client.JString "response")
             ∧ Client.property "requestId" payload = Some (Client.JString requestId)
             ∧ Client.mapGet requestId (Client.pending s) = Some request
             ∧ Client.settled effect = Some request
             ∧ Client.pending s' = Client.mapDelete requestId (Client.pending s)
             ∧ (request ∉ (Client.timers s').*1)
             ∧ Client.log s' = Client.log s ++ [Client.ClearTimeout request; effect])
  end.
Proof.
  destruct (Client.handleSocketMessage JSON_parse data s) as [s'|] eqn:Hs'.
  - split.
    { intros Hnull. unfold Client.handleSocketMessage in Hs'. rewrite Hnull in Hs'.
      discriminate. }
    pose proof Hs' as Hcases.
    apply handleSocketMessage_cases in Hcases as [->|Hcases]; [tauto|].
    destruct Hcases as (payload & requestId & request & effect & Hparse & Htype & Hid
                        & Hne & Hget & Heffect & ->).
    assert (Hsettled : Client.settled effect = Some request)
      by (subst effect; destruct (Client.truthy _); reflexivity).
    split.
    + unfold Client.handleSocketMessage. rewrite Hparse.
      assert (Hagain :
        (if (negb (Client.isString "response" (Client.property "type" payload))
             || negb (Client.truthy (Client.property "requestId" payload)))%bool
         then Some (Client.settle requestId request effect s)
         else
           match Client.property "requestId" payload with
           | Some (Client.JString requestId0) =>
               match Client.mapGet requestId0
                       (Client.pending (Client.settle requestId request effect s)) with
               | None => Some (Client.settle requestId request effect s)
               | Some request0 =>
                   if Client.truthy (Client.property "ok" payload)
                   then Some (Client.settle requestId0 request0
                                (Client.Resolve request0
                                   (Client.property "data" payload))
                                (Client.settle requestId request effect s))
                   else
                     let error :=
                       match Client.property "error" payload with
                       | None | Some Client.JNull =>
                           Client.JObject
                             [("message"%string, Client.JString "Unknown error")]
                       | Some e => e
                       end in
                     Some (Client.settle requestId0 request0
                             (Client.Reject request0
                                (Client.property "message" error)
                                (Client.property "status" error))
                             (Client.settle requestId request effect s))
               end
           | _ => Some (Client.settle requestId request effect s)
           end) = Some (Client.settle requestId request effect s)).
      { rewrite Hid. unfold Client.settle at 2, Client.clearTimeout.
        cbn [Client.pending]. rewrite mapGet_mapDelete.
        destruct (_ || _)%bool; reflexivity. }
      destruct payload; try exact Hagain.
      unfold Client.handleSocketMessage in Hs'. rewrite Hparse in Hs'. discriminate.
    + right. exists payload, requestId, request, effect.
      repeat (split; [assumption|]).
      unfold Client.settle, Client.clearTimeout.
      cbn [Client.pending Client.timers Client.log Client.requests].
      split; [reflexivity|]. split; [|rewrite <- app_assoc; reflexivity].
      rewrite elem_of_timer_filter_fst. tauto.
  - unfold Client.handleSocketMessage in Hs'.
    destruct (JSON_parse data) as [payload|]; [|discriminate].
    destruct payload; try reflexivity;
      repeat match type of Hs' with
             | (if ?c then _ else _) = None => destruct c
             | match ?c with _ => _ end = None => destruct c
             end; discriminate.
Qed.

(** X22.  When the socket closes, after any history: [pending] is left
    empty, and the timer of every request that was pending is cleared and
    the request rejected with [WebSocket connection closed.], in the order
    the ids were first set.  The pending requests are distinct, had not
    been settled before, and have no timer left. *)
Theorem close_rejects_every_pending_request
    (JSON_parse : string → option Client.Json) (history : list Client.Event) :
  let s := foldl (Client.handle JSON_parse) Client.initial history in
  let s' := Client.handle JSON_parse s Client.Closed in
  Client.pending s' = []
  ∧ Client.log s'
    = Client.log s
      ++ flat_map (fun entry : string * nat =>
                     [Client.ClearTimeout entry.2;
                      Client.Reject entry.2
                        (Some (Client.JString "WebSocket connection closed.")) None])
                  (Client.pending s)
  ∧ NoDup (Client.pending s).*2
  ∧ (∀ requestId request,
       (requestId, request) ∈ Client.pending s →
       (request ∉ (Client.timers s').*1) ∧ request ∉ settledIn (Client.log s)).
Proof.
  cbv zeta. pose proof (clientInvariant_run JSON_parse history) as Hinv.
  set (s := foldl _ _ _) in *. cbn [Client.handle]. unfold Client.rejectAllPending.
  destruct (rejectAll_fold "WebSocket connection closed." (Client.pending s) s)
    as (Hlog & Hpending & Htimers & _).
  split; [|split; [exact Hlog|split]].
  - destruct (foldl _ s (Client.pending s)).(Client.pending) as [|e rest] eqn:Heq;
      [reflexivity|].
    exfalso. destruct (Hpending e) as [Hp _].
    destruct Hp as [Hin Hnot]; [apply elem_of_cons; tauto|].
    apply Hnot. apply list_elem_of_fmap. exists e. tauto.
  - destruct Hinv as [Hpt Htu Htd Hso Hsm Hkd].
    apply NoDup_alt. intros i j r Hi Hj.
    rewrite list_lookup_fmap in Hi, Hj.
    destruct (Client.pending s !! i) as [[id1 r1]|] eqn:Hi'; [|discriminate].
    destruct (Client.pending s !! j) as [[id2 r2]|] eqn:Hj'; [|discriminate].
    cbn in Hi, Hj. injection Hi as ->. injection Hj as ->.
    assert (id1 = id2).
    { apply (timers_same_request s r); [exact Htd| |];
        apply Hpt; eapply list_elem_of_lookup_2; eauto. }
    subst id2. apply (NoDup_lookup _ _ _ id1 Hkd); rewrite list_lookup_fmap.
    + rewrite Hi'. reflexivity.
    + rewrite Hj'. reflexivity.
  - intros id r Hin. split.
    + intros Ht. apply list_elem_of_fmap in Ht as (t & -> & Ht).
      apply Htimers in Ht as [_ Hnot]. apply Hnot.
      apply list_elem_of_fmap. exists (id, t.1). tauto.
    + destruct Hinv as [Hpt Htu Htd Hso Hsm Hkd]. apply (Htu _ _ (Hpt _ _ Hin)).
Qed.
